(** * SimpleVector: a shallow embedding of [simple_vector.h]

    The container is a C++ class template whose objects own a heap block
    through [ArrayPtr<Type>].  Objects have identity (the assignment
    operators compare [this] with [&rhs]) and methods mutate both the
    object's fields and the owned block, so the embedding threads an
    explicit program state -- an object store and a heap of blocks --
    through a small state-and-error monad.  [size_t] is a 64-bit unsigned
    integer: it is a [Z] whose arithmetic is reduced modulo [2^64]. *)

From stdpp Require Import base gmap list strings.
From Stdlib Require Import ZArith Lia.

Local Open Scope Z_scope.

(** ** Machine integers *)

Definition size_t_modulus : Z := 2 ^ 64.

(** Reduction of an integer to the range of [size_t]; this is also
    [static_cast<size_t>] on a [ptrdiff_t]. *)
Definition wrap (z : Z) : Z := z mod size_t_modulus.

(** ** Addresses, pointers, exceptions *)

(** Address of a heap block ([new Type[n]]). *)
Abbreviation addr := positive.

(** Address of a [SimpleVector] object. *)
Abbreviation loc := positive.

(** A [Type*]: the null pointer, or an element position inside a block
    (the position one past the last element included). *)
Inductive ptr : Type :=
| nullptr
| Ptr (b : addr) (i : Z).

(** The only exceptions of the program. *)
Inductive exn : Type :=
| out_of_range (what : string)
| bad_alloc.

(** What the class template needs of its element type [Type]: the
    value-initialised object [Type{}], and the state in which a
    move-assignment leaves its source (an [int] keeps its value, a
    [std::string] becomes empty). *)
Class Element (T : Type) : Type := {
  dflt : T;
  moved_from : T -> T
}.

(** The free store: [new Type[n]] delivers an array exactly when [n] is
    at most [alloc_limit]; no array has more than [PTRDIFF_MAX]
    elements. *)
Class Allocator : Type := {
  alloc_limit : Z;
  alloc_limit_ptrdiff : 0 <= alloc_limit < 2 ^ 63
}.

(** What the comparison operators need of the element type: its
    [operator==] and [operator<]. *)
Class Comparable (T : Type) : Type := {
  elem_eq : T -> T -> bool;
  elem_lt : T -> T -> bool
}.

Module SimpleVectorModel.
Section Model.

Context {T : Type} {elt : Element T} {mem : Allocator}.

(** Modelled from the spec: the raw buffer owner [ArrayPtr<Type>] of
    [array_ptr.h], which is not among the sources.  It holds one raw
    pointer ([None] is the null pointer). *)
Record ArrayPtr : Type := mkArrayPtr { raw_ptr_ : option addr }.

(** The data members of [SimpleVector<Type>], in declaration order. *)
Record SimpleVector : Type := mkSimpleVector {
  storage_ : ArrayPtr;
  size_ : Z;
  capacity_ : Z
}.

(** [class ReserveProxyObj]. *)
Record ReserveProxyObj : Type := mkReserveProxyObj { value : Z }.

Definition GetValue (r : ReserveProxyObj) : Z := value r.

(** The free function [Reserve(size_t)]. *)
Definition ReserveProxy (capacity_to_reserve : Z) : ReserveProxyObj :=
  mkReserveProxyObj capacity_to_reserve.

(** Program state: the allocated blocks and the live vector objects. *)
Record state : Type := mkState {
  heap : gmap addr (list T);
  objs : gmap loc SimpleVector
}.

Definition empty_state : state := mkState ∅ ∅.

(** ** The monad *)

Inductive outcome (A : Type) : Type :=
| Ret (a : A) (σ : state)      (* normal return *)
| Throw (e : exn) (σ : state)  (* a C++ exception leaves the call *)
| Undefined                    (* undefined behaviour *)
| Diverge.                     (* a loop did not finish within its fuel *)
Global Arguments Ret {A} a σ.
Global Arguments Throw {A} e σ.
Global Arguments Undefined {A}.
Global Arguments Diverge {A}.

Definition M (A : Type) : Type := state -> outcome A.

Definition ret {A} (a : A) : M A := fun σ => Ret a σ.

Definition bind {A B} (m : M A) (k : A -> M B) : M B :=
  fun σ =>
    match m σ with
    | Ret a σ' => k a σ'
    | Throw e σ' => Throw e σ'
    | Undefined => Undefined
    | Diverge => Diverge
    end.

Definition throw {A} (e : exn) : M A := fun σ => Throw e σ.
Definition undefined {A} : M A := fun _ => Undefined.
Definition diverge {A} : M A := fun _ => Diverge.

Global Instance M_ret : MRet M := @ret.
Global Instance M_bind : MBind M := fun A B k m => bind m k.

(** ** Memory primitives *)

(** The contents of an allocated block; using a block that is not
    allocated is undefined. *)
Definition block (b : addr) : M (list T) :=
  fun σ => match heap σ !! b with
           | Some l => Ret l σ
           | None => Undefined
           end.

Definition put_block (b : addr) (l : list T) : M unit :=
  fun σ => Ret tt (mkState (<[b := l]> (heap σ)) (objs σ)).

(** [new Type[n]]: a fresh block of [n] value-initialised elements, or
    [bad_alloc] when the request exceeds what can be allocated. *)
Definition alloc_array (n : Z) : M addr :=
  fun σ =>
    if decide (n <= alloc_limit) then
      let b := fresh (dom (heap σ)) in
      Ret b (mkState (<[b := replicate (Z.to_nat n) dflt]> (heap σ)) (objs σ))
    else Throw bad_alloc σ.

(** [delete[] p] for a non-null [p]. *)
Definition free_array (b : addr) : M unit :=
  fun σ => match heap σ !! b with
           | Some _ => Ret tt (mkState (delete b (heap σ)) (objs σ))
           | None => Undefined
           end.

(** [*p] as an rvalue. *)
Definition load (p : ptr) : M T :=
  match p with
  | nullptr => undefined
  | Ptr b i =>
      l ← block b;
      if decide (0 <= i) then
        match l !! Z.to_nat i with
        | Some x => mret x
        | None => undefined
        end
      else undefined
  end.

(** [*p = x]. *)
Definition store (p : ptr) (x : T) : M unit :=
  match p with
  | nullptr => undefined
  | Ptr b i =>
      l ← block b;
      if decide (0 <= i < Z.of_nat (length l)) then
        put_block b (<[Z.to_nat i := x]> l)
      else undefined
  end.

(** What a [const Type&] or [Type&&] parameter is bound to: an object that
    lies in no buffer (a temporary, a variable of the caller), given by
    the value it holds, or an element of a buffer, given by its address.
    The callee reads it when it uses it, not when it is called. *)
Inductive reference : Type :=
  | Outside (x : T)
  | Inside (p : ptr).

(** Reading through a reference. *)
Definition deref (r : reference) : M T :=
  match r with
  | Outside x => mret x
  | Inside p => load p
  end.

(** What a move from the referenced object, which held [x], leaves in it;
    an object outside the buffers is not part of the state. *)
Definition leave_moved (r : reference) (x : T) : M unit :=
  match r with
  | Outside _ => mret tt
  | Inside p => store p (moved_from x)
  end.

(** [p + n]: defined inside a block up to one past its end, and for the
    null pointer only when [n] is zero. *)
Definition ptr_add (p : ptr) (n : Z) : M ptr :=
  match p with
  | nullptr => if decide (n = 0) then mret nullptr else undefined
  | Ptr b i =>
      l ← block b;
      if decide (0 <= i + n <= Z.of_nat (length l)) then mret (Ptr b (i + n))
      else undefined
  end.

(** [++p] and [--p] inside the loops of the algorithms below; the element
    accesses around them check the bounds. *)
Definition ptr_next (p : ptr) : ptr :=
  match p with
  | nullptr => nullptr
  | Ptr b i => Ptr b (i + 1)
  end.

Definition ptr_prev (p : ptr) : ptr :=
  match p with
  | nullptr => nullptr
  | Ptr b i => Ptr b (i - 1)
  end.

(** [std::distance(p, q)], that is [q - p]: defined for two null pointers
    and for two positions of one block. *)
Definition std_distance (p q : ptr) : M Z :=
  match p, q with
  | nullptr, nullptr => mret 0
  | Ptr b i, Ptr b' j => if decide (b = b') then mret (j - i) else undefined
  | _, _ => undefined
  end.

(** ** The algorithms of [<algorithm>] and [<utility>] the class uses *)

(** One iteration move-assigns the element at [first] to the one at
    [d_first] and advances both. *)
Fixpoint move_n (n : nat) (first d_first : ptr) : M ptr :=
  match n with
  | O => mret d_first
  | S n' =>
      x ← load first;
      store d_first x;;
      store first (moved_from x);;
      move_n n' (ptr_next first) (ptr_next d_first)
  end.

(** [std::move(first, last, d_first)]; a range whose end precedes its
    start runs off the block. *)
Definition std_move (first last d_first : ptr) : M ptr :=
  n ← std_distance first last;
  if decide (0 <= n) then move_n (Z.to_nat n) first d_first else undefined.

(** One iteration steps [last] and [d_last] back and move-assigns the
    element at [last] to the one at [d_last]. *)
Fixpoint move_backward_n (n : nat) (last d_last : ptr) : M ptr :=
  match n with
  | O => mret d_last
  | S n' =>
      x ← load (ptr_prev last);
      store (ptr_prev d_last) x;;
      store (ptr_prev last) (moved_from x);;
      move_backward_n n' (ptr_prev last) (ptr_prev d_last)
  end.

(** [std::move_backward(first, last, d_last)]. *)
Definition std_move_backward (first last d_last : ptr) : M ptr :=
  n ← std_distance first last;
  if decide (0 <= n) then move_backward_n (Z.to_nat n) last d_last
  else undefined.

(** One iteration is [*d_first++ = *first++]. *)
Fixpoint copy_n (n : nat) (first d_first : ptr) : M ptr :=
  match n with
  | O => mret d_first
  | S n' =>
      x ← load first;
      store d_first x;;
      copy_n n' (ptr_next first) (ptr_next d_first)
  end.

(** [std::copy(first, last, d_first)] between blocks. *)
Definition std_copy (first last d_first : ptr) : M ptr :=
  n ← std_distance first last;
  if decide (0 <= n) then copy_n (Z.to_nat n) first d_first else undefined.

(** [std::copy(init.begin(), init.end(), d_first)] from an
    [std::initializer_list], whose elements are not in the modelled heap. *)
Fixpoint copy_init (init : list T) (d_first : ptr) : M ptr :=
  match init with
  | [] => mret d_first
  | x :: init' => store d_first x;; copy_init init' (ptr_next d_first)
  end.

(** One iteration is [*first++ = value]. *)
Fixpoint fill_n (n : nat) (first : ptr) (value : T) : M unit :=
  match n with
  | O => mret tt
  | S n' => store first value;; fill_n n' (ptr_next first) value
  end.

(** [std::fill(first, last, value)]. *)
Definition std_fill (first last : ptr) (value : T) : M unit :=
  n ← std_distance first last;
  if decide (0 <= n) then fill_n (Z.to_nat n) first value else undefined.

(** [std::exchange(obj, new_value)] with [new_value] a [const Type&]:
    [T old_value = std::move(obj); obj = new_value; return old_value]. *)
Definition std_exchange (obj : ptr) (new_value : reference) : M T :=
  old_value ← load obj;
  store obj (moved_from old_value);;
  x ← deref new_value;
  store obj x;;
  mret old_value.

(** [std::exchange(obj, std::move(value))]: the assignment is a move
    assignment, which leaves the object it takes from moved-from. *)
Definition std_exchange_rvalue (obj : ptr) (new_value : reference) : M T :=
  old_value ← load obj;
  store obj (moved_from old_value);;
  x ← deref new_value;
  store obj x;;
  leave_moved new_value x;;
  mret old_value.

(** ** ArrayPtr *)

(** Modelled from the spec: [ArrayPtr()] holds no allocation. *)
Definition ArrayPtr_default : ArrayPtr := mkArrayPtr None.

(** Modelled from the spec: [ArrayPtr(size)] allocates zero or more
    default-valued slots; no slots means no allocation. *)
Definition ArrayPtr_new (size : Z) : M ArrayPtr :=
  if size =? 0 then mret (mkArrayPtr None)
  else b ← alloc_array size; mret (mkArrayPtr (Some b)).

(** Modelled from the spec: the destructor releases the block exactly
    once. *)
Definition ArrayPtr_delete (a : ArrayPtr) : M unit :=
  match raw_ptr_ a with
  | None => mret tt
  | Some b => free_array b
  end.

(** Modelled from the spec: raw pointer access, [Get()]. *)
Definition Get (a : ArrayPtr) : ptr :=
  match raw_ptr_ a with
  | None => nullptr
  | Some b => Ptr b 0
  end.

(** Modelled from the spec: raw pointer access, the lvalue [a[index]];
    the class takes its address also one past the last slot. *)
Definition ArrayPtr_index (a : ArrayPtr) (index : Z) : M ptr :=
  ptr_add (Get a) index.

(** ** Objects *)

(** The object [*this]; a method call on storage that holds no vector is
    undefined. *)
Definition obj (this : loc) : M SimpleVector :=
  fun σ => match objs σ !! this with
           | Some v => Ret v σ
           | None => Undefined
           end.

Definition put_obj (this : loc) (v : SimpleVector) : M unit :=
  fun σ => Ret tt (mkState (heap σ) (<[this := v]> (objs σ))).

Definition set_storage (this : loc) (a : ArrayPtr) : M unit :=
  v ← obj this; put_obj this (mkSimpleVector a (size_ v) (capacity_ v)).

Definition set_size (this : loc) (n : Z) : M unit :=
  v ← obj this; put_obj this (mkSimpleVector (storage_ v) n (capacity_ v)).

Definition set_capacity (this : loc) (n : Z) : M unit :=
  v ← obj this; put_obj this (mkSimpleVector (storage_ v) (size_ v) n).

(** The end of a constructor's member initialisers: the object starts to
    exist at [this], which must not hold an object already. *)
Definition construct (this : loc) (v : SimpleVector) : M unit :=
  fun σ => match objs σ !! this with
           | Some _ => Undefined
           | None => Ret tt (mkState (heap σ) (<[this := v]> (objs σ)))
           end.

(** Storage for a local variable of class type. *)
Definition fresh_loc : M loc := fun σ => Ret (fresh (dom (objs σ))) σ.

Definition end_lifetime (this : loc) : M unit :=
  fun σ => Ret tt (mkState (heap σ) (delete this (objs σ))).

(** The implicit destructor: the member [storage_] releases its block and
    the object ceases to exist. *)
Definition destroy (this : loc) : M unit :=
  v ← obj this;
  ArrayPtr_delete (storage_ v);;
  end_lifetime this.

(** ** Iterators and queries *)

Definition begin (this : loc) : M ptr :=
  v ← obj this; mret (Get (storage_ v)).

Definition end_ (this : loc) : M ptr :=
  v ← obj this; ArrayPtr_index (storage_ v) (size_ v).

Definition cbegin (this : loc) : M ptr :=
  v ← obj this; mret (Get (storage_ v)).

Definition cend (this : loc) : M ptr :=
  v ← obj this; ArrayPtr_index (storage_ v) (size_ v).

Definition begin_const (this : loc) : M ptr := cbegin this.

Definition end_const (this : loc) : M ptr := cend this.

Definition GetSize (this : loc) : M Z :=
  v ← obj this; mret (size_ v).

Definition GetCapacity (this : loc) : M Z :=
  v ← obj this; mret (capacity_ v).

Definition IsEmpty (this : loc) : M bool :=
  v ← obj this; mret (size_ v =? 0).

(** [operator[]]: a reference to the element, as its address. *)
Definition subscript (this : loc) (index : Z) : M ptr :=
  v ← obj this; ArrayPtr_index (storage_ v) index.

Definition subscript_const (this : loc) (index : Z) : M ptr :=
  v ← obj this; ArrayPtr_index (storage_ v) index.

Definition At (this : loc) (index : Z) : M ptr :=
  v ← obj this;
  if index >=? size_ v then throw (out_of_range "out_of_range")
  else ArrayPtr_index (storage_ v) index.

Definition At_const (this : loc) (index : Z) : M ptr :=
  v ← obj this;
  if index >=? size_ v then throw (out_of_range "out_of_range")
  else ArrayPtr_index (storage_ v) index.

(** ** Constructors *)

(** [SimpleVector() noexcept = default]. *)
Definition SimpleVector_default (this : loc) : M unit :=
  construct this (mkSimpleVector ArrayPtr_default 0 0).

(** [SimpleVector(size_t size, const Type& value)].  The reference is
    read while the new buffer is filled; it cannot lie in that buffer, so
    it is given by the value it holds. *)
Definition SimpleVector_fill (this : loc) (size : Z) (value : T) : M unit :=
  storage ← ArrayPtr_new size;
  construct this (mkSimpleVector storage size size);;
  last ← ArrayPtr_index storage size;
  std_fill (Get storage) last value.

(** [explicit SimpleVector(size_t size)]. *)
Definition SimpleVector_sized (this : loc) (size : Z) : M unit :=
  SimpleVector_fill this size dflt.

(** [SimpleVector(std::initializer_list<Type> init)]. *)
Definition SimpleVector_init (this : loc) (init : list T) : M unit :=
  let n := Z.of_nat (length init) in
  storage ← ArrayPtr_new n;
  construct this (mkSimpleVector storage n n);;
  copy_init init (Get storage);;
  mret tt.

(** [SimpleVector(const SimpleVector& other)]. *)
Definition SimpleVector_copy (this other : loc) : M unit :=
  o ← obj other;
  storage ← ArrayPtr_new (size_ o);
  construct this (mkSimpleVector storage (size_ o) (size_ o));;
  first ← begin_const other;
  last ← end_const other;
  std_copy first last (Get storage);;
  mret tt.

(** [SimpleVector(SimpleVector&& other)].  The three member initialisers
    run in declaration order; moving an [ArrayPtr] (modelled from the
    spec: move-only ownership transfer) hands over the raw pointer and
    leaves the source null. *)
Definition SimpleVector_move (this other : loc) : M unit :=
  (* storage_(std::move(other.storage_)) *)
  o ← obj other;
  let storage := storage_ o in
  set_storage other (mkArrayPtr None);;
  (* size_(std::exchange(other.size_, 0)) *)
  o ← obj other;
  let size := size_ o in
  set_size other 0;;
  (* capacity_(std::exchange(other.size_, 0)) *)
  o ← obj other;
  let capacity := size_ o in
  set_size other 0;;
  construct this (mkSimpleVector storage size capacity).

(** ** Capacity *)

Definition Clear (this : loc) : M unit := set_size this 0.

(** The doubling loop of [Resize]; [fuel] bounds its iterations. *)
Fixpoint grow_loop (fuel : nat) (new_size new_capacity : Z) : M Z :=
  if new_size >? new_capacity then
    match fuel with
    | O => diverge
    | S fuel' => grow_loop fuel' new_size (wrap (new_capacity * 2))
    end
  else mret new_capacity.

(** [FillWithDefault(first, last)]: assigns [Type{}] to each element. *)
Definition FillWithDefault (first last : ptr) : M unit :=
  n ← std_distance first last;
  if decide (0 <= n) then fill_n (Z.to_nat n) first dflt else undefined.

Definition Resize (fuel : nat) (this : loc) (new_size : Z) : M unit :=
  v ← obj this;
  if new_size >? capacity_ v then
    new_capacity ←
      grow_loop fuel new_size (if capacity_ v =? 0 then 1 else capacity_ v);
    tmp ← ArrayPtr_new new_capacity;
    last ← ArrayPtr_index (storage_ v) (size_ v);
    std_move (Get (storage_ v)) last (Get tmp);;
    first ← ArrayPtr_index tmp (size_ v);
    last ← ArrayPtr_index tmp new_capacity;
    FillWithDefault first last;;
    (* storage_.swap(tmp) *)
    set_storage this tmp;;
    let tmp := storage_ v in
    set_size this new_size;;
    set_capacity this new_capacity;;
    ArrayPtr_delete tmp
  else if new_size >? size_ v then
    first ← ArrayPtr_index (storage_ v) (size_ v);
    last ← ArrayPtr_index (storage_ v) new_size;
    FillWithDefault first last;;
    set_size this new_size
  else set_size this new_size.

Definition Reserve (this : loc) (new_capacity : Z) : M unit :=
  v ← obj this;
  if new_capacity >? capacity_ v then
    tmp ← ArrayPtr_new new_capacity;
    first ← begin this;
    last ← end_ this;
    std_move first last (Get tmp);;
    (* storage_.swap(tmp) *)
    set_storage this tmp;;
    let tmp := storage_ v in
    set_capacity this new_capacity;;
    ArrayPtr_delete tmp
  else mret tt.

(** The body of a constructor, run once the members are initialised: when
    it throws, the members are destroyed, no object is left at [this] and
    the exception goes on to the caller. *)
Definition constructor_body (this : loc) (body : M unit) : M unit :=
  fun σ => match body σ with
           | Throw e σ' =>
               match destroy this σ' with
               | Ret _ σ'' => Throw e σ''
               | Throw _ _ => Undefined
               | Undefined => Undefined
               | Diverge => Diverge
               end
           | o => o
           end.

(** [SimpleVector(ReserveProxyObj capacity_to_reserve)].  The members
    take their default initialisers; inside the class the unqualified
    name [Reserve] is the member function. *)
Definition SimpleVector_reserve (this : loc)
    (capacity_to_reserve : ReserveProxyObj) : M unit :=
  construct this (mkSimpleVector ArrayPtr_default 0 0);;
  constructor_body this (Reserve this (GetValue capacity_to_reserve)).

(** ** Insertion and removal *)

Definition Insert (this : loc) (pos : ptr) (value : reference) : M ptr :=
  first ← begin this;
  d ← std_distance first pos;
  let distance := wrap d in
  v ← obj this;
  if size_ v =? capacity_ v then
    let new_capacity := if capacity_ v =? 0 then 1 else wrap (capacity_ v * 2) in
    tmp ← ArrayPtr_new new_capacity;
    first ← begin this;
    mid ← ArrayPtr_index (storage_ v) distance;
    std_move first mid (Get tmp);;
    slot ← ArrayPtr_index tmp distance;
    std_exchange slot value;;
    mid ← ArrayPtr_index (storage_ v) distance;
    last ← end_ this;
    d_first ← ArrayPtr_index tmp (wrap (distance + 1));
    std_move mid last d_first;;
    (* storage_.swap(tmp) *)
    set_storage this tmp;;
    let tmp := storage_ v in
    set_size this (wrap (size_ v + 1));;
    set_capacity this new_capacity;;
    w ← obj this;
    result ← ArrayPtr_index (storage_ w) distance;
    ArrayPtr_delete tmp;;
    mret result
  else
    mid ← ArrayPtr_index (storage_ v) distance;
    last ← end_ this;
    d_last ← ptr_add last 1;
    std_move_backward mid last d_last;;
    slot ← ArrayPtr_index (storage_ v) distance;
    std_exchange slot value;;
    set_size this (wrap (size_ v + 1));;
    ArrayPtr_index (storage_ v) distance.

(** [Insert(ConstIterator, Type&&)]: the same statements, with [value]
    moved into the slot. *)
Definition Insert_rvalue (this : loc) (pos : ptr) (value : reference) :
    M ptr :=
  first ← begin this;
  d ← std_distance first pos;
  let distance := wrap d in
  v ← obj this;
  if size_ v =? capacity_ v then
    let new_capacity := if capacity_ v =? 0 then 1 else wrap (capacity_ v * 2) in
    tmp ← ArrayPtr_new new_capacity;
    first ← begin this;
    mid ← ArrayPtr_index (storage_ v) distance;
    std_move first mid (Get tmp);;
    slot ← ArrayPtr_index tmp distance;
    std_exchange_rvalue slot value;;
    mid ← ArrayPtr_index (storage_ v) distance;
    last ← end_ this;
    d_first ← ArrayPtr_index tmp (wrap (distance + 1));
    std_move mid last d_first;;
    (* storage_.swap(tmp) *)
    set_storage this tmp;;
    let tmp := storage_ v in
    set_size this (wrap (size_ v + 1));;
    set_capacity this new_capacity;;
    w ← obj this;
    result ← ArrayPtr_index (storage_ w) distance;
    ArrayPtr_delete tmp;;
    mret result
  else
    mid ← ArrayPtr_index (storage_ v) distance;
    last ← end_ this;
    d_last ← ptr_add last 1;
    std_move_backward mid last d_last;;
    slot ← ArrayPtr_index (storage_ v) distance;
    std_exchange_rvalue slot value;;
    set_size this (wrap (size_ v + 1));;
    ArrayPtr_index (storage_ v) distance.

Definition PushBack (this : loc) (item : reference) : M unit :=
  last ← end_ this;
  Insert this last item;;
  mret tt.

Definition PushBack_rvalue (this : loc) (item : reference) : M unit :=
  last ← end_ this;
  Insert_rvalue this last item;;
  mret tt.

Definition PopBack (this : loc) : M unit :=
  v ← obj this; set_size this (wrap (size_ v - 1)).

Definition Erase (this : loc) (pos : ptr) : M ptr :=
  first ← begin this;
  d ← std_distance first pos;
  let distance := wrap d in
  v ← obj this;
  next ← ArrayPtr_index (storage_ v) (wrap (distance + 1));
  last ← end_ this;
  slot ← ArrayPtr_index (storage_ v) distance;
  std_move next last slot;;
  set_size this (wrap (size_ v - 1));;
  ArrayPtr_index (storage_ v) distance.

(** ** Swap and assignment *)

(** [swap(SimpleVector& other)]; [ArrayPtr::swap] (modelled from the
    spec: a no-throw swap) exchanges the two raw pointers. *)
Definition swap (this other : loc) : M unit :=
  a ← obj this; b ← obj other;
  set_storage this (storage_ b);; set_storage other (storage_ a);;
  a ← obj this; b ← obj other;
  set_size this (size_ b);; set_size other (size_ a);;
  a ← obj this; b ← obj other;
  set_capacity this (capacity_ b);; set_capacity other (capacity_ a).

(** [operator=(const SimpleVector& rhs)]; returns [*this]. *)
Definition assign_copy (this rhs : loc) : M loc :=
  if decide (this ≠ rhs) then
    tmp ← fresh_loc;
    SimpleVector_copy tmp rhs;;
    swap this tmp;;
    destroy tmp;;
    mret this
  else mret this.

(** [operator=(SimpleVector&& rhs)]; returns [*this]. *)
Definition assign_move (this rhs : loc) : M loc :=
  if decide (this ≠ rhs) then
    tmp ← fresh_loc;
    SimpleVector_move tmp rhs;;
    swap this tmp;;
    destroy tmp;;
    mret this
  else mret this.

(** ** Views of the state used in the statements *)

(** The block an [ArrayPtr] owns, as the list of its slots; a null
    [ArrayPtr] owns no slot. *)
Definition buffer (σ : state) (a : ArrayPtr) : option (list T) :=
  match raw_ptr_ a with
  | None => Some []
  | Some b => heap σ !! b
  end.

(** The live elements, slots [0 .. size) of the buffer. *)
Definition elements (v : SimpleVector) (l : list T) : list T :=
  take (Z.to_nat (size_ v)) l.

(** The representation invariant of the vector at [this]: its fields are
    [v], its buffer is the list [l] of exactly [capacity_] slots, and
    [0 <= size_ <= capacity_]. *)
Record valid (σ : state) (this : loc) (v : SimpleVector) (l : list T) : Prop := {
  valid_obj : objs σ !! this = Some v;
  valid_buffer : buffer σ (storage_ v) = Some l;
  valid_length : Z.of_nat (length l) = capacity_ v;
  valid_size : 0 <= size_ v <= capacity_ v;
  valid_range : capacity_ v < size_t_modulus
}.

(** The data-model invariant of the specification alone. *)
Definition size_le_capacity (v : SimpleVector) : Prop :=
  0 <= size_ v <= capacity_ v.

(** The address of slot [i] of the block of [a] (of its end, when [i] is
    the number of slots). *)
Definition ptr_at (a : ArrayPtr) (i : Z) : ptr :=
  match raw_ptr_ a with
  | None => nullptr
  | Some b => Ptr b i
  end.

(** Two [ArrayPtr]s that do not own the same block. *)
Definition separate (a1 a2 : ArrayPtr) : Prop :=
  forall b, raw_ptr_ a1 = Some b -> raw_ptr_ a2 ≠ Some b.

Definition set_block (b : addr) (l : list T) (σ : state) : state :=
  mkState (<[b := l]> (heap σ)) (objs σ).

Definition set_obj (this : loc) (v : SimpleVector) (σ : state) : state :=
  mkState (heap σ) (<[this := v]> (objs σ)).

(** The capacity [Insert] grows a full vector to. *)
Definition grown (capacity : Z) : Z :=
  if capacity =? 0 then 1 else capacity * 2.

(** An outcome without its return value: what a call leaves behind. *)
Definition forget {A} (o : outcome A) : outcome unit :=
  match o with
  | Ret _ σ => Ret tt σ
  | Throw e σ => Throw e σ
  | Undefined => Undefined
  | Diverge => Diverge
  end.

(** A reference that can be read in [σ]: it is bound to an object outside
    the buffers or to a slot of a block of the heap. *)
Definition readable (σ : state) (r : reference) : Prop :=
  exists y, deref r σ = Ret y σ.

(** [PushBack] in the words of the specification: [Insert(end(), value)]. *)
Definition PushBack_spec (this : loc) (item : reference) : M ptr :=
  last ← end_ this; Insert this last item.

Definition PushBack_rvalue_spec (this : loc) (item : reference) : M ptr :=
  last ← end_ this; Insert_rvalue this last item.

End Model.

Global Arguments state : clear implicits.
Global Arguments outcome : clear implicits.
Global Arguments M : clear implicits.
Global Arguments reference : clear implicits.

(** ** The comparison operators *)

Section Comparison.

Context {T : Type} {elt : Element T} {mem : Allocator} {cmp : Comparable T}.

(** One iteration of [std::equal] compares the elements at [first1] and
    [first2] with [==] and advances both. *)
Fixpoint equal_n (n : nat) (first1 first2 : ptr) : M T bool :=
  match n with
  | O => mret true
  | S n' =>
      x ← load first1;
      y ← load first2;
      if elem_eq x y then equal_n n' (ptr_next first1) (ptr_next first2)
      else mret false
  end.

(** [std::equal(first1, last1, first2)]. *)
Definition std_equal (first1 last1 first2 : ptr) : M T bool :=
  n ← std_distance first1 last1;
  if decide (0 <= n) then equal_n (Z.to_nat n) first1 first2 else undefined.

(** The loop of [std::lexicographical_compare] over ranges of [n1] and
    [n2] elements; when a range is exhausted the result is whether the
    first one is and the second one is not. *)
Fixpoint lexicographical_n (n1 n2 : nat) (first1 first2 : ptr) : M T bool :=
  match n1, n2 with
  | S n1', S n2' =>
      x ← load first1;
      y ← load first2;
      if elem_lt x y then mret true
      else if elem_lt y x then mret false
      else lexicographical_n n1' n2' (ptr_next first1) (ptr_next first2)
  | O, S _ => mret true
  | _, O => mret false
  end.

(** [std::lexicographical_compare(first1, last1, first2, last2)]. *)
Definition std_lexicographical_compare (first1 last1 first2 last2 : ptr)
  : M T bool :=
  n1 ← std_distance first1 last1;
  n2 ← std_distance first2 last2;
  if decide (0 <= n1) then
    if decide (0 <= n2) then
      lexicographical_n (Z.to_nat n1) (Z.to_nat n2) first1 first2
    else undefined
  else undefined.

(** [operator==]: the sizes are compared first, the elements only when
    the sizes agree. *)
Definition operator_eq (lhs rhs : loc) : M T bool :=
  n1 ← GetSize lhs;
  n2 ← GetSize rhs;
  if n1 =? n2 then
    first1 ← begin_const lhs;
    last1 ← end_const lhs;
    first2 ← begin_const rhs;
    std_equal first1 last1 first2
  else mret false.

(** [operator!=]. *)
Definition operator_ne (lhs rhs : loc) : M T bool :=
  b ← operator_eq lhs rhs; mret (negb b).

(** [operator<]. *)
Definition operator_lt (lhs rhs : loc) : M T bool :=
  first1 ← begin_const lhs;
  last1 ← end_const lhs;
  first2 ← begin_const rhs;
  last2 ← end_const rhs;
  std_lexicographical_compare first1 last1 first2 last2.

(** [operator<=]. *)
Definition operator_le (lhs rhs : loc) : M T bool :=
  b ← operator_lt rhs lhs; mret (negb b).

(** [operator>]. *)
Definition operator_gt (lhs rhs : loc) : M T bool :=
  operator_lt rhs lhs.

(** [operator>=]. *)
Definition operator_ge (lhs rhs : loc) : M T bool :=
  operator_le rhs lhs.

(** Element-wise equality of two sequences, over the length of the
    first. *)
Fixpoint equal_list (l1 l2 : list T) : bool :=
  match l1, l2 with
  | [], _ => true
  | x :: l1', y :: l2' => elem_eq x y && equal_list l1' l2'
  | _ :: _, [] => false
  end.

(** The lexicographic order of two sequences. *)
Fixpoint less_list (l1 l2 : list T) : bool :=
  match l1, l2 with
  | x :: l1', y :: l2' =>
      if elem_lt x y then true
      else if elem_lt y x then false
      else less_list l1' l2'
  | [], _ :: _ => true
  | _, [] => false
  end.

End Comparison.

(** ** A caller's loop *)

Section Callers.

Context {T : Type} {elt : Element T} {mem : Allocator}.

(** [for (const auto& item : items) v.PushBack(item);] *)
Fixpoint PushBack_all (this : loc) (items : list T) : M T unit :=
  match items with
  | [] => mret tt
  | item :: items' => PushBack this (Outside item);; PushBack_all this items'
  end.

(** The capacity reached by pushing onto an empty vector: 0 for no
    element, otherwise the least power of two that is at least the
    size. *)
Definition least_power_of_two (size capacity : Z) : Prop :=
  (size = 0 /\ capacity = 0) \/
  (0 < size /\
   exists j : nat,
     capacity = 2 ^ Z.of_nat j /\ size <= 2 ^ Z.of_nat j /\
     forall i : nat, (i < j)%nat -> 2 ^ Z.of_nat i < size).

End Callers.

(** ** Instances used in the examples *)

(** [int]: value-initialised to zero, unchanged by a move. *)
Definition int_element : Element Z := {| dflt := 0; moved_from := fun x => x |}.

(** A free store that delivers arrays of up to [2^32] elements. *)
Definition small_store : Allocator.
Proof. refine {| alloc_limit := 2 ^ 32 |}. lia. Defined.

(** [int] with its built-in comparisons. *)
Definition int_comparable : Comparable Z :=
  {| elem_eq := Z.eqb; elem_lt := Z.ltb |}.

(** The state after [SimpleVector<int> v{1, 2, 3}] at address 1: a full
    vector. *)
Definition full_vector : state Z :=
  mkState {[1%positive := [1; 2; 3]]}
          {[1%positive := mkSimpleVector (mkArrayPtr (Some 1%positive)) 3 3]}.

(** A vector of three elements with one spare slot, as three [PushBack]s
    on an empty vector leave it. *)
Definition spare_vector : state Z :=
  mkState {[1%positive := [1; 2; 3; 0]]}
          {[1%positive := mkSimpleVector (mkArrayPtr (Some 1%positive)) 3 4]}.

(** Two vectors: [1; 2; 3], full, at address 1 and [1; 2; 4] with a spare
    slot at address 2. *)
Definition two_vectors : state Z :=
  mkState {[1%positive := [1; 2; 3]; 2%positive := [1; 2; 4; 0]]}
          {[1%positive := mkSimpleVector (mkArrayPtr (Some 1%positive)) 3 3;
            2%positive := mkSimpleVector (mkArrayPtr (Some 2%positive)) 3 4]}.

(** A default-constructed vector at address 1. *)
Definition empty_vector : state Z :=
  mkState ∅ {[1%positive := mkSimpleVector (mkArrayPtr None) 0 0]}.

(** A vector of capacity 2 after [Clear], its slots still holding 5 and
    6. *)
Definition cleared_vector : state Z :=
  mkState {[1%positive := [5; 6]]}
          {[1%positive := mkSimpleVector (mkArrayPtr (Some 1%positive)) 0 2]}.

(** [std::string]: value-initialised and moved-from strings are empty. *)
Definition string_element : Element string :=
  {| dflt := EmptyString; moved_from := fun _ => EmptyString |}.

(** The state after [SimpleVector<std::string> v{"a", "b"}] at address 1:
    a full vector. *)
Definition full_strings : state string :=
  mkState {[1%positive := ["a"; "b"]%string]}
          {[1%positive := mkSimpleVector (mkArrayPtr (Some 1%positive)) 2 2]}.


Section Monad_lemmas.

Context {T : Type} {elt : Element T} {mem : Allocator}.

Lemma run_bind {A B} (m : M T A) (k : A -> M T B) (σ : state T) :
  (m ≫= k) σ =
  match m σ with
  | Ret a σ' => k a σ'
  | Throw e σ' => Throw e σ'
  | Undefined => Undefined
  | Diverge => Diverge
  end.
Proof. reflexivity. Qed.

Lemma run_ret {A} (a : A) (σ : state T) : (mret a : M T A) σ = Ret a σ.
Proof. reflexivity. Qed.

Lemma state_eta (σ : state T) : mkState (heap σ) (objs σ) = σ.
Proof. by destruct σ. Qed.

Lemma set_block_lookup b l (σ : state T) : heap (set_block b l σ) !! b = Some l.
Proof. apply lookup_insert_eq. Qed.

Lemma set_block_lookup_ne b b' l (σ : state T) :
  b ≠ b' -> heap (set_block b l σ) !! b' = heap σ !! b'.
Proof. intros. by apply lookup_insert_ne. Qed.

Lemma set_block_objs b l (σ : state T) : objs (set_block b l σ) = objs σ.
Proof. reflexivity. Qed.

Lemma set_block_twice b l1 l2 (σ : state T) :
  set_block b l2 (set_block b l1 σ) = set_block b l2 σ.
Proof. unfold set_block; simpl. by rewrite insert_insert_eq. Qed.

Lemma set_block_id b l (σ : state T) : heap σ !! b = Some l -> set_block b l σ = σ.
Proof.
  intros Hb. unfold set_block. rewrite insert_id by done. apply state_eta.
Qed.

Lemma set_block_comm b1 b2 l1 l2 (σ : state T) :
  b1 ≠ b2 ->
  set_block b1 l1 (set_block b2 l2 σ) = set_block b2 l2 (set_block b1 l1 σ).
Proof. intros. unfold set_block; simpl. by rewrite insert_insert_ne. Qed.

Lemma set_obj_lookup this v (σ : state T) : objs (set_obj this v σ) !! this = Some v.
Proof. apply lookup_insert_eq. Qed.

Lemma set_obj_lookup_ne this other v (σ : state T) :
  this ≠ other -> objs (set_obj this v σ) !! other = objs σ !! other.
Proof. intros. by apply lookup_insert_ne. Qed.

Lemma set_obj_heap this v (σ : state T) : heap (set_obj this v σ) = heap σ.
Proof. reflexivity. Qed.

Lemma set_obj_twice this v1 v2 (σ : state T) :
  set_obj this v2 (set_obj this v1 σ) = set_obj this v2 σ.
Proof. unfold set_obj; simpl. by rewrite insert_insert_eq. Qed.

Lemma set_obj_id this v (σ : state T) : objs σ !! this = Some v -> set_obj this v σ = σ.
Proof.
  intros Hb. unfold set_obj. rewrite insert_id by done. apply state_eta.
Qed.

Lemma set_obj_block this v b l (σ : state T) :
  set_obj this v (set_block b l σ) = set_block b l (set_obj this v σ).
Proof. reflexivity. Qed.

(** *** The primitives on a state that satisfies their preconditions *)

Lemma block_run b l (σ : state T) : heap σ !! b = Some l -> block b σ = Ret l σ.
Proof. intros Hb. unfold block. by rewrite Hb. Qed.

Lemma obj_run this v (σ : state T) : objs σ !! this = Some v -> obj this σ = Ret v σ.
Proof. intros Hb. unfold obj. by rewrite Hb. Qed.

Lemma load_run b i l x (σ : state T) :
  heap σ !! b = Some l -> 0 <= i -> l !! Z.to_nat i = Some x ->
  load (Ptr b i) σ = Ret x σ.
Proof.
  intros Hb Hi Hx. unfold load. rewrite run_bind, (block_run _ _ _ Hb).
  rewrite decide_True by done. by rewrite Hx.
Qed.

Lemma store_run b i l x (σ : state T) :
  heap σ !! b = Some l -> 0 <= i < Z.of_nat (length l) ->
  store (Ptr b i) x σ = Ret tt (set_block b (<[Z.to_nat i := x]> l) σ).
Proof.
  intros Hb Hi. unfold store. rewrite run_bind, (block_run _ _ _ Hb).
  by rewrite decide_True by done.
Qed.

Lemma ptr_add_run b i n l (σ : state T) :
  heap σ !! b = Some l -> 0 <= i + n <= Z.of_nat (length l) ->
  ptr_add (Ptr b i) n σ = Ret (Ptr b (i + n)) σ.
Proof.
  intros Hb Hi. unfold ptr_add. rewrite run_bind, (block_run _ _ _ Hb).
  by rewrite decide_True by done.
Qed.

Lemma put_obj_run this v (σ : state T) : put_obj this v σ = Ret tt (set_obj this v σ).
Proof. reflexivity. Qed.

Lemma set_size_run this v n (σ : state T) :
  objs σ !! this = Some v ->
  set_size this n σ =
  Ret tt (set_obj this (mkSimpleVector (storage_ v) n (capacity_ v)) σ).
Proof. intros Hv. unfold set_size. by rewrite run_bind, (obj_run _ _ _ Hv). Qed.

Lemma set_capacity_run this v n (σ : state T) :
  objs σ !! this = Some v ->
  set_capacity this n σ =
  Ret tt (set_obj this (mkSimpleVector (storage_ v) (size_ v) n) σ).
Proof.
  intros Hv. unfold set_capacity. by rewrite run_bind, (obj_run _ _ _ Hv).
Qed.

Lemma set_storage_run this v a (σ : state T) :
  objs σ !! this = Some v ->
  set_storage this a σ =
  Ret tt (set_obj this (mkSimpleVector a (size_ v) (capacity_ v)) σ).
Proof.
  intros Hv. unfold set_storage. by rewrite run_bind, (obj_run _ _ _ Hv).
Qed.

End Monad_lemmas.

(** Runs the first action of a sequence, whose outcome [E] states. *)
Ltac mstep E := rewrite run_bind, E; cbv beta iota.

(** *** The loops of the algorithms *)

Section Loops.

Context {T : Type} {elt : Element T} {mem : Allocator}.

Lemma ptr_next_nat b (i : nat) :
  ptr_next (Ptr b (Z.of_nat i)) = Ptr b (Z.of_nat (S i)).
Proof. unfold ptr_next. f_equal. lia. Qed.

Lemma ptr_prev_nat b (i : nat) :
  ptr_prev (Ptr b (Z.of_nat (S i))) = Ptr b (Z.of_nat i).
Proof. unfold ptr_prev. f_equal. lia. Qed.

Lemma load_nat b (i : nat) l x (σ : state T) :
  heap σ !! b = Some l -> l !! i = Some x ->
  load (Ptr b (Z.of_nat i)) σ = Ret x σ.
Proof.
  intros Hb Hx. apply (load_run b _ l); [done | lia |].
  by rewrite Nat2Z.id.
Qed.

Lemma store_nat b (i : nat) l x (σ : state T) :
  heap σ !! b = Some l -> (i < length l)%nat ->
  store (Ptr b (Z.of_nat i)) x σ = Ret tt (set_block b (<[i := x]> l) σ).
Proof.
  intros Hb Hi. rewrite (store_run b _ l) by (done || lia).
  by rewrite Nat2Z.id.
Qed.

Lemma fill_n_run n : forall (σ : state T) b (i : nat) l x,
  heap σ !! b = Some l -> (i + n <= length l)%nat ->
  fill_n n (Ptr b (Z.of_nat i)) x σ =
  Ret tt (set_block b (take i l ++ replicate n x ++ drop (i + n) l) σ).
Proof.
  induction n as [|n IH]; intros σ b i l x Hb Hlen; cbn [fill_n].
  - simpl. rewrite Nat.add_0_r, take_drop, set_block_id by done. reflexivity.
  - mstep (store_nat b i l x σ Hb ltac:(lia)).
    rewrite ptr_next_nat.
    rewrite (IH _ b (S i) (<[i:=x]> l)).
    + rewrite set_block_twice. do 2 f_equal.
      rewrite (take_S_r _ _ x) by (apply list_lookup_insert_eq; lia).
      rewrite take_insert_ge by lia.
      rewrite drop_insert_lt by lia.
      rewrite <- app_assoc. simpl.
      by replace (i + S n)%nat with (S (i + n)) by lia.
    + apply set_block_lookup.
    + rewrite length_insert. lia.
Qed.

Lemma copy_init_run init : forall (σ : state T) b (j : nat) l,
  heap σ !! b = Some l -> (j + length init <= length l)%nat ->
  copy_init init (Ptr b (Z.of_nat j)) σ =
  Ret (Ptr b (Z.of_nat (j + length init)))
      (set_block b (take j l ++ init ++ drop (j + length init) l) σ).
Proof.
  induction init as [|x init IH]; intros σ b j l Hb Hlen; cbn [copy_init].
  - simpl. rewrite Nat.add_0_r, take_drop, set_block_id by done. reflexivity.
  - simpl in Hlen.
    mstep (store_nat b j l x σ Hb ltac:(lia)).
    rewrite ptr_next_nat.
    rewrite (IH _ b (S j) (<[j:=x]> l)).
    + rewrite set_block_twice. cbn [length].
      replace (j + S (length init))%nat with (S (j + length init)) by lia.
      do 2 f_equal.
      rewrite (take_S_r _ _ x) by (apply list_lookup_insert_eq; lia).
      rewrite take_insert_ge by lia.
      rewrite drop_insert_lt by lia.
      by rewrite <- app_assoc.
    + apply set_block_lookup.
    + rewrite length_insert. lia.
Qed.

Lemma copy_n_run n : forall (σ : state T) b1 b2 (i j : nat) l1 l2,
  b1 ≠ b2 -> heap σ !! b1 = Some l1 -> heap σ !! b2 = Some l2 ->
  (i + n <= length l1)%nat -> (j + n <= length l2)%nat ->
  copy_n n (Ptr b1 (Z.of_nat i)) (Ptr b2 (Z.of_nat j)) σ =
  Ret (Ptr b2 (Z.of_nat (j + n)))
      (set_block b2 (take j l2 ++ take n (drop i l1) ++ drop (j + n) l2) σ).
Proof.
  induction n as [|n IH]; intros σ b1 b2 i j l1 l2 Hne H1 H2 Hi Hj;
    cbn [copy_n].
  - simpl. rewrite Nat.add_0_r, take_drop, set_block_id by done. reflexivity.
  - destruct (lookup_lt_is_Some_2 l1 i ltac:(lia)) as [x Hx].
    mstep (load_nat b1 i l1 x σ H1 Hx).
    mstep (store_nat b2 j l2 x σ H2 ltac:(lia)).
    rewrite !ptr_next_nat.
    rewrite (IH _ b1 b2 (S i) (S j) l1 (<[j:=x]> l2)); try done.
    + rewrite set_block_twice.
      replace (j + S n)%nat with (S (j + n)) by lia.
      do 2 f_equal.
      rewrite (take_S_r _ _ x) by (apply list_lookup_insert_eq; lia).
      rewrite take_insert_ge by lia.
      rewrite drop_insert_lt by lia.
      rewrite (drop_S l1 x i) by done.
      by rewrite <- app_assoc.
    + by rewrite set_block_lookup_ne.
    + apply set_block_lookup.
    + lia.
    + rewrite length_insert. lia.
Qed.

Lemma set_block_four b1 b2 r1 r2 l1 l2 (σ : state T) :
  b1 ≠ b2 ->
  set_block b1 r1 (set_block b2 r2 (set_block b1 l1 (set_block b2 l2 σ))) =
  set_block b1 r1 (set_block b2 r2 σ).
Proof.
  intros Hne. rewrite (set_block_comm b2 b1 r2 l1) by done.
  by rewrite set_block_twice, set_block_twice.
Qed.

Lemma move_n_run n : forall (σ : state T) b1 b2 (i j : nat) l1 l2,
  b1 ≠ b2 -> heap σ !! b1 = Some l1 -> heap σ !! b2 = Some l2 ->
  (i + n <= length l1)%nat -> (j + n <= length l2)%nat ->
  move_n n (Ptr b1 (Z.of_nat i)) (Ptr b2 (Z.of_nat j)) σ =
  Ret (Ptr b2 (Z.of_nat (j + n)))
      (set_block b1
         (take i l1 ++ (moved_from <$> take n (drop i l1)) ++ drop (i + n) l1)
         (set_block b2
            (take j l2 ++ take n (drop i l1) ++ drop (j + n) l2) σ)).
Proof.
  induction n as [|n IH]; intros σ b1 b2 i j l1 l2 Hne H1 H2 Hi Hj;
    cbn [move_n].
  - simpl. rewrite !Nat.add_0_r, !take_drop.
    rewrite (set_block_id b2), set_block_id by done. reflexivity.
  - destruct (lookup_lt_is_Some_2 l1 i ltac:(lia)) as [x Hx].
    mstep (load_nat b1 i l1 x σ H1 Hx).
    mstep (store_nat b2 j l2 x σ H2 ltac:(lia)).
    rewrite run_bind, (store_nat b1 i l1)
      by (by rewrite ?set_block_lookup_ne || lia); cbv beta iota.
    rewrite !ptr_next_nat.
    rewrite (IH _ b1 b2 (S i) (S j) (<[i:=moved_from x]> l1) (<[j:=x]> l2));
      try done.
    + rewrite set_block_four by done.
      replace (j + S n)%nat with (S (j + n)) by lia.
      replace (i + S n)%nat with (S (i + n)) by lia.
      f_equal. f_equal; [|f_equal].
      * rewrite (take_S_r _ _ (moved_from x))
          by (apply list_lookup_insert_eq; lia).
        rewrite take_insert_ge by lia.
        rewrite !drop_insert_lt by lia.
        rewrite (drop_S l1 x i) by done.
        by rewrite <- app_assoc.
      * rewrite (take_S_r _ _ x) by (apply list_lookup_insert_eq; lia).
        rewrite take_insert_ge by lia.
        rewrite !drop_insert_lt by lia.
        rewrite (drop_S l1 x i) by done.
        by rewrite <- app_assoc.
    + apply set_block_lookup.
    + rewrite set_block_lookup_ne by done. apply set_block_lookup.
    + rewrite length_insert. lia.
    + rewrite length_insert. lia.
Qed.

Lemma move_n_left n : forall (σ : state T) b (i j : nat) l,
  heap σ !! b = Some l -> (j < i)%nat -> (i + n <= length l)%nat ->
  exists l',
    move_n n (Ptr b (Z.of_nat i)) (Ptr b (Z.of_nat j)) σ =
      Ret (Ptr b (Z.of_nat (j + n))) (set_block b l' σ) /\
    length l' = length l /\
    take (j + n) l' = take j l ++ take n (drop i l) /\
    drop (i + n) l' = drop (i + n) l.
Proof.
  induction n as [|n IH]; intros σ b i j l Hb Hji Hlen; cbn [move_n].
  - exists l. rewrite set_block_id by done. rewrite !Nat.add_0_r.
    simpl. by rewrite app_nil_r.
  - destruct (lookup_lt_is_Some_2 l i ltac:(lia)) as [x Hx].
    mstep (load_nat b i l x σ Hb Hx).
    mstep (store_nat b j l x σ Hb ltac:(lia)).
    rewrite run_bind, (store_nat b i (<[j:=x]> l))
      by (apply set_block_lookup || (rewrite length_insert; lia));
      cbv beta iota.
    rewrite set_block_twice, !ptr_next_nat.
    set (l2 := <[i:=moved_from x]> (<[j:=x]> l)).
    destruct (IH (set_block b l2 σ) b (S i) (S j) l2)
      as (l' & Hrun & Hlen' & Htake & Hdrop).
    { apply set_block_lookup. }
    { lia. }
    { unfold l2. rewrite !length_insert. lia. }
    exists l'. rewrite Hrun, set_block_twice.
    replace (j + S n)%nat with (S j + n)%nat by lia.
    replace (i + S n)%nat with (S i + n)%nat by lia.
    split; [done|]. split; [|split].
    + rewrite Hlen'. unfold l2. by rewrite !length_insert.
    + rewrite Htake. unfold l2.
      rewrite take_insert_ge by lia.
      rewrite (take_S_r _ _ x) by (apply list_lookup_insert_eq; lia).
      rewrite take_insert_ge by lia.
      rewrite !drop_insert_lt by lia.
      rewrite (drop_S l x i) by done.
      by rewrite <- app_assoc.
    + rewrite Hdrop. unfold l2. by rewrite !drop_insert_lt by lia.
Qed.

Lemma move_backward_n_right n : forall (σ : state T) b (d k : nat) l,
  heap σ !! b = Some l -> (1 <= k)%nat -> (d + n + k <= length l)%nat ->
  exists l',
    move_backward_n n (Ptr b (Z.of_nat (d + n))) (Ptr b (Z.of_nat (d + n + k))) σ =
      Ret (Ptr b (Z.of_nat (d + k))) (set_block b l' σ) /\
    length l' = length l /\
    take d l' = take d l /\
    take n (drop (d + k) l') = take n (drop d l) /\
    drop (d + n + k) l' = drop (d + n + k) l.
Proof.
  induction n as [|n IH]; intros σ b d k l Hb Hk Hlen; cbn [move_backward_n].
  - exists l. rewrite set_block_id by done. rewrite !Nat.add_0_r. done.
  - replace (d + S n)%nat with (S (d + n)) by lia.
    replace (S (d + n) + k)%nat with (S (d + n + k)) by lia.
    rewrite !ptr_prev_nat.
    destruct (lookup_lt_is_Some_2 l (d + n)%nat ltac:(lia)) as [x Hx].
    mstep (load_nat b (d + n)%nat l x σ Hb Hx).
    mstep (store_nat b (d + n + k)%nat l x σ Hb ltac:(lia)).
    rewrite run_bind, (store_nat b (d + n)%nat (<[(d + n + k)%nat:=x]> l))
      by (apply set_block_lookup || (rewrite length_insert; lia));
      cbv beta iota.
    rewrite set_block_twice.
    set (l2 := <[(d + n)%nat:=moved_from x]> (<[(d + n + k)%nat:=x]> l)).
    destruct (IH (set_block b l2 σ) b d k l2)
      as (l' & Hrun & Hlen' & Htake & Hmid & Hdrop).
    { apply set_block_lookup. }
    { lia. }
    { unfold l2. rewrite !length_insert. lia. }
    assert (Hl2 : length l2 = length l)
      by (unfold l2; by rewrite !length_insert).
    assert (Hx' : l' !! (d + n + k)%nat = Some x).
    { rewrite <- (Nat.add_0_r (d + n + k)%nat), <- lookup_drop, Hdrop, lookup_drop.
      rewrite Nat.add_0_r. unfold l2.
      rewrite list_lookup_insert_ne by lia.
      apply list_lookup_insert_eq. lia. }
    exists l'. rewrite Hrun, set_block_twice.
    split; [done|]. split; [congruence|]. split; [|split].
    + rewrite Htake. unfold l2. by rewrite !take_insert_ge by lia.
    + rewrite (take_S_r _ _ x).
      2:{ rewrite lookup_drop.
          by replace (d + k + n)%nat with (d + n + k)%nat by lia. }
      rewrite (take_S_r (drop d l) _ x) by (by rewrite lookup_drop).
      f_equal. rewrite Hmid. unfold l2.
      rewrite !take_drop_commute. f_equal.
      by rewrite !take_insert_ge by lia.
    + replace (S (d + n + k))%nat with (d + n + k + 1)%nat by lia.
      rewrite <- (drop_drop l' 1 (d + n + k)), Hdrop. unfold l2.
      rewrite drop_drop. by rewrite !drop_insert_lt by lia.
Qed.

End Loops.

(** *** Steps on the buffers of [ArrayPtr]s *)

Section Steps.

Context {T : Type} {elt : Element T} {mem : Allocator}.

Lemma separate_sym (a1 a2 : ArrayPtr) : separate a1 a2 -> separate a2 a1.
Proof. unfold separate. intros Hs b H2 H1. by apply (Hs b). Qed.

Lemma buffer_null (σ : state T) a l :
  raw_ptr_ a = None -> buffer σ a = Some l -> l = [].
Proof. unfold buffer. intros ->. congruence. Qed.

Lemma buffer_block (σ : state T) a b :
  raw_ptr_ a = Some b -> buffer σ a = heap σ !! b.
Proof. unfold buffer. by intros ->. Qed.

Lemma buffer_objs (σ : state T) o a :
  buffer (mkState (heap σ) o) a = buffer σ a.
Proof. reflexivity. Qed.

Lemma buffer_set_obj (σ : state T) this v a :
  buffer (set_obj this v σ) a = buffer σ a.
Proof. reflexivity. Qed.

Lemma ptr_at_block a b i : raw_ptr_ a = Some b -> ptr_at a i = Ptr b i.
Proof. unfold ptr_at. by intros ->. Qed.

Lemma Get_ptr_at a : Get a = ptr_at a 0.
Proof. reflexivity. Qed.

Lemma index_run (σ : state T) a l i :
  buffer σ a = Some l -> 0 <= i <= Z.of_nat (length l) ->
  ArrayPtr_index a i σ = Ret (ptr_at a i) σ.
Proof.
  intros Hb Hi. unfold ArrayPtr_index, Get, ptr_at.
  destruct (raw_ptr_ a) as [b|] eqn:Ha.
  - rewrite (buffer_block _ _ _ Ha) in Hb.
    by rewrite (ptr_add_run b 0 i l).
  - apply (buffer_null _ _ _ Ha) in Hb. subst l. simpl in Hi.
    unfold ptr_add. by rewrite decide_True by lia.
Qed.

Lemma distance_run (σ : state T) a l i j :
  buffer σ a = Some l ->
  0 <= i <= Z.of_nat (length l) -> 0 <= j <= Z.of_nat (length l) ->
  std_distance (ptr_at a i) (ptr_at a j) σ = Ret (j - i) σ.
Proof.
  intros Hb Hi Hj. unfold ptr_at.
  destruct (raw_ptr_ a) as [b|] eqn:Ha; simpl.
  - by rewrite decide_True.
  - apply (buffer_null _ _ _ Ha) in Hb. subst l. simpl in *.
    by replace (j - i) with 0 by lia.
Qed.

(** [ArrayPtr(n)] when the allocation succeeds: the new buffer holds [n]
    default values and is separate from every buffer in use. *)
Lemma ArrayPtr_new_run (σ : state T) n :
  0 <= n <= alloc_limit ->
  exists a σ',
    ArrayPtr_new n σ = Ret a σ' /\
    objs σ' = objs σ /\
    buffer σ' a = Some (replicate (Z.to_nat n) dflt) /\
    (n = 0 -> raw_ptr_ a = None /\ σ' = σ) /\
    (forall a0 l0, buffer σ a0 = Some l0 ->
       buffer σ' a0 = Some l0 /\ separate a0 a).
Proof.
  intros Hn. unfold ArrayPtr_new.
  destruct (Z.eqb_spec n 0) as [->|Hn0].
  - exists (mkArrayPtr None), σ. repeat split; done.
  - set (b := fresh (dom (heap σ))).
    assert (Hfresh : heap σ !! b = None).
    { apply not_elem_of_dom. apply is_fresh. }
    exists (mkArrayPtr (Some b)),
      (set_block b (replicate (Z.to_nat n) dflt) σ).
    split.
    { rewrite run_bind. unfold alloc_array.
      by rewrite decide_True by lia. }
    split; [done|]. split; [apply set_block_lookup|].
    split; [done|].
    intros a0 l0 Hb0. unfold buffer, separate in *.
    destruct (raw_ptr_ a0) as [b0|]; simpl.
    + assert (b ≠ b0) by congruence.
      rewrite lookup_insert_ne by done. split; [done|].
      intros b1 [= <-] [= ?]. congruence.
    + split; [done|]. intros b1 ?. discriminate.
Qed.

(** [~ArrayPtr()] on an [ArrayPtr] that owns its block. *)
Lemma ArrayPtr_delete_run (σ : state T) a l :
  buffer σ a = Some l ->
  exists σ',
    ArrayPtr_delete a σ = Ret tt σ' /\
    objs σ' = objs σ /\
    (forall a0, separate a0 a -> buffer σ' a0 = buffer σ a0).
Proof.
  intros Hb. unfold ArrayPtr_delete, buffer in *.
  destruct (raw_ptr_ a) as [b|] eqn:Ha.
  - exists (mkState (delete b (heap σ)) (objs σ)). unfold free_array.
    rewrite Hb. repeat split.
    intros a0 Hs. unfold buffer. simpl.
    destruct (raw_ptr_ a0) as [b0|] eqn:Ha0; [|done].
    rewrite lookup_delete_ne; [done|].
    intros ->. by apply (Hs b0).
  - exists σ. by repeat split.
Qed.

Lemma ArrayPtr_delete_freed (σ σ' : state T) a b :
  ArrayPtr_delete a σ = Ret tt σ' -> raw_ptr_ a = Some b ->
  heap σ' !! b = None.
Proof.
  intros Hrun Ha. unfold ArrayPtr_delete, free_array in Hrun.
  rewrite Ha in Hrun. destruct (heap σ !! b); [|done].
  injection Hrun as <-. apply lookup_delete_eq.
Qed.

(** [~ArrayPtr()] removes the block of the [ArrayPtr] from the heap and
    nothing else. *)
Lemma ArrayPtr_delete_heap (σ σ' : state T) a :
  ArrayPtr_delete a σ = Ret tt σ' ->
  heap σ' = match raw_ptr_ a with
            | Some b => delete b (heap σ)
            | None => heap σ
            end.
Proof.
  unfold ArrayPtr_delete, free_array.
  destruct (raw_ptr_ a) as [b|].
  - destruct (heap σ !! b); [|done]. by intros [= <-].
  - by intros [= <-].
Qed.

(** When only the contents of the buffer [a] change, the heap has the
    same blocks as before and every other block is as it was. *)
Lemma same_blocks (σ σ' : state T) a l l' :
  buffer σ a = Some l -> buffer σ' a = Some l' ->
  (forall a0, separate a0 a -> buffer σ' a0 = buffer σ a0) ->
  dom (heap σ') = dom (heap σ) /\
  (forall b, raw_ptr_ a ≠ Some b -> heap σ' !! b = heap σ !! b).
Proof.
  intros Hb Hb' Hfr.
  assert (Hother : forall b, raw_ptr_ a ≠ Some b ->
            heap σ' !! b = heap σ !! b).
  { intros b Hne. apply (Hfr (mkArrayPtr (Some b))).
    intros b' [= <-]. done. }
  split; [|done].
  apply set_eq. intros b. rewrite !elem_of_dom.
  destruct (decide (raw_ptr_ a = Some b)) as [Ha|Ha].
  - rewrite (buffer_block σ _ _ Ha) in Hb.
    rewrite (buffer_block σ' _ _ Ha) in Hb'.
    by rewrite Hb, Hb'.
  - by rewrite (Hother b Ha).
Qed.

Lemma buffer_set_block (σ : state T) a b l :
  raw_ptr_ a = Some b -> buffer (set_block b l σ) a = Some l.
Proof. intros Ha. rewrite (buffer_block _ _ _ Ha). apply set_block_lookup. Qed.

Lemma buffer_set_block_ne (σ : state T) a b l :
  raw_ptr_ a ≠ Some b -> buffer (set_block b l σ) a = buffer σ a.
Proof.
  intros Ha. unfold buffer. destruct (raw_ptr_ a) as [b0|]; [|done].
  apply set_block_lookup_ne. congruence.
Qed.

(** [*slot = x] through a pointer into a buffer. *)
Lemma store_at_run (σ : state T) a l i x :
  buffer σ a = Some l -> 0 <= i < Z.of_nat (length l) ->
  exists σ',
    store (ptr_at a i) x σ = Ret tt σ' /\
    objs σ' = objs σ /\
    buffer σ' a = Some (<[Z.to_nat i := x]> l) /\
    (forall a0, separate a0 a -> buffer σ' a0 = buffer σ a0).
Proof.
  intros Hb Hi. destruct (raw_ptr_ a) as [b|] eqn:Ha.
  - rewrite (buffer_block _ _ _ Ha) in Hb.
    exists (set_block b (<[Z.to_nat i := x]> l) σ).
    rewrite (ptr_at_block _ _ _ Ha), (store_run b i l) by done.
    split; [done|]. split; [done|].
    split; [by apply buffer_set_block|].
    intros a0 Hs. apply buffer_set_block_ne. intros Hb0. by apply (Hs b).
  - apply (buffer_null _ _ _ Ha) in Hb. subst l. simpl in Hi. lia.
Qed.

Lemma load_at_run (σ : state T) a l i x :
  buffer σ a = Some l -> 0 <= i -> l !! Z.to_nat i = Some x ->
  load (ptr_at a i) σ = Ret x σ.
Proof.
  intros Hb Hi Hx. destruct (raw_ptr_ a) as [b|] eqn:Ha.
  - rewrite (buffer_block _ _ _ Ha) in Hb.
    rewrite (ptr_at_block _ _ _ Ha). by apply (load_run b i l).
  - apply (buffer_null _ _ _ Ha) in Hb. by subst l.
Qed.

Lemma deref_outside (σ : state T) x : deref (Outside x) σ = Ret x σ.
Proof. reflexivity. Qed.

Lemma load_inv (σ σ' : state T) b i y :
  load (Ptr b i) σ = Ret y σ' ->
  exists lb, heap σ !! b = Some lb /\ 0 <= i /\ lb !! Z.to_nat i = Some y.
Proof.
  unfold load. rewrite run_bind. unfold block.
  destruct (heap σ !! b) as [lb|]; [|done].
  destruct (decide (0 <= i)); [|done].
  destruct (lb !! Z.to_nat i) as [x|] eqn:Hx; [|done].
  intros [= -> _]. by exists lb.
Qed.

Lemma readable_outside (σ : state T) x : readable σ (Outside x).
Proof. by exists x. Qed.

(** A reference into the buffer [a] reads slot [i] of it. *)
Lemma deref_at_run (σ : state T) a l i x :
  buffer σ a = Some l -> 0 <= i -> l !! Z.to_nat i = Some x ->
  deref (Inside (ptr_at a i)) σ = Ret x σ.
Proof. apply load_at_run. Qed.

(** A readable reference stays readable when the buffer [a] changes its
    contents but not its length and the other buffers are kept. *)
Lemma readable_after (σ σk : state T) value a l lk :
  readable σ value ->
  buffer σ a = Some l -> buffer σk a = Some lk -> length lk = length l ->
  (forall a0 l0, buffer σ a0 = Some l0 -> separate a0 a ->
     buffer σk a0 = Some l0) ->
  readable σk value.
Proof.
  intros [y Hy] Hb Hbk Hlen Hfr. destruct value as [x|[|b i]].
  - by exists x.
  - done.
  - cbn [deref] in Hy. apply load_inv in Hy as (lb & Hlb & Hi & Hx).
    destruct (decide (raw_ptr_ a = Some b)) as [Ha|Ha].
    + rewrite (buffer_block σ _ _ Ha) in Hb.
      rewrite (buffer_block σk _ _ Ha) in Hbk.
      assert (lb = l) as -> by congruence.
      destruct (lookup_lt_is_Some_2 lk (Z.to_nat i)) as [x Hxk].
      { rewrite Hlen. by eapply lookup_lt_Some. }
      exists x. by apply (load_run b i lk).
    + exists y. apply (load_run b i lb); [|done|done].
      apply (Hfr (mkArrayPtr (Some b)) lb); [done|].
      intros b' [= <-]. done.
Qed.

(** What it reads then is its own value when it lies outside the
    buffers. *)
Lemma deref_after (σ σk : state T) value a l lk :
  readable σ value ->
  buffer σ a = Some l -> buffer σk a = Some lk -> length lk = length l ->
  (forall a0 l0, buffer σ a0 = Some l0 -> separate a0 a ->
     buffer σk a0 = Some l0) ->
  exists x, deref value σk = Ret x σk /\
            (forall y, value = Outside y -> x = y).
Proof.
  intros Hval Hb Hbk Hlen Hfr.
  destruct (readable_after σ σk value a l lk Hval Hb Hbk Hlen Hfr) as [x Hx].
  exists x. split; [done|]. intros y Hy.
  rewrite Hy, deref_outside in Hx. congruence.
Qed.

(** [std::exchange] on slot [i] of a buffer: the value stored is the one
    the reference reads once the slot has been moved from. *)
Lemma exchange_at_run (σ : state T) a l i value (Q : T -> Prop) :
  buffer σ a = Some l -> 0 <= i < Z.of_nat (length l) ->
  (forall σk lk,
     objs σk = objs σ -> buffer σk a = Some lk -> length lk = length l ->
     (forall j, j ≠ Z.to_nat i -> lk !! j = l !! j) ->
     (forall a0, separate a0 a -> buffer σk a0 = buffer σ a0) ->
     exists x, deref value σk = Ret x σk /\ Q x) ->
  exists x old σ',
    Q x /\
    std_exchange (ptr_at a i) value σ = Ret old σ' /\
    objs σ' = objs σ /\
    buffer σ' a = Some (<[Z.to_nat i := x]> l) /\
    (forall a0, separate a0 a -> buffer σ' a0 = buffer σ a0).
Proof.
  intros Hb Hi Hread.
  destruct (lookup_lt_is_Some_2 l (Z.to_nat i) ltac:(lia)) as [old Hold].
  destruct (store_at_run σ a l i (moved_from old) Hb Hi)
    as (σ1 & Hrun1 & Ho1 & Hb1 & Hfr1).
  destruct (Hread σ1 _ Ho1 Hb1) as (x & Hx & HQ); [| |done|].
  { by rewrite length_insert. }
  { intros j Hj. by rewrite list_lookup_insert_ne. }
  destruct (store_at_run σ1 a _ i x Hb1) as (σ2 & Hrun2 & Ho2 & Hb2 & Hfr2);
    [rewrite length_insert; lia|].
  exists x, old, σ2. split; [done|]. unfold std_exchange.
  mstep (load_at_run σ a l i old Hb ltac:(lia) Hold).
  mstep Hrun1. mstep Hx. mstep Hrun2.
  split; [done|]. split; [congruence|].
  split; [by rewrite Hb2, list_insert_insert_eq|].
  intros a0 Hs. by rewrite Hfr2, Hfr1.
Qed.

Lemma exchange_run (σ : state T) a l i x :
  buffer σ a = Some l -> 0 <= i < Z.of_nat (length l) ->
  exists old σ',
    std_exchange (ptr_at a i) (Outside x) σ = Ret old σ' /\
    objs σ' = objs σ /\
    buffer σ' a = Some (<[Z.to_nat i := x]> l) /\
    (forall a0, separate a0 a -> buffer σ' a0 = buffer σ a0).
Proof.
  intros Hb Hi.
  destruct (exchange_at_run σ a l i (Outside x) (eq x) Hb Hi)
    as (x' & old & σ' & <- & Hrun); [by exists x|].
  by exists old, σ'.
Qed.

(** Moving from an object outside the buffers leaves the state as copying
    from it does. *)
Lemma exchange_rvalue_outside (σ : state T) p x :
  std_exchange_rvalue p (Outside x) σ = std_exchange p (Outside x) σ.
Proof.
  unfold std_exchange_rvalue, std_exchange. rewrite !run_bind.
  destruct (load p σ) as [old σ1| | |]; done.
Qed.

(** [std::fill] and [FillWithDefault] over slots [i .. j) of a buffer. *)
Lemma fill_run (σ : state T) a l i j x :
  buffer σ a = Some l -> 0 <= i <= j -> j <= Z.of_nat (length l) ->
  exists σ',
    std_fill (ptr_at a i) (ptr_at a j) x σ = Ret tt σ' /\
    objs σ' = objs σ /\
    buffer σ' a =
      Some (take (Z.to_nat i) l ++ replicate (Z.to_nat (j - i)) x ++
            drop (Z.to_nat j) l) /\
    (forall a0, separate a0 a -> buffer σ' a0 = buffer σ a0).
Proof.
  intros Hb Hi Hj. unfold std_fill.
  mstep (distance_run σ a l i j Hb ltac:(lia) ltac:(lia)).
  rewrite decide_True by lia.
  destruct (raw_ptr_ a) as [b|] eqn:Ha.
  - rewrite (buffer_block _ _ _ Ha) in Hb.
    rewrite (ptr_at_block _ _ _ Ha).
    replace (Ptr b i) with (Ptr b (Z.of_nat (Z.to_nat i))) by (f_equal; lia).
    rewrite (fill_n_run _ σ b (Z.to_nat i) l x Hb) by lia.
    replace (Z.to_nat i + Z.to_nat (j - i))%nat with (Z.to_nat j) by lia.
    eexists. split; [done|]. split; [done|].
    split; [by apply buffer_set_block|].
    intros a0 Hs. apply buffer_set_block_ne. intros Hb0. by apply (Hs b).
  - pose proof (buffer_null _ _ _ Ha Hb) as ->. simpl in Hj.
    assert (i = 0) as -> by lia. assert (j = 0) as -> by lia.
    exists σ. by repeat split.
Qed.

Lemma FillWithDefault_run (σ : state T) a l i j :
  buffer σ a = Some l -> 0 <= i <= j -> j <= Z.of_nat (length l) ->
  exists σ',
    FillWithDefault (ptr_at a i) (ptr_at a j) σ = Ret tt σ' /\
    objs σ' = objs σ /\
    buffer σ' a =
      Some (take (Z.to_nat i) l ++ replicate (Z.to_nat (j - i)) dflt ++
            drop (Z.to_nat j) l) /\
    (forall a0, separate a0 a -> buffer σ' a0 = buffer σ a0).
Proof. apply fill_run. Qed.

(** An empty range moves nothing. *)
Lemma std_move_empty (σ : state T) a l i d_first :
  buffer σ a = Some l -> 0 <= i <= Z.of_nat (length l) ->
  std_move (ptr_at a i) (ptr_at a i) d_first σ = Ret d_first σ.
Proof.
  intros Hb Hi. unfold std_move.
  mstep (distance_run σ a l i i Hb Hi Hi).
  rewrite decide_True by lia. by rewrite Z.sub_diag.
Qed.

Lemma nonempty_block (σ : state T) a l :
  buffer σ a = Some l -> (0 < length l)%nat ->
  exists b, raw_ptr_ a = Some b /\ heap σ !! b = Some l.
Proof.
  intros Hb Hl. destruct (raw_ptr_ a) as [b|] eqn:Ha.
  - exists b. by rewrite <- (buffer_block _ _ _ Ha).
  - pose proof (buffer_null _ _ _ Ha Hb) as ->. simpl in Hl. lia.
Qed.

(** [std::move] of slots [i .. e) of one buffer to slot [j] onwards of a
    separate buffer. *)
Lemma move_sep_run (σ : state T) a1 a2 l1 l2 i e j :
  buffer σ a1 = Some l1 -> buffer σ a2 = Some l2 -> separate a1 a2 ->
  0 <= i <= e -> e <= Z.of_nat (length l1) ->
  0 <= j -> j + (e - i) <= Z.of_nat (length l2) ->
  exists σ',
    std_move (ptr_at a1 i) (ptr_at a1 e) (ptr_at a2 j) σ =
      Ret (ptr_at a2 (j + (e - i))) σ' /\
    objs σ' = objs σ /\
    buffer σ' a1 =
      Some (take (Z.to_nat i) l1 ++
            (moved_from <$> take (Z.to_nat (e - i)) (drop (Z.to_nat i) l1)) ++
            drop (Z.to_nat e) l1) /\
    buffer σ' a2 =
      Some (take (Z.to_nat j) l2 ++
            take (Z.to_nat (e - i)) (drop (Z.to_nat i) l1) ++
            drop (Z.to_nat (j + (e - i))) l2) /\
    (forall a0, separate a0 a1 -> separate a0 a2 ->
       buffer σ' a0 = buffer σ a0).
Proof.
  intros Hb1 Hb2 Hs Hi He Hj Hje.
  destruct (decide (e = i)) as [->|Hne].
  - exists σ. rewrite (std_move_empty σ a1 l1) by (done || lia).
    rewrite Z.sub_diag, Z.add_0_r. simpl. rewrite !take_drop. done.
  - destruct (nonempty_block σ a1 l1 Hb1 ltac:(lia)) as (b1 & Ha1 & H1).
    destruct (nonempty_block σ a2 l2 Hb2 ltac:(lia)) as (b2 & Ha2 & H2).
    assert (Hb12 : b1 ≠ b2).
    { intros ->. by apply (Hs b2). }
    unfold std_move.
    mstep (distance_run σ a1 l1 i e Hb1 ltac:(lia) ltac:(lia)).
    rewrite decide_True by lia.
    rewrite !(ptr_at_block _ _ _ Ha1), !(ptr_at_block _ _ _ Ha2).
    replace (Ptr b1 i) with (Ptr b1 (Z.of_nat (Z.to_nat i))) by (f_equal; lia).
    replace (Ptr b2 j) with (Ptr b2 (Z.of_nat (Z.to_nat j))) by (f_equal; lia).
    rewrite (move_n_run _ σ b1 b2 _ _ l1 l2 Hb12 H1 H2) by lia.
    replace (Z.to_nat i + Z.to_nat (e - i))%nat with (Z.to_nat e) by lia.
    replace (Z.to_nat j + Z.to_nat (e - i))%nat
      with (Z.to_nat (j + (e - i))) by lia.
    replace (Z.of_nat (Z.to_nat (j + (e - i)))) with (j + (e - i)) by lia.
    eexists. split; [done|]. split; [done|].
    split; [by apply buffer_set_block|].
    split.
    { rewrite buffer_set_block_ne by congruence.
      by apply buffer_set_block. }
    intros a0 Hs1 Hs2.
    rewrite !buffer_set_block_ne; [done| |].
    + intros Hb0. by apply (Hs2 b2).
    + intros Hb0. by apply (Hs1 b1).
Qed.

(** [std::copy] of slots [i .. e) of one buffer to slot [j] onwards of a
    separate buffer. *)
Lemma copy_run (σ : state T) a1 a2 l1 l2 i e j :
  buffer σ a1 = Some l1 -> buffer σ a2 = Some l2 -> separate a1 a2 ->
  0 <= i <= e -> e <= Z.of_nat (length l1) ->
  0 <= j -> j + (e - i) <= Z.of_nat (length l2) ->
  exists σ',
    std_copy (ptr_at a1 i) (ptr_at a1 e) (ptr_at a2 j) σ =
      Ret (ptr_at a2 (j + (e - i))) σ' /\
    objs σ' = objs σ /\
    buffer σ' a1 = Some l1 /\
    buffer σ' a2 =
      Some (take (Z.to_nat j) l2 ++
            take (Z.to_nat (e - i)) (drop (Z.to_nat i) l1) ++
            drop (Z.to_nat (j + (e - i))) l2) /\
    (forall a0, separate a0 a2 -> buffer σ' a0 = buffer σ a0).
Proof.
  intros Hb1 Hb2 Hs Hi He Hj Hje. unfold std_copy.
  mstep (distance_run σ a1 l1 i e Hb1 ltac:(lia) ltac:(lia)).
  rewrite decide_True by lia.
  destruct (decide (e = i)) as [->|Hne].
  - exists σ. rewrite Z.sub_diag, Z.add_0_r. simpl.
    rewrite !take_drop. done.
  - destruct (nonempty_block σ a1 l1 Hb1 ltac:(lia)) as (b1 & Ha1 & H1).
    destruct (nonempty_block σ a2 l2 Hb2 ltac:(lia)) as (b2 & Ha2 & H2).
    assert (Hb12 : b1 ≠ b2).
    { intros ->. by apply (Hs b2). }
    rewrite !(ptr_at_block _ _ _ Ha1), !(ptr_at_block _ _ _ Ha2).
    replace (Ptr b1 i) with (Ptr b1 (Z.of_nat (Z.to_nat i))) by (f_equal; lia).
    replace (Ptr b2 j) with (Ptr b2 (Z.of_nat (Z.to_nat j))) by (f_equal; lia).
    rewrite (copy_n_run _ σ b1 b2 _ _ l1 l2 Hb12 H1 H2) by lia.
    replace (Z.to_nat j + Z.to_nat (e - i))%nat
      with (Z.to_nat (j + (e - i))) by lia.
    replace (Z.of_nat (Z.to_nat (j + (e - i)))) with (j + (e - i)) by lia.
    eexists. split; [done|]. split; [done|].
    split.
    { rewrite buffer_set_block_ne by congruence. by rewrite (buffer_block _ _ _ Ha1). }
    split; [by apply buffer_set_block|].
    intros a0 Hs2.
    rewrite !buffer_set_block_ne; [done|].
    intros Hb0. by apply (Hs2 b2).
Qed.

(** [std::copy] from an initializer list to slot 0 onwards of a buffer. *)
Lemma copy_init_at_run (σ : state T) a l init :
  buffer σ a = Some l -> (length init <= length l)%nat ->
  exists p σ',
    copy_init init (Get a) σ = Ret p σ' /\
    objs σ' = objs σ /\
    buffer σ' a = Some (init ++ drop (length init) l) /\
    (forall a0, separate a0 a -> buffer σ' a0 = buffer σ a0).
Proof.
  intros Hb Hlen. destruct init as [|x init].
  - exists (Get a), σ. simpl. rewrite drop_0. done.
  - simpl in Hlen.
    destruct (nonempty_block σ a l Hb ltac:(lia)) as (b & Ha & Hl).
    rewrite Get_ptr_at, (ptr_at_block _ _ _ Ha).
    change 0 with (Z.of_nat 0).
    rewrite (copy_init_run (x :: init) σ b 0%nat l Hl) by (simpl; lia).
    eexists _, _. split; [done|]. split; [done|].
    split; [by apply buffer_set_block|].
    intros a0 Hs. apply buffer_set_block_ne. intros Hb0. by apply (Hs b).
Qed.

(** [std::move] of slots [i .. e) of a buffer to slot [j] onwards of the
    same buffer, for [j] before [i]. *)
Lemma move_left_run (σ : state T) a l i e j :
  buffer σ a = Some l -> 0 <= j < i -> i <= e -> e <= Z.of_nat (length l) ->
  exists l' σ',
    std_move (ptr_at a i) (ptr_at a e) (ptr_at a j) σ =
      Ret (ptr_at a (j + (e - i))) σ' /\
    objs σ' = objs σ /\
    buffer σ' a = Some l' /\
    (forall a0, separate a0 a -> buffer σ' a0 = buffer σ a0) /\
    length l' = length l /\
    take (Z.to_nat (j + (e - i))) l' =
      take (Z.to_nat j) l ++ take (Z.to_nat (e - i)) (drop (Z.to_nat i) l) /\
    drop (Z.to_nat e) l' = drop (Z.to_nat e) l.
Proof.
  intros Hb Hj Hi He.
  destruct (nonempty_block σ a l Hb ltac:(lia)) as (b & Ha & Hl).
  unfold std_move.
  mstep (distance_run σ a l i e Hb ltac:(lia) ltac:(lia)).
  rewrite decide_True by lia.
  rewrite !(ptr_at_block _ _ _ Ha).
  replace (Ptr b i) with (Ptr b (Z.of_nat (Z.to_nat i))) by (f_equal; lia).
  replace (Ptr b j) with (Ptr b (Z.of_nat (Z.to_nat j))) by (f_equal; lia).
  destruct (move_n_left (Z.to_nat (e - i)) σ b (Z.to_nat i) (Z.to_nat j) l Hl)
    as (l' & Hrun & Hlen & Htake & Hdrop); [lia | lia |].
  rewrite Hrun.
  replace (Z.to_nat i + Z.to_nat (e - i))%nat with (Z.to_nat e) in * by lia.
  replace (Z.to_nat j + Z.to_nat (e - i))%nat
    with (Z.to_nat (j + (e - i))) in * by lia.
  replace (Z.of_nat (Z.to_nat (j + (e - i)))) with (j + (e - i)) by lia.
  exists l'. eexists. split; [done|]. split; [done|].
  split; [by apply buffer_set_block|].
  split; [|done].
  intros a0 Hs. apply buffer_set_block_ne. intros Hb0. by apply (Hs b).
Qed.

(** [std::move_backward] of slots [d .. e) of a buffer one slot to the
    right. *)
Lemma move_backward_run (σ : state T) a l d e :
  buffer σ a = Some l -> 0 <= d <= e -> e + 1 <= Z.of_nat (length l) ->
  exists l' σ',
    std_move_backward (ptr_at a d) (ptr_at a e) (ptr_at a (e + 1)) σ =
      Ret (ptr_at a (d + 1)) σ' /\
    objs σ' = objs σ /\
    buffer σ' a = Some l' /\
    (forall a0, separate a0 a -> buffer σ' a0 = buffer σ a0) /\
    length l' = length l /\
    take (Z.to_nat d) l' = take (Z.to_nat d) l /\
    take (Z.to_nat (e - d)) (drop (Z.to_nat (d + 1)) l') =
      take (Z.to_nat (e - d)) (drop (Z.to_nat d) l) /\
    drop (Z.to_nat (e + 1)) l' = drop (Z.to_nat (e + 1)) l.
Proof.
  intros Hb Hd He.
  destruct (nonempty_block σ a l Hb ltac:(lia)) as (b & Ha & Hl).
  unfold std_move_backward.
  mstep (distance_run σ a l d e Hb ltac:(lia) ltac:(lia)).
  rewrite decide_True by lia.
  rewrite !(ptr_at_block _ _ _ Ha).
  destruct (move_backward_n_right (Z.to_nat (e - d)) σ b (Z.to_nat d) 1 l Hl)
    as (l' & Hrun & Hlen & Htake & Hmid & Hdrop); [lia | lia |].
  replace (Z.of_nat (Z.to_nat d + Z.to_nat (e - d))) with e in Hrun by lia.
  replace (Z.of_nat (Z.to_nat d + Z.to_nat (e - d) + 1)) with (e + 1)
    in Hrun by lia.
  replace (Z.of_nat (Z.to_nat d + 1)) with (d + 1) in Hrun by lia.
  rewrite Hrun.
  replace (Z.to_nat d + Z.to_nat (e - d) + 1)%nat
    with (Z.to_nat (e + 1)) in * by lia.
  replace (Z.to_nat d + 1)%nat with (Z.to_nat (d + 1)) in * by lia.
  exists l'. eexists. split; [done|]. split; [done|].
  split; [by apply buffer_set_block|].
  split; [|done].
  intros a0 Hs. apply buffer_set_block_ne. intros Hb0. by apply (Hs b).
Qed.

End Steps.

(** ** The methods on a valid vector *)

Ltac lookup_obj :=
  repeat first
    [ apply set_obj_lookup
    | rewrite set_obj_lookup_ne by done
    | eassumption ].

(** Runs a leading field access. *)
Ltac ostep :=
  rewrite run_bind;
  first
    [ erewrite obj_run by lookup_obj
    | erewrite set_storage_run by lookup_obj
    | erewrite set_size_run by lookup_obj
    | erewrite set_capacity_run by lookup_obj ];
  cbv beta iota; cbn [storage_ size_ capacity_].

Section Methods.

Context {T : Type} {elt : Element T} {mem : Allocator}.

Lemma size_t_modulus_eq : size_t_modulus = 18446744073709551616.
Proof. reflexivity. Qed.

Lemma alloc_limit_lt : alloc_limit < 9223372036854775808.
Proof. pose proof alloc_limit_ptrdiff. lia. Qed.

Lemma wrap_small z : 0 <= z < size_t_modulus -> wrap z = z.
Proof. intros Hz. unfold wrap. by apply Z.mod_small. Qed.

Lemma valid_set_obj (σ : state T) this v w l :
  valid σ this v l ->
  storage_ w = storage_ v -> capacity_ w = capacity_ v ->
  0 <= size_ w <= capacity_ v ->
  valid (set_obj this w σ) this w l.
Proof.
  intros [Ho Hb Hl Hs Hr] Hst Hc Hsz. split.
  - apply set_obj_lookup.
  - by rewrite buffer_set_obj, Hst.
  - by rewrite Hc.
  - by rewrite Hc.
  - by rewrite Hc.
Qed.

Lemma begin_run (σ : state T) this v :
  objs σ !! this = Some v -> begin this σ = Ret (ptr_at (storage_ v) 0) σ.
Proof. intros Ho. unfold begin. by mstep (obj_run _ _ _ Ho). Qed.

Lemma end_run (σ : state T) this v l :
  objs σ !! this = Some v -> buffer σ (storage_ v) = Some l ->
  0 <= size_ v <= Z.of_nat (length l) ->
  end_ this σ = Ret (ptr_at (storage_ v) (size_ v)) σ.
Proof.
  intros Ho Hb Hs. unfold end_. mstep (obj_run _ _ _ Ho).
  by apply (index_run σ _ l).
Qed.

Lemma separate_null a : separate (mkArrayPtr None) a.
Proof. intros b. discriminate. Qed.

(** [Reserve] with a larger capacity moves the live elements to a new
    buffer of exactly that capacity. *)
Lemma Reserve_grow (σ : state T) this v l n :
  valid σ this v l -> capacity_ v < n <= alloc_limit ->
  exists a l' σ',
    Reserve this n σ = Ret tt σ' /\
    valid σ' this (mkSimpleVector a (size_ v) n) l' /\
    elements (mkSimpleVector a (size_ v) n) l' = elements v l /\
    (forall other, other ≠ this -> objs σ' !! other = objs σ !! other) /\
    (forall a0 l0, buffer σ a0 = Some l0 -> separate a0 (storage_ v) ->
       buffer σ' a0 = Some l0) /\
    (forall b, raw_ptr_ (storage_ v) = Some b -> heap σ' !! b = None) /\
    separate (storage_ v) a.
Proof.
  intros [Ho Hb Hl Hs Hr] Hn.
  pose proof alloc_limit_lt as Hlim.
  unfold Reserve. mstep (obj_run _ _ _ Ho).
  destruct (Z.gtb_spec n (capacity_ v)) as [_|?]; [|lia].
  destruct (ArrayPtr_new_run σ n) as (a & σ1 & Hrun1 & Ho1 & Hb1 & _ & Hfr1);
    [lia|].
  mstep Hrun1.
  destruct (Hfr1 _ _ Hb) as [Hbv1 Hsep].
  rewrite <- Ho1 in Ho.
  mstep (begin_run σ1 this v Ho).
  mstep (end_run σ1 this v l Ho Hbv1 ltac:(lia)).
  rewrite Get_ptr_at.
  destruct (move_sep_run σ1 (storage_ v) a l _ 0 (size_ v) 0 Hbv1 Hb1 Hsep)
    as (σ2 & Hrun2 & Ho2 & Hbv2 & Hb2 & Hfr2);
    [lia | lia | lia | rewrite length_replicate; lia |].
  mstep Hrun2.
  rewrite <- Ho2 in Ho.
  mstep (set_storage_run this v a σ2 Ho).
  rewrite run_bind, (set_capacity_run this _ n) by apply set_obj_lookup.
  cbv beta iota. rewrite set_obj_twice. cbn [storage_ size_ capacity_].
  destruct (ArrayPtr_delete_run
              (set_obj this (mkSimpleVector a (size_ v) n) σ2) (storage_ v) _ Hbv2)
    as (σ3 & Hrun3 & Ho3 & Hfr3).
  rewrite Hrun3. eexists a, _, σ3. split; [done|].
  change (Z.to_nat 0) with 0%nat in Hb2.
  rewrite Z.sub_0_r, Z.add_0_l, take_0, drop_0 in Hb2. cbn [app] in Hb2.
  assert (Hb3 : buffer σ3 a =
                Some (take (Z.to_nat (size_ v)) l ++
                      drop (Z.to_nat (size_ v)) (replicate (Z.to_nat n) dflt))).
  { rewrite Hfr3 by (by apply separate_sym). by rewrite buffer_set_obj. }
  split; [split|split].
  - rewrite Ho3. apply set_obj_lookup.
  - exact Hb3.
  - cbn [capacity_].
    rewrite length_app, length_take, length_drop, length_replicate. lia.
  - cbn [size_ capacity_]. lia.
  - cbn [capacity_]. rewrite size_t_modulus_eq. lia.
  - unfold elements. cbn [size_].
    rewrite take_app_le by (rewrite length_take; lia).
    rewrite take_take. f_equal. lia.
  - split; [|split; [|split]].
    + intros other Hne. rewrite Ho3, set_obj_lookup_ne by done.
      by rewrite Ho2, Ho1.
    + intros a0 l0 Hb0 Hs0. destruct (Hfr1 _ _ Hb0) as [Hb0' Hsa].
      rewrite Hfr3, buffer_set_obj, Hfr2 by done. done.
    + intros b Hbb. by apply (ArrayPtr_delete_freed _ _ _ _ Hrun3).
    + done.
Qed.

Lemma Reserve_keep (σ : state T) this v n :
  objs σ !! this = Some v -> n <= capacity_ v -> Reserve this n σ = Ret tt σ.
Proof.
  intros Ho Hn. unfold Reserve. mstep (obj_run _ _ _ Ho).
  destruct (Z.gtb_spec n (capacity_ v)); [lia|done].
Qed.

Lemma Clear_run (σ : state T) this v l :
  valid σ this v l ->
  Clear this σ =
    Ret tt (set_obj this (mkSimpleVector (storage_ v) 0 (capacity_ v)) σ) /\
  valid (set_obj this (mkSimpleVector (storage_ v) 0 (capacity_ v)) σ)
    this (mkSimpleVector (storage_ v) 0 (capacity_ v)) l.
Proof.
  intros Hv. split.
  - unfold Clear. apply set_size_run, Hv.
  - apply (valid_set_obj σ this v); try done.
    destruct Hv. cbn [size_]. lia.
Qed.

Lemma PopBack_run (σ : state T) this v l :
  valid σ this v l -> 0 < size_ v ->
  PopBack this σ =
    Ret tt (set_obj this (mkSimpleVector (storage_ v) (size_ v - 1) (capacity_ v)) σ) /\
  valid (set_obj this (mkSimpleVector (storage_ v) (size_ v - 1) (capacity_ v)) σ)
    this (mkSimpleVector (storage_ v) (size_ v - 1) (capacity_ v)) l.
Proof.
  intros Hv Hpos. pose proof Hv as [Ho Hb Hl Hs Hr]. split.
  - unfold PopBack. mstep (obj_run _ _ _ Ho).
    rewrite wrap_small by lia. by apply set_size_run.
  - apply (valid_set_obj σ this v); try done. cbn [size_]. lia.
Qed.

(** The doubling loop: [c * 2 ^ k] is returned when it is the first of
    [c], [2c], [4c], ... that reaches [n], fits [size_t], and the fuel
    allows [k] iterations. *)
Lemma grow_loop_run (k : nat) : forall (fuel : nat) (σ : state T) n c,
  0 < c -> c * 2 ^ Z.of_nat k < size_t_modulus ->
  (forall j : nat, (j < k)%nat -> c * 2 ^ Z.of_nat j < n) ->
  n <= c * 2 ^ Z.of_nat k -> (k <= fuel)%nat ->
  grow_loop fuel n c σ = Ret (c * 2 ^ Z.of_nat k) σ.
Proof.
  induction k as [|k IH]; intros fuel σ n c Hc Hfit Hmin Hn Hfuel.
  - change (2 ^ Z.of_nat 0) with 1 in *. rewrite Z.mul_1_r in *.
    destruct fuel; cbn [grow_loop];
      destruct (Z.gtb_spec n c); (lia || done).
  - rewrite Nat2Z.inj_succ, Z.pow_succ_r in * by lia.
    destruct fuel as [|fuel]; [lia|]. cbn [grow_loop].
    pose proof (Hmin 0%nat ltac:(lia)) as Hfirst.
    change (2 ^ Z.of_nat 0) with 1 in Hfirst.
    destruct (Z.gtb_spec n c); [|lia].
    assert (0 < 2 ^ Z.of_nat k) by (apply Z.pow_pos_nonneg; lia).
    rewrite wrap_small by nia.
    rewrite (IH fuel σ n (c * 2)); try lia.
    + f_equal. lia.
    + intros j Hj. pose proof (Hmin (S j) ltac:(lia)) as Hm.
      rewrite Nat2Z.inj_succ, Z.pow_succ_r in Hm by lia. lia.
Qed.

Lemma pow2_ge_64 (k : nat) : (64 <= k)%nat -> 2 ^ 64 <= 2 ^ Z.of_nat k.
Proof. intros Hk. apply Z.pow_le_mono_r; lia. Qed.

(** [Resize] to at most the size only sets the size. *)
Lemma Resize_shrink (σ : state T) fuel this v l n :
  valid σ this v l -> 0 <= n <= size_ v ->
  Resize fuel this n σ =
    Ret tt (set_obj this (mkSimpleVector (storage_ v) n (capacity_ v)) σ) /\
  valid (set_obj this (mkSimpleVector (storage_ v) n (capacity_ v)) σ)
    this (mkSimpleVector (storage_ v) n (capacity_ v)) l.
Proof.
  intros Hv Hn. pose proof Hv as [Ho Hb Hl Hs Hr]. split.
  - unfold Resize. mstep (obj_run _ _ _ Ho).
    destruct (Z.gtb_spec n (capacity_ v)); [lia|].
    destruct (Z.gtb_spec n (size_ v)); [lia|].
    by apply set_size_run.
  - apply (valid_set_obj σ this v); try done. cbn [size_]. lia.
Qed.

(** [Resize] within the capacity fills the exposed slots in place. *)
Lemma Resize_within (σ : state T) fuel this v l n :
  valid σ this v l -> size_ v < n <= capacity_ v ->
  exists σ',
    Resize fuel this n σ = Ret tt σ' /\
    valid σ' this (mkSimpleVector (storage_ v) n (capacity_ v))
      (take (Z.to_nat (size_ v)) l ++
       replicate (Z.to_nat (n - size_ v)) dflt ++ drop (Z.to_nat n) l) /\
    (forall other, other ≠ this -> objs σ' !! other = objs σ !! other) /\
    (forall a0, separate a0 (storage_ v) -> buffer σ' a0 = buffer σ a0).
Proof.
  intros [Ho Hb Hl Hs Hr] Hn.
  unfold Resize. mstep (obj_run _ _ _ Ho).
  destruct (Z.gtb_spec n (capacity_ v)); [lia|].
  destruct (Z.gtb_spec n (size_ v)); [|lia].
  mstep (index_run σ (storage_ v) l (size_ v) Hb ltac:(lia)).
  mstep (index_run σ (storage_ v) l n Hb ltac:(lia)).
  destruct (FillWithDefault_run σ (storage_ v) l (size_ v) n Hb)
    as (σ1 & Hrun1 & Ho1 & Hb1 & Hfr1); [lia | lia |].
  mstep Hrun1. rewrite <- Ho1 in Ho.
  rewrite (set_size_run this v n σ1 Ho).
  eexists. split; [done|]. split; [split|].
  - apply set_obj_lookup.
  - by rewrite buffer_set_obj.
  - cbn [capacity_].
    rewrite !length_app, length_take, length_drop, length_replicate. lia.
  - cbn [size_ capacity_]. lia.
  - done.
  - split.
    + intros other Hne. rewrite set_obj_lookup_ne by done. by rewrite Ho1.
    + intros a0 Hs0. by rewrite buffer_set_obj, Hfr1.
Qed.

(** [Resize] beyond the capacity: [c * 2 ^ k], the first doubling of the
    capacity (of 1 for an empty buffer) that reaches the new size, becomes
    the capacity of a new buffer that holds the live elements followed by
    default values. *)
Lemma Resize_grow (σ : state T) fuel this v l n (k : nat) :
  valid σ this v l -> capacity_ v < n ->
  let c := if capacity_ v =? 0 then 1 else capacity_ v in
  n <= c * 2 ^ Z.of_nat k ->
  (forall j : nat, (j < k)%nat -> c * 2 ^ Z.of_nat j < n) ->
  c * 2 ^ Z.of_nat k <= alloc_limit ->
  (64 <= fuel)%nat ->
  exists a σ',
    Resize fuel this n σ = Ret tt σ' /\
    valid σ' this (mkSimpleVector a n (c * 2 ^ Z.of_nat k))
      (take (Z.to_nat (size_ v)) l ++
       replicate (Z.to_nat (c * 2 ^ Z.of_nat k - size_ v)) dflt) /\
    (forall other, other ≠ this -> objs σ' !! other = objs σ !! other).
Proof.
  intros [Ho Hb Hl Hs Hr] Hn c Hk Hmin Halloc Hfuel.
  pose proof alloc_limit_lt as Hlim.
  assert (Hc : 0 < c).
  { unfold c. destruct (Z.eqb_spec (capacity_ v) 0); lia. }
  assert (Hcv : capacity_ v <= c).
  { unfold c. destruct (Z.eqb_spec (capacity_ v) 0); lia. }
  assert (Hk64 : (k < 64)%nat).
  { destruct (decide (k < 64)%nat) as [|Hge]; [done|].
    pose proof (pow2_ge_64 k ltac:(lia)). nia. }
  set (c' := c * 2 ^ Z.of_nat k) in *.
  unfold Resize. mstep (obj_run _ _ _ Ho).
  destruct (Z.gtb_spec n (capacity_ v)); [|lia].
  fold c.
  mstep (grow_loop_run k fuel σ n c Hc ltac:(rewrite size_t_modulus_eq; lia)
           Hmin Hk ltac:(lia)).
  fold c'.
  destruct (ArrayPtr_new_run σ c') as (a & σ1 & Hrun1 & Ho1 & Hb1 & _ & Hfr1);
    [lia|].
  mstep Hrun1.
  destruct (Hfr1 _ _ Hb) as [Hbv1 Hsep].
  rewrite <- Ho1 in Ho.
  mstep (index_run σ1 (storage_ v) l (size_ v) Hbv1 ltac:(lia)).
  rewrite !Get_ptr_at.
  destruct (move_sep_run σ1 (storage_ v) a l _ 0 (size_ v) 0 Hbv1 Hb1 Hsep)
    as (σ2 & Hrun2 & Ho2 & Hbv2 & Hb2 & Hfr2);
    [lia | lia | lia | rewrite length_replicate; lia |].
  mstep Hrun2.
  change (Z.to_nat 0) with 0%nat in Hb2.
  rewrite Z.sub_0_r, Z.add_0_l, take_0, drop_0 in Hb2. cbn [app] in Hb2.
  assert (Hlen2 : length (take (Z.to_nat (size_ v)) l ++
                   drop (Z.to_nat (size_ v)) (replicate (Z.to_nat c') dflt))
                  = Z.to_nat c').
  { rewrite length_app, length_take, length_drop, length_replicate. lia. }
  mstep (index_run σ2 a _ (size_ v) Hb2 ltac:(lia)).
  mstep (index_run σ2 a _ c' Hb2 ltac:(lia)).
  destruct (FillWithDefault_run σ2 a _ (size_ v) c' Hb2)
    as (σ3 & Hrun3 & Ho3 & Hb3 & Hfr3); [lia | lia |].
  mstep Hrun3.
  rewrite <- Ho2, <- Ho3 in Ho.
  mstep (set_storage_run this v a σ3 Ho).
  rewrite run_bind, (set_size_run this _ n) by apply set_obj_lookup.
  cbv beta iota. rewrite set_obj_twice.
  rewrite run_bind, (set_capacity_run this _ c') by apply set_obj_lookup.
  cbv beta iota. rewrite set_obj_twice. cbn [storage_ size_ capacity_].
  rewrite <- (Hfr3 (storage_ v)) in Hbv2 by done.
  destruct (ArrayPtr_delete_run
              (set_obj this (mkSimpleVector a n c') σ3) (storage_ v) _ Hbv2)
    as (σ4 & Hrun4 & Ho4 & Hfr4).
  rewrite Hrun4. exists a, σ4. split; [done|].
  split; [split|].
  - rewrite Ho4. apply set_obj_lookup.
  - cbn [storage_].
    rewrite Hfr4 by (by apply separate_sym). rewrite buffer_set_obj, Hb3.
    f_equal.
    rewrite take_app_le by (rewrite length_take; lia).
    rewrite take_take, Nat.min_id.
    rewrite (drop_ge _ (Z.to_nat c')) by lia.
    by rewrite app_nil_r.
  - cbn [capacity_].
    rewrite length_app, length_take, length_replicate. lia.
  - cbn [size_ capacity_]. lia.
  - cbn [capacity_]. rewrite size_t_modulus_eq. lia.
  - intros other Hne. rewrite Ho4, set_obj_lookup_ne by done.
    by rewrite Ho3, Ho2, Ho1.
Qed.

Lemma ptr_add_at_run (σ : state T) a l i n :
  buffer σ a = Some l -> 0 <= i -> 0 <= n -> i + n <= Z.of_nat (length l) ->
  ptr_add (ptr_at a i) n σ = Ret (ptr_at a (i + n)) σ.
Proof.
  intros Hb Hi Hn Hin. unfold ptr_at.
  destruct (raw_ptr_ a) as [b|] eqn:Ha.
  - rewrite (buffer_block _ _ _ Ha) in Hb.
    by rewrite (ptr_add_run b i n l) by (done || lia).
  - pose proof (buffer_null _ _ _ Ha Hb) as ->. simpl in Hin.
    unfold ptr_add. by rewrite decide_True by lia.
Qed.

Lemma take_insert_split (X : list T) (d n : nat) x :
  (d < n)%nat -> (n <= length X)%nat ->
  take n (<[d:=x]> X) = take d X ++ x :: take (n - S d) (drop (S d) X).
Proof.
  intros Hd Hn.
  replace n with (d + S (n - S d))%nat at 1 by lia.
  rewrite <- take_take_drop.
  rewrite take_insert_ge by lia. f_equal.
  rewrite (drop_S _ x d) by (apply list_lookup_insert_eq; lia).
  by rewrite drop_insert_lt by lia.
Qed.

Lemma grown_gt c : 0 <= c -> c < grown c.
Proof. intros Hc. unfold grown. destruct (Z.eqb_spec c 0); lia. Qed.

(** [Insert] into a full vector: the value inserted is the one the
    reference reads once the elements before the offset have been moved to
    the new buffer. *)
Lemma Insert_full_at (σ : state T) this v l d value (Q : T -> Prop) :
  valid σ this v l -> 0 <= d <= size_ v -> size_ v = capacity_ v ->
  grown (capacity_ v) <= alloc_limit ->
  (forall σk,
     buffer σk (storage_ v) =
       Some ((moved_from <$> take (Z.to_nat d) l) ++ drop (Z.to_nat d) l) ->
     (forall a0 l0, buffer σ a0 = Some l0 -> separate a0 (storage_ v) ->
        buffer σk a0 = Some l0) ->
     exists x, deref value σk = Ret x σk /\ Q x) ->
  exists x a l' σ',
    Q x /\
    Insert this (ptr_at (storage_ v) d) value σ = Ret (ptr_at a d) σ' /\
    valid σ' this (mkSimpleVector a (size_ v + 1) (grown (capacity_ v))) l' /\
    take (Z.to_nat (size_ v + 1)) l' =
      take (Z.to_nat d) l ++ x :: take (Z.to_nat (size_ v - d)) (drop (Z.to_nat d) l) /\
    (forall other, other ≠ this -> objs σ' !! other = objs σ !! other) /\
    (forall a0 l0, buffer σ a0 = Some l0 -> separate a0 (storage_ v) ->
       buffer σ' a0 = Some l0) /\
    (forall b, raw_ptr_ (storage_ v) = Some b -> heap σ' !! b = None) /\
    separate (storage_ v) a.
Proof.
  intros [Ho Hb Hl Hs Hr] Hd Hfull Hg Hread.
  pose proof alloc_limit_lt as Hlim.
  pose proof (grown_gt (capacity_ v) ltac:(lia)) as Hgt.
  set (g := grown (capacity_ v)) in *.
  unfold Insert.
  mstep (begin_run σ this v Ho).
  mstep (distance_run σ (storage_ v) l 0 d Hb ltac:(lia) ltac:(lia)).
  rewrite Z.sub_0_r, (wrap_small d) by (rewrite size_t_modulus_eq; lia).
  mstep (obj_run _ _ _ Ho).
  rewrite (proj2 (Z.eqb_eq _ _) Hfull).
  replace (if capacity_ v =? 0 then 1 else wrap (capacity_ v * 2)) with g.
  2:{ unfold g, grown in *. destruct (Z.eqb_spec (capacity_ v) 0); [done|].
      rewrite wrap_small; [done | rewrite size_t_modulus_eq; lia]. }
  destruct (ArrayPtr_new_run σ g) as (a & σ1 & Hrun1 & Ho1 & Hb1 & _ & Hfr1);
    [lia|].
  mstep Hrun1.
  destruct (Hfr1 _ _ Hb) as [Hbv1 Hsep].
  rewrite <- Ho1 in Ho.
  mstep (begin_run σ1 this v Ho).
  mstep (index_run σ1 (storage_ v) l d Hbv1 ltac:(lia)).
  rewrite !Get_ptr_at.
  destruct (move_sep_run σ1 (storage_ v) a l _ 0 d 0 Hbv1 Hb1 Hsep)
    as (σ2 & Hrun2 & Ho2 & Hbv2 & Hb2 & Hfr2);
    [lia | lia | lia | rewrite length_replicate; lia |].
  mstep Hrun2. rewrite <- Ho2 in Ho.
  change (Z.to_nat 0) with 0%nat in Hb2, Hbv2.
  rewrite Z.sub_0_r, Z.add_0_l, take_0, drop_0 in Hb2.
  rewrite Z.sub_0_r, take_0, drop_0 in Hbv2.
  cbn [app] in Hb2, Hbv2.
  set (L1 := (moved_from <$> take (Z.to_nat d) l) ++ drop (Z.to_nat d) l) in *.
  set (A1 := take (Z.to_nat d) l ++
             drop (Z.to_nat d) (replicate (Z.to_nat g) dflt)) in *.
  assert (HA1 : length A1 = Z.to_nat g).
  { unfold A1.
    rewrite length_app, length_take, length_drop, length_replicate. lia. }
  assert (HL1 : length L1 = length l).
  { unfold L1.
    rewrite length_app, length_fmap, length_take, length_drop. lia. }
  mstep (index_run σ2 a A1 d Hb2 ltac:(lia)).
  destruct (exchange_at_run σ2 a A1 d value Q Hb2 ltac:(lia))
    as (x & old & σ3 & HQ & Hrun3 & Ho3 & Hb3 & Hfr3).
  { intros σk lk _ _ _ _ Hfrk. apply Hread.
    - by rewrite Hfrk.
    - intros a0 l0 Hb0 Hs0. destruct (Hfr1 _ _ Hb0) as [Hb0' Hsa].
      by rewrite Hfrk, Hfr2. }
  mstep Hrun3. rewrite <- Ho3 in Ho.
  rewrite <- (Hfr3 (storage_ v)) in Hbv2 by done.
  set (A2 := <[Z.to_nat d := x]> A1) in *.
  assert (HA2 : length A2 = Z.to_nat g).
  { unfold A2. by rewrite length_insert. }
  mstep (index_run σ3 (storage_ v) L1 d Hbv2 ltac:(lia)).
  mstep (end_run σ3 this v L1 Ho Hbv2 ltac:(lia)).
  rewrite (wrap_small (d + 1)) by (rewrite size_t_modulus_eq; lia).
  mstep (index_run σ3 a A2 (d + 1) Hb3 ltac:(lia)).
  destruct (move_sep_run σ3 (storage_ v) a L1 A2 d (size_ v) (d + 1)
              Hbv2 Hb3 Hsep)
    as (σ4 & Hrun4 & Ho4 & Hbv4 & Hb4 & Hfr4); [lia | lia | lia | lia |].
  mstep Hrun4. rewrite <- Ho4 in Ho.
  mstep (set_storage_run this v a σ4 Ho).
  rewrite run_bind, (set_size_run this _ (wrap (size_ v + 1)))
    by apply set_obj_lookup.
  cbv beta iota. rewrite set_obj_twice.
  rewrite run_bind, (set_capacity_run this _ g) by apply set_obj_lookup.
  cbv beta iota. rewrite set_obj_twice. cbn [storage_ size_ capacity_].
  rewrite (wrap_small (size_ v + 1)) by (rewrite size_t_modulus_eq; lia).
  set (w := mkSimpleVector a (size_ v + 1) g).
  mstep (obj_run this w (set_obj this w σ4) (set_obj_lookup _ _ _)).
  change (storage_ w) with a.
  pose proof Hb4 as Hb4'.
  rewrite <- (buffer_set_obj σ4 this w) in Hb4'.
  rewrite run_bind, (index_run _ a _ d Hb4')
    by (rewrite !length_app, !length_take, !length_drop; lia).
  cbv beta iota.
  destruct (ArrayPtr_delete_run (set_obj this w σ4) (storage_ v) _ Hbv4)
    as (σ5 & Hrun5 & Ho5 & Hfr5).
  mstep Hrun5.
  eexists x, a, _, σ5. split; [done|]. split; [done|].
  assert (Hb5 : buffer σ5 a = buffer σ4 a).
  { rewrite Hfr5 by (by apply separate_sym). by rewrite buffer_set_obj. }
  rewrite Hb4 in Hb5.
  replace (Z.to_nat (d + 1)) with (S (Z.to_nat d)) in * by lia.
  replace (Z.to_nat (d + 1 + (size_ v - d)))
    with (S (Z.to_nat (size_ v))) in * by lia.
  assert (Hpre : take (S (Z.to_nat d)) A2 = take (Z.to_nat d) l ++ [x]).
  { unfold A2. rewrite take_insert_split by lia.
    rewrite Nat.sub_diag, take_0. f_equal.
    unfold A1. by rewrite take_app_length' by (rewrite length_take; lia). }
  assert (Hmid : drop (Z.to_nat d) L1 = drop (Z.to_nat d) l).
  { unfold L1. by rewrite drop_app_length'
      by (rewrite length_fmap, length_take; lia). }
  rewrite Hpre, Hmid in Hb5.
  split; [split|split].
  - rewrite Ho5. apply set_obj_lookup.
  - exact Hb5.
  - cbn [capacity_].
    rewrite !length_app, !length_take, !length_drop. cbn [length]. lia.
  - cbn [size_ capacity_]. lia.
  - cbn [capacity_]. rewrite size_t_modulus_eq. lia.
  - replace (Z.to_nat (size_ v + 1)) with (S (Z.to_nat (size_ v))) by lia.
    rewrite (app_assoc _ _ (drop _ A2)).
    rewrite take_app_length'.
    + by rewrite <- app_assoc.
    + rewrite !length_app, !length_take, !length_drop. cbn [length]. lia.
  - split; [|split; [|split]].
    + intros other Hne. rewrite Ho5, set_obj_lookup_ne by done.
      by rewrite Ho4, Ho3, Ho2, Ho1.
    + intros a0 l0 Hb0 Hs0. destruct (Hfr1 _ _ Hb0) as [Hb0' Hsa].
      rewrite Hfr5, buffer_set_obj, Hfr4, Hfr3, Hfr2 by done. done.
    + intros b Hbb. by apply (ArrayPtr_delete_freed _ _ _ _ Hrun5).
    + done.
Qed.

(** [Insert] into a full vector of a value that lies outside the
    buffers. *)
Lemma Insert_full (σ : state T) this v l d x :
  valid σ this v l -> 0 <= d <= size_ v -> size_ v = capacity_ v ->
  grown (capacity_ v) <= alloc_limit ->
  exists a l' σ',
    Insert this (ptr_at (storage_ v) d) (Outside x) σ = Ret (ptr_at a d) σ' /\
    valid σ' this (mkSimpleVector a (size_ v + 1) (grown (capacity_ v))) l' /\
    take (Z.to_nat (size_ v + 1)) l' =
      take (Z.to_nat d) l ++ x :: take (Z.to_nat (size_ v - d)) (drop (Z.to_nat d) l) /\
    (forall other, other ≠ this -> objs σ' !! other = objs σ !! other) /\
    (forall a0 l0, buffer σ a0 = Some l0 -> separate a0 (storage_ v) ->
       buffer σ' a0 = Some l0) /\
    (forall b, raw_ptr_ (storage_ v) = Some b -> heap σ' !! b = None) /\
    separate (storage_ v) a.
Proof.
  intros Hv Hd Hfull Hg.
  destruct (Insert_full_at σ this v l d (Outside x) (eq x) Hv Hd Hfull Hg)
    as (x' & a & l' & σ' & <- & Hrun); [by exists x|].
  by exists a, l', σ'.
Qed.

(** [Insert] into a vector with spare capacity: the value inserted is the
    one the reference reads once the elements from the offset on have been
    shifted. *)
Lemma Insert_spare_at (σ : state T) this v l d value (Q : T -> Prop) :
  valid σ this v l -> 0 <= d <= size_ v -> size_ v < capacity_ v ->
  (forall σk lk,
     buffer σk (storage_ v) = Some lk -> length lk = length l ->
     take (Z.to_nat d) lk = take (Z.to_nat d) l ->
     take (Z.to_nat (size_ v - d)) (drop (Z.to_nat (d + 1)) lk) =
       take (Z.to_nat (size_ v - d)) (drop (Z.to_nat d) l) ->
     (forall a0 l0, buffer σ a0 = Some l0 -> separate a0 (storage_ v) ->
        buffer σk a0 = Some l0) ->
     exists x, deref value σk = Ret x σk /\ Q x) ->
  exists x l' σ',
    Q x /\
    Insert this (ptr_at (storage_ v) d) value σ =
      Ret (ptr_at (storage_ v) d) σ' /\
    valid σ' this (mkSimpleVector (storage_ v) (size_ v + 1) (capacity_ v)) l' /\
    take (Z.to_nat (size_ v + 1)) l' =
      take (Z.to_nat d) l ++ x :: take (Z.to_nat (size_ v - d)) (drop (Z.to_nat d) l) /\
    (forall other, other ≠ this -> objs σ' !! other = objs σ !! other) /\
    (forall a0 l0, buffer σ a0 = Some l0 -> separate a0 (storage_ v) ->
       buffer σ' a0 = Some l0).
Proof.
  intros [Ho Hb Hl Hs Hr] Hd Hspare Hread.
  unfold Insert.
  mstep (begin_run σ this v Ho).
  mstep (distance_run σ (storage_ v) l 0 d Hb ltac:(lia) ltac:(lia)).
  rewrite Z.sub_0_r, (wrap_small d) by lia.
  mstep (obj_run _ _ _ Ho).
  destruct (Z.eqb_spec (size_ v) (capacity_ v)); [lia|].
  mstep (index_run σ (storage_ v) l d Hb ltac:(lia)).
  mstep (end_run σ this v l Ho Hb ltac:(lia)).
  mstep (ptr_add_at_run σ (storage_ v) l (size_ v) 1 Hb
           ltac:(lia) ltac:(lia) ltac:(lia)).
  destruct (move_backward_run σ (storage_ v) l d (size_ v) Hb)
    as (l1 & σ1 & Hrun1 & Ho1 & Hb1 & Hfr1 & Hlen1 & Htake1 & Hmid1 & Hdrop1);
    [lia | lia |].
  mstep Hrun1. rewrite <- Ho1 in Ho.
  mstep (index_run σ1 (storage_ v) l1 d Hb1 ltac:(lia)).
  destruct (exchange_at_run σ1 (storage_ v) l1 d value Q Hb1 ltac:(lia))
    as (x & old & σ2 & HQ & Hrun2 & Ho2 & Hb2 & Hfr2).
  { intros σk lk _ Hbk Hlenk Hlk Hfrk. apply (Hread σk lk Hbk).
    - congruence.
    - rewrite <- Htake1. apply list_eq. intros j.
      destruct (decide (j < Z.to_nat d)%nat).
      + rewrite !lookup_take_lt by done. apply Hlk. lia.
      + by rewrite !lookup_take_ge by lia.
    - rewrite <- Hmid1. apply list_eq. intros j.
      destruct (decide (j < Z.to_nat (size_ v - d))%nat).
      + rewrite !lookup_take_lt, !lookup_drop by done. apply Hlk. lia.
      + by rewrite !lookup_take_ge by lia.
    - intros a0 l0 Hb0 Hs0. by rewrite Hfrk, Hfr1. }
  mstep Hrun2. rewrite <- Ho2 in Ho.
  mstep (set_size_run this v (wrap (size_ v + 1)) σ2 Ho).
  rewrite (wrap_small (size_ v + 1)) by lia.
  rewrite (index_run _ (storage_ v) (<[Z.to_nat d:=x]> l1) d)
    by (rewrite ?buffer_set_obj, ?length_insert; (done || lia)).
  eexists x, _, _. split; [done|]. split; [done|].
  split; [split|split].
  - apply set_obj_lookup.
  - by rewrite buffer_set_obj.
  - cbn [capacity_]. rewrite length_insert. lia.
  - cbn [size_ capacity_]. lia.
  - done.
  - rewrite take_insert_split by lia.
    rewrite Htake1. do 2 f_equal.
    replace (Z.to_nat (size_ v + 1) - S (Z.to_nat d))%nat
      with (Z.to_nat (size_ v - d)) by lia.
    by replace (S (Z.to_nat d)) with (Z.to_nat (d + 1)) by lia.
  - split.
    + intros other Hne. rewrite set_obj_lookup_ne by done.
      by rewrite Ho2, Ho1.
    + intros a0 l0 Hb0 Hs0.
      by rewrite buffer_set_obj, Hfr2, Hfr1 by done.
Qed.

(** [Insert] into a vector with spare capacity of a value that lies
    outside the buffers. *)
Lemma Insert_spare (σ : state T) this v l d x :
  valid σ this v l -> 0 <= d <= size_ v -> size_ v < capacity_ v ->
  exists l' σ',
    Insert this (ptr_at (storage_ v) d) (Outside x) σ =
      Ret (ptr_at (storage_ v) d) σ' /\
    valid σ' this (mkSimpleVector (storage_ v) (size_ v + 1) (capacity_ v)) l' /\
    take (Z.to_nat (size_ v + 1)) l' =
      take (Z.to_nat d) l ++ x :: take (Z.to_nat (size_ v - d)) (drop (Z.to_nat d) l) /\
    (forall other, other ≠ this -> objs σ' !! other = objs σ !! other) /\
    (forall a0 l0, buffer σ a0 = Some l0 -> separate a0 (storage_ v) ->
       buffer σ' a0 = Some l0).
Proof.
  intros Hv Hd Hspare.
  destruct (Insert_spare_at σ this v l d (Outside x) (eq x) Hv Hd Hspare)
    as (x' & l' & σ' & <- & Hrun); [by exists x|].
  by exists l', σ'.
Qed.

(** [Erase] at a position before the end. *)
Lemma Erase_run (σ : state T) this v l d :
  valid σ this v l -> 0 <= d < size_ v ->
  exists l' σ',
    Erase this (ptr_at (storage_ v) d) σ = Ret (ptr_at (storage_ v) d) σ' /\
    valid σ' this (mkSimpleVector (storage_ v) (size_ v - 1) (capacity_ v)) l' /\
    take (Z.to_nat (size_ v - 1)) l' =
      take (Z.to_nat d) l ++
      take (Z.to_nat (size_ v - (d + 1))) (drop (Z.to_nat (d + 1)) l) /\
    (forall other, other ≠ this -> objs σ' !! other = objs σ !! other).
Proof.
  intros [Ho Hb Hl Hs Hr] Hd.
  unfold Erase.
  mstep (begin_run σ this v Ho).
  mstep (distance_run σ (storage_ v) l 0 d Hb ltac:(lia) ltac:(lia)).
  rewrite Z.sub_0_r, (wrap_small d) by lia.
  mstep (obj_run _ _ _ Ho).
  rewrite (wrap_small (d + 1)) by lia.
  mstep (index_run σ (storage_ v) l (d + 1) Hb ltac:(lia)).
  mstep (end_run σ this v l Ho Hb ltac:(lia)).
  mstep (index_run σ (storage_ v) l d Hb ltac:(lia)).
  destruct (move_left_run σ (storage_ v) l (d + 1) (size_ v) d Hb)
    as (l1 & σ1 & Hrun1 & Ho1 & Hb1 & Hfr1 & Hlen1 & Htake1 & Hdrop1);
    [lia | lia | lia |].
  mstep Hrun1. rewrite <- Ho1 in Ho.
  mstep (set_size_run this v (wrap (size_ v - 1)) σ1 Ho).
  rewrite (wrap_small (size_ v - 1)) by lia.
  rewrite (index_run _ (storage_ v) l1 d)
    by (rewrite ?buffer_set_obj; (done || lia)).
  eexists _, _. split; [done|].
  split; [split|split].
  - apply set_obj_lookup.
  - by rewrite buffer_set_obj.
  - cbn [capacity_]. lia.
  - cbn [size_ capacity_]. lia.
  - done.
  - rewrite <- Htake1. f_equal. lia.
  - intros other Hne. rewrite set_obj_lookup_ne by done. by rewrite Ho1.
Qed.

Lemma constructor_body_run (this : loc) (body : M T unit) (σ σ' : state T) :
  body σ = Ret tt σ' -> constructor_body this body σ = Ret tt σ'.
Proof. intros Hrun. unfold constructor_body. by rewrite Hrun. Qed.

Lemma construct_run (σ : state T) this w :
  objs σ !! this = None -> construct this w σ = Ret tt (set_obj this w σ).
Proof. intros Ho. unfold construct. by rewrite Ho. Qed.

(** The default constructor yields the empty vector. *)
Lemma SimpleVector_default_run (σ : state T) this :
  objs σ !! this = None ->
  exists σ',
    SimpleVector_default this σ = Ret tt σ' /\
    valid σ' this (mkSimpleVector ArrayPtr_default 0 0) [].
Proof.
  intros Ho. eexists. split; [by apply construct_run|].
  split; try done; try apply set_obj_lookup.
Qed.

(** The constructor from a count and a value. *)
Lemma SimpleVector_fill_run (σ : state T) this n x :
  objs σ !! this = None -> 0 <= n <= alloc_limit ->
  exists a σ',
    SimpleVector_fill this n x σ = Ret tt σ' /\
    valid σ' this (mkSimpleVector a n n) (replicate (Z.to_nat n) x).
Proof.
  intros Ho Hn. pose proof alloc_limit_lt as Hlim.
  unfold SimpleVector_fill.
  destruct (ArrayPtr_new_run σ n Hn) as (a & σ1 & Hrun1 & Ho1 & Hb1 & _ & _).
  mstep Hrun1. rewrite <- Ho1 in Ho.
  mstep (construct_run σ1 this (mkSimpleVector a n n) Ho).
  rewrite <- (buffer_set_obj σ1 this (mkSimpleVector a n n)) in Hb1.
  mstep (index_run _ a _ n Hb1 ltac:(rewrite length_replicate; lia)).
  rewrite Get_ptr_at.
  destruct (fill_run _ a _ 0 n x Hb1) as (σ2 & Hrun2 & Ho2 & Hb2 & _);
    [lia | rewrite length_replicate; lia |].
  rewrite Hrun2. exists a, σ2. split; [done|].
  change (Z.to_nat 0) with 0%nat in Hb2.
  rewrite Z.sub_0_r, take_0 in Hb2. cbn [app] in Hb2.
  rewrite (drop_ge _ (Z.to_nat n)), app_nil_r in Hb2
    by (rewrite length_replicate; lia).
  split.
  - rewrite Ho2. apply set_obj_lookup.
  - done.
  - cbn [capacity_]. rewrite length_replicate. lia.
  - cbn [size_ capacity_]. lia.
  - cbn [capacity_]. rewrite size_t_modulus_eq. lia.
Qed.

(** The constructor from an initializer list. *)
Lemma SimpleVector_init_run (σ : state T) this init :
  objs σ !! this = None -> Z.of_nat (length init) <= alloc_limit ->
  exists a σ',
    SimpleVector_init this init σ = Ret tt σ' /\
    valid σ' this
      (mkSimpleVector a (Z.of_nat (length init)) (Z.of_nat (length init)))
      init.
Proof.
  intros Ho Hn. pose proof alloc_limit_lt as Hlim.
  unfold SimpleVector_init. cbv zeta.
  set (n := Z.of_nat (length init)) in *.
  destruct (ArrayPtr_new_run σ n) as (a & σ1 & Hrun1 & Ho1 & Hb1 & _ & _);
    [lia|].
  mstep Hrun1. rewrite <- Ho1 in Ho.
  mstep (construct_run σ1 this (mkSimpleVector a n n) Ho).
  rewrite <- (buffer_set_obj σ1 this (mkSimpleVector a n n)) in Hb1.
  destruct (copy_init_at_run _ a _ init Hb1)
    as (p & σ2 & Hrun2 & Ho2 & Hb2 & _); [rewrite length_replicate; lia|].
  mstep Hrun2. exists a, σ2. split; [done|].
  rewrite drop_ge, app_nil_r in Hb2 by (rewrite length_replicate; lia).
  split.
  - rewrite Ho2. apply set_obj_lookup.
  - done.
  - done.
  - cbn [size_ capacity_]. lia.
  - cbn [capacity_]. rewrite size_t_modulus_eq. lia.
Qed.

(** The copy constructor. *)
Lemma SimpleVector_copy_run (σ : state T) this other v l :
  valid σ other v l -> objs σ !! this = None -> size_ v <= alloc_limit ->
  exists a σ',
    SimpleVector_copy this other σ = Ret tt σ' /\
    valid σ' this (mkSimpleVector a (size_ v) (size_ v))
      (take (Z.to_nat (size_ v)) l) /\
    valid σ' other v l /\
    (forall o, o ≠ this -> objs σ' !! o = objs σ !! o) /\
    (forall a0 l0, buffer σ a0 = Some l0 ->
       buffer σ' a0 = Some l0 /\ separate a0 a).
Proof.
  intros Hv Ho Hn. pose proof Hv as [Hoo Hb Hl Hs Hr].
  pose proof alloc_limit_lt as Hlim.
  assert (Hne : other ≠ this) by (intros ->; congruence).
  unfold SimpleVector_copy. mstep (obj_run _ _ _ Hoo).
  destruct (ArrayPtr_new_run σ (size_ v))
    as (a & σ1 & Hrun1 & Ho1 & Hb1 & _ & Hfr1); [lia|].
  mstep Hrun1. rewrite <- Ho1 in Ho, Hoo.
  destruct (Hfr1 _ _ Hb) as [Hbv1 Hsep].
  set (w := mkSimpleVector a (size_ v) (size_ v)).
  mstep (construct_run σ1 this w Ho).
  assert (Hoo2 : objs (set_obj this w σ1) !! other = Some v).
  { by rewrite set_obj_lookup_ne. }
  unfold begin_const, cbegin. rewrite run_bind.
  mstep (obj_run _ _ _ Hoo2). rewrite run_ret. cbv beta iota.
  unfold end_const, cend. rewrite run_bind.
  mstep (obj_run _ _ _ Hoo2).
  rewrite (index_run (set_obj this w σ1) (storage_ v) l (size_ v))
    by (rewrite ?buffer_set_obj; (done || lia)).
  cbv beta iota. rewrite !Get_ptr_at.
  destruct (copy_run (set_obj this w σ1) (storage_ v) a l
              (replicate (Z.to_nat (size_ v)) dflt) 0 (size_ v) 0)
    as (σ2 & Hrun2 & Ho2 & Hbv2 & Hb2 & Hfr2);
    [by rewrite buffer_set_obj | by rewrite buffer_set_obj | done | lia
    | lia | lia | rewrite length_replicate; lia |].
  mstep Hrun2. rewrite run_ret.
  exists a, σ2. split; [done|].
  change (Z.to_nat 0) with 0%nat in Hb2.
  rewrite Z.sub_0_r, Z.add_0_l, take_0, drop_0 in Hb2. cbn [app] in Hb2.
  rewrite drop_ge, app_nil_r in Hb2 by (rewrite length_replicate; lia).
  split; [split|split; [split|split]].
  - rewrite Ho2. apply set_obj_lookup.
  - done.
  - cbn [capacity_]. rewrite length_take. lia.
  - cbn [size_ capacity_]. lia.
  - cbn [capacity_]. lia.
  - by rewrite Ho2.
  - done.
  - done.
  - done.
  - done.
  - intros o Hno. by rewrite Ho2, set_obj_lookup_ne, Ho1.
  - intros a0 l0 Hb0. destruct (Hfr1 _ _ Hb0) as [Hb0' Hs0].
    split; [|done]. by rewrite Hfr2, buffer_set_obj.
Qed.

(** What the move constructor does: the new object takes the buffer and
    the size, its capacity is the source's size after that size was
    zeroed; the source keeps its capacity. *)
Lemma SimpleVector_move_run (σ : state T) this other v :
  objs σ !! other = Some v -> objs σ !! this = None ->
  SimpleVector_move this other σ =
    Ret tt (set_obj this (mkSimpleVector (storage_ v) (size_ v) 0)
              (set_obj other (mkSimpleVector (mkArrayPtr None) 0 (capacity_ v)) σ)).
Proof.
  intros Hoo Ho. assert (Hne : other ≠ this) by (intros ->; congruence).
  unfold SimpleVector_move.
  ostep. cbv zeta. ostep. ostep. ostep. ostep. ostep.
  rewrite !set_obj_twice.
  apply construct_run. by rewrite set_obj_lookup_ne.
Qed.

Lemma set_obj_comm (σ : state T) this other a b :
  this ≠ other ->
  set_obj this a (set_obj other b σ) = set_obj other b (set_obj this a σ).
Proof. intros. unfold set_obj; simpl. by rewrite insert_insert_ne. Qed.

Lemma set_obj_four (σ : state T) this other a1 a2 b1 b2 :
  this ≠ other ->
  set_obj other a2 (set_obj this b2 (set_obj other a1 (set_obj this b1 σ))) =
  set_obj other a2 (set_obj this b2 σ).
Proof.
  intros Hne. rewrite (set_obj_comm _ this other b2 a1) by done.
  by rewrite set_obj_twice, set_obj_twice.
Qed.

(** [swap] exchanges the fields of two distinct objects. *)
Lemma swap_run (σ : state T) this other a b :
  objs σ !! this = Some a -> objs σ !! other = Some b -> this ≠ other ->
  swap this other σ = Ret tt (set_obj other a (set_obj this b σ)).
Proof.
  intros Ha Hb Hne. assert (Hne' : other ≠ this) by done.
  unfold swap.
  do 11 ostep. erewrite set_capacity_run by lookup_obj.
  cbn [storage_ size_ capacity_]. f_equal.
  rewrite !set_obj_four by done.
  by destruct a, b.
Qed.

(** Among [c], [2c], [4c], ... there is a first one that reaches [n]. *)
Lemma first_doubling (c n : Z) :
  0 < c ->
  exists k : nat,
    n <= c * 2 ^ Z.of_nat k /\
    (forall j : nat, (j < k)%nat -> c * 2 ^ Z.of_nat j < n).
Proof.
  intros Hc.
  assert (Hsome : exists m : nat, n <= c * 2 ^ Z.of_nat m).
  { exists (Z.to_nat n). destruct (decide (n <= 0)) as [|Hpos].
    - assert (0 < 2 ^ Z.of_nat (Z.to_nat n)) by (apply Z.pow_pos_nonneg; lia).
      nia.
    - rewrite Z2Nat.id by lia.
      pose proof (Z.pow_gt_lin_r 2 n ltac:(lia) ltac:(lia)). nia. }
  destruct Hsome as [m Hm]. induction m as [|m IH].
  - exists 0%nat. split; [done|]. intros j Hj. lia.
  - destruct (decide (n <= c * 2 ^ Z.of_nat m)) as [Hle|Hgt]; [by apply IH|].
    exists (S m). split; [done|]. intros j Hj.
    assert (2 ^ Z.of_nat j <= 2 ^ Z.of_nat m)
      by (apply Z.pow_le_mono_r; lia).
    nia.
Qed.

(** From capacity 0 the doubling loop does not reach a size above [2^63]:
    the doubled capacity wraps to 0 and stays there. *)
Lemma grow_loop_zero (fuel : nat) (σ : state T) n :
  0 < n -> grow_loop fuel n 0 σ = Diverge.
Proof.
  intros Hn. induction fuel as [|fuel IH]; cbn [grow_loop];
    destruct (Z.gtb_spec n 0); try lia; [done|].
  exact IH.
Qed.

Lemma grow_loop_overflow (fuel : nat) (σ : state T) n :
  2 ^ 63 < n -> grow_loop fuel n 1 σ = Diverge.
Proof.
  intros Hn.
  assert (Hgen : forall (k : nat) fuel, (k <= 64)%nat ->
            grow_loop fuel n (wrap (2 ^ Z.of_nat (64 - k))) σ = Diverge).
  { induction k as [|k IH]; intros f Hk.
    - change (wrap (2 ^ Z.of_nat (64 - 0))) with 0.
      apply grow_loop_zero. lia.
    - assert (Hlt : 2 ^ Z.of_nat (64 - S k) <= 2 ^ 63)
        by (apply Z.pow_le_mono_r; lia).
      assert (0 < 2 ^ Z.of_nat (64 - S k)) by (apply Z.pow_pos_nonneg; lia).
      rewrite (wrap_small (2 ^ Z.of_nat (64 - S k)))
        by (rewrite size_t_modulus_eq; lia).
      destruct f as [|f]; cbn [grow_loop];
        (destruct (Z.gtb_spec n (2 ^ Z.of_nat (64 - S k))); [|lia]);
        [done|].
      replace (2 ^ Z.of_nat (64 - S k) * 2) with (2 ^ Z.of_nat (64 - k)).
      + by apply IH; lia.
      + replace (Z.of_nat (64 - k)) with (Z.succ (Z.of_nat (64 - S k))) by lia.
        rewrite Z.pow_succ_r by lia. lia. }
  specialize (Hgen 64%nat fuel ltac:(lia)).
  by rewrite Nat.sub_diag in Hgen.
Qed.
(** [swap] of two distinct valid vectors exchanges them. *)
Lemma swap_valid (σ : state T) this other a la b lb :
  valid σ this a la -> valid σ other b lb -> this ≠ other ->
  exists σ',
    swap this other σ = Ret tt σ' /\
    heap σ' = heap σ /\
    valid σ' this b lb /\ valid σ' other a la.
Proof.
  intros [Ha1 Ha2 Ha3 Ha4 Ha5] [Hb1 Hb2 Hb3 Hb4 Hb5] Hne.
  eexists. split; [by apply swap_run|]. split; [done|].
  split; split; try done.
  - rewrite set_obj_lookup_ne by done. apply set_obj_lookup.
  - apply set_obj_lookup.
Qed.

Lemma fresh_loc_run (σ : state T) :
  fresh_loc σ = Ret (fresh (dom (objs σ))) σ /\
  objs σ !! fresh (dom (objs σ)) = None.
Proof. split; [done|]. apply not_elem_of_dom, is_fresh. Qed.

(** Copy assignment from a different vector whose buffer is not shared:
    the target becomes a copy with capacity equal to the source's size,
    the source is unchanged. *)
Lemma assign_copy_run (σ : state T) this rhs u lu v l :
  valid σ this u lu -> valid σ rhs v l -> this ≠ rhs ->
  separate (storage_ u) (storage_ v) -> size_ v <= alloc_limit ->
  exists a σ',
    assign_copy this rhs σ = Ret this σ' /\
    valid σ' this (mkSimpleVector a (size_ v) (size_ v))
      (take (Z.to_nat (size_ v)) l) /\
    valid σ' rhs v l.
Proof.
  intros Hu Hv Hne Hsep Hn.
  pose proof Hu as [Hu1 Hu2 Hu3 Hu4 Hu5].
  pose proof Hv as [Hv1 Hv2 Hv3 Hv4 Hv5].
  unfold assign_copy. rewrite decide_True by done.
  destruct (fresh_loc_run σ) as [Hrun0 Hfresh].
  set (tmp := fresh (dom (objs σ))) in *.
  assert (Hnt : this ≠ tmp) by (intros ->; congruence).
  assert (Hnr : rhs ≠ tmp) by (intros ->; congruence).
  mstep Hrun0.
  destruct (SimpleVector_copy_run σ tmp rhs v l Hv Hfresh Hn)
    as (a & σ1 & Hrun1 & Hw & Hv' & Hobjs1 & Hbuf1).
  mstep Hrun1.
  destruct (Hbuf1 _ _ Hu2) as [Hu2' Hsepa].
  pose proof Hw as [Hw1 Hw2 Hw3 Hw4 Hw5].
  pose proof Hv' as [Hv1' Hv2' _ _ _].
  assert (Hu1' : objs σ1 !! this = Some u) by (by rewrite Hobjs1).
  mstep (swap_run σ1 this tmp u _ Hu1' Hw1 Hnt).
  set (w := mkSimpleVector a (size_ v) (size_ v)) in *.
  set (σ2 := set_obj tmp u (set_obj this w σ1)).
  destruct (ArrayPtr_delete_run σ2 (storage_ u) lu)
    as (σ3 & Hrun3 & Hobjs3 & Hbuf3); [done|].
  unfold destroy. rewrite run_bind.
  mstep (obj_run tmp u σ2 (set_obj_lookup _ _ _)).
  mstep Hrun3. unfold end_lifetime. rewrite run_ret.
  exists a. eexists. split; [done|].
  split; split; cbn [heap objs]; try done.
  - rewrite lookup_delete_ne by done. rewrite Hobjs3. unfold σ2.
    rewrite set_obj_lookup_ne by done. apply set_obj_lookup.
  - change (buffer σ3 a = Some (take (Z.to_nat (size_ v)) l)).
    rewrite Hbuf3 by (by apply separate_sym). done.
  - rewrite lookup_delete_ne by done. rewrite Hobjs3. unfold σ2.
    by rewrite !set_obj_lookup_ne by done.
  - change (buffer σ3 (storage_ v) = Some l).
    rewrite Hbuf3 by (by apply separate_sym). done.
Qed.

(** On a vector of capacity 0 a new size above [2^63] makes the doubling
    loop of [Resize] run for ever: no amount of fuel lets it return. *)
Lemma Resize_overflow (σ : state T) (fuel : nat) this v n :
  objs σ !! this = Some v -> capacity_ v = 0 -> 2 ^ 63 < n ->
  Resize fuel this n σ = Diverge.
Proof.
  intros Ho Hc Hn. unfold Resize. mstep (obj_run _ _ _ Ho).
  rewrite Hc. destruct (Z.gtb_spec n 0); [|lia].
  change (0 =? 0) with true. cbv iota.
  by rewrite run_bind, grow_loop_overflow.
Qed.

End Methods.

(** ** The claims *)

Section Claims.

Context {T : Type} {elt : Element T} {mem : Allocator}.

Lemma elements_length v (l : list T) :
  0 <= size_ v <= Z.of_nat (length l) ->
  length (elements v l) = Z.to_nat (size_ v).
Proof. intros Hs. unfold elements. rewrite length_take. lia. Qed.

(** C4.  [At] and its const overload throw [out_of_range] exactly when
    the index is at least the size; below the size they return the
    address of the same element as [operator[]], which holds the element
    of that index.  No outcome changes the state. *)
Theorem At_checked (σ : state T) this v l index :
  valid σ this v l -> 0 <= index ->
  (size_ v <= index ->
     At this index σ = Throw (out_of_range "out_of_range") σ /\
     At_const this index σ = Throw (out_of_range "out_of_range") σ) /\
  (index < size_ v ->
     exists x,
       elements v l !! Z.to_nat index = Some x /\
       At this index σ = Ret (ptr_at (storage_ v) index) σ /\
       At_const this index σ = Ret (ptr_at (storage_ v) index) σ /\
       subscript this index σ = Ret (ptr_at (storage_ v) index) σ /\
       subscript_const this index σ = Ret (ptr_at (storage_ v) index) σ /\
       load (ptr_at (storage_ v) index) σ = Ret x σ) /\
  ((exists e σ', At this index σ = Throw e σ') <-> size_ v <= index) /\
  ((exists e σ', At_const this index σ = Throw e σ') <-> size_ v <= index).
Proof.
  intros [Ho Hb Hl Hs Hr] Hi.
  assert (Hthrow : size_ v <= index ->
            At this index σ = Throw (out_of_range "out_of_range") σ /\
            At_const this index σ = Throw (out_of_range "out_of_range") σ).
  { intros Hge. unfold At, At_const. rewrite !run_bind, !(obj_run _ _ _ Ho).
    by destruct (Z.geb_spec index (size_ v)); [|lia]. }
  assert (Hret : index < size_ v ->
            At this index σ = Ret (ptr_at (storage_ v) index) σ /\
            At_const this index σ = Ret (ptr_at (storage_ v) index) σ).
  { intros Hlt. unfold At, At_const. rewrite !run_bind, !(obj_run _ _ _ Ho).
    destruct (Z.geb_spec index (size_ v)); [lia|].
    by rewrite (index_run σ (storage_ v) l index Hb) by lia. }
  split; [done|]. split; [|split].
  - intros Hlt. destruct (Hret Hlt) as [-> ->].
    destruct (lookup_lt_is_Some_2 l (Z.to_nat index) ltac:(lia)) as [x Hx].
    exists x. split.
    { unfold elements. rewrite lookup_take_lt by lia. done. }
    split; [done|]. split; [done|].
    unfold subscript, subscript_const.
    rewrite !run_bind, !(obj_run _ _ _ Ho).
    rewrite (index_run σ (storage_ v) l index Hb) by lia.
    split; [done|]. split; [done|].
    by apply (load_at_run σ (storage_ v) l).
  - split; [|intros Hge; destruct (Hthrow Hge) as [-> _]; eauto].
    intros (e & σ' & He).
    destruct (decide (size_ v <= index)) as [|Hlt]; [done|].
    destruct (Hret ltac:(lia)) as [Hr1 _]. congruence.
  - split; [|intros Hge; destruct (Hthrow Hge) as [_ ->]; eauto].
    intros (e & σ' & He).
    destruct (decide (size_ v <= index)) as [|Hlt]; [done|].
    destruct (Hret ltac:(lia)) as [_ Hr2]. congruence.
Qed.

(** C10.  Assigning a vector to itself, by copy or by move, returns the
    vector and leaves the whole state as it was, so its size, capacity
    and elements are unchanged. *)
Theorem self_assignment (σ : state T) this :
  assign_copy this this σ = Ret this σ /\
  assign_move this this σ = Ret this σ.
Proof.
  unfold assign_copy, assign_move.
  destruct (decide (this ≠ this)) as [Hne|_]; [by destruct Hne|done].
Qed.

(** C9.  The copy constructor, when its allocation succeeds, builds a
    vector whose size and capacity are both the source's size, with the
    source's elements; the source keeps its fields and its buffer. *)
Theorem copy_constructor (σ : state T) this other v l :
  valid σ other v l -> objs σ !! this = None -> size_ v <= alloc_limit ->
  exists w lw σ',
    SimpleVector_copy this other σ = Ret tt σ' /\
    valid σ' this w lw /\
    size_ w = size_ v /\
    capacity_ w = size_ v /\
    elements w lw = elements v l /\
    valid σ' other v l.
Proof.
  intros Hv Ho Hn.
  destruct (SimpleVector_copy_run σ this other v l Hv Ho Hn)
    as (a & σ' & Hrun & Hw & Hother & _ & _).
  exists (mkSimpleVector a (size_ v) (size_ v)), (take (Z.to_nat (size_ v)) l), σ'.
  repeat (split; [done|]). split; [|done].
  unfold elements. cbn [size_]. by rewrite take_take, Nat.min_id.
Qed.

(** C3.  The constructor from a reservation request for [c] slots, when
    the allocation succeeds, builds a vector of size 0 and capacity
    [c]. *)
Theorem reserve_constructor (σ : state T) this c :
  objs σ !! this = None -> 0 <= c <= alloc_limit ->
  exists w lw σ',
    SimpleVector_reserve this (ReserveProxy c) σ = Ret tt σ' /\
    valid σ' this w lw /\
    size_ w = 0 /\
    capacity_ w = c.
Proof.
  intros Ho Hc. unfold SimpleVector_reserve.
  mstep (construct_run σ this (mkSimpleVector ArrayPtr_default 0 0) Ho).
  cbn [GetValue ReserveProxy value].
  assert (Hv : valid (set_obj this (mkSimpleVector ArrayPtr_default 0 0) σ)
                 this (mkSimpleVector ArrayPtr_default 0 0) []).
  { split; try done. apply set_obj_lookup. }
  destruct (decide (c = 0)) as [->|Hne].
  - assert (Hkeep : 0 <= capacity_ (mkSimpleVector ArrayPtr_default 0 0))
      by (cbn [capacity_]; lia).
    rewrite (constructor_body_run this (Reserve this 0) _ _
               (Reserve_keep _ this _ 0 (set_obj_lookup _ _ _) Hkeep)).
    by eexists _, _, _.
  - destruct (Reserve_grow _ this _ _ c Hv) as (a & l' & σ' & Hrun & Hv' & _).
    { cbn [capacity_]. lia. }
    rewrite (constructor_body_run this _ _ _ Hrun). by eexists _, _, _.
Qed.

Lemma elements_insert v (l l' : list T) (d : Z) x :
  0 <= d <= size_ v -> size_ v <= Z.of_nat (length l) ->
  take (Z.to_nat (size_ v + 1)) l' =
    take (Z.to_nat d) l ++
    x :: take (Z.to_nat (size_ v - d)) (drop (Z.to_nat d) l) ->
  take (Z.to_nat (size_ v + 1)) l' =
    take (Z.to_nat d) (elements v l) ++ x :: drop (Z.to_nat d) (elements v l).
Proof.
  intros Hd Hs ->. unfold elements.
  rewrite take_take, Nat.min_l by lia. do 2 f_equal.
  rewrite take_drop_commute. do 2 f_equal. lia.
Qed.

Lemma lookup_inserted (es l' : list T) (d n : nat) x :
  (d <= length es)%nat ->
  take n l' = take d es ++ x :: drop d es ->
  l' !! d = Some x.
Proof.
  intros Hd Heq.
  assert (Hx : take n l' !! d = Some x).
  { rewrite Heq, lookup_app_r by (rewrite length_take; lia).
    rewrite length_take, Nat.min_l, Nat.sub_diag by lia. done. }
  apply lookup_take_Some in Hx. tauto.
Qed.

(** [Insert] at offset [d] of a valid vector, full or not: the value
    inserted is the one the reference reads after the elements have been
    moved, in the new buffer's case those before the offset, otherwise
    those from the offset on. *)
Lemma Insert_at (σ : state T) this v l d value (Q : T -> Prop) :
  valid σ this v l -> 0 <= d <= size_ v ->
  (size_ v = capacity_ v -> grown (capacity_ v) <= alloc_limit) ->
  (size_ v = capacity_ v ->
   forall σk,
     buffer σk (storage_ v) =
       Some ((moved_from <$> take (Z.to_nat d) l) ++ drop (Z.to_nat d) l) ->
     (forall a0 l0, buffer σ a0 = Some l0 -> separate a0 (storage_ v) ->
        buffer σk a0 = Some l0) ->
     exists x, deref value σk = Ret x σk /\ Q x) ->
  (size_ v < capacity_ v ->
   forall σk lk,
     buffer σk (storage_ v) = Some lk -> length lk = length l ->
     take (Z.to_nat d) lk = take (Z.to_nat d) l ->
     take (Z.to_nat (size_ v - d)) (drop (Z.to_nat (d + 1)) lk) =
       take (Z.to_nat (size_ v - d)) (drop (Z.to_nat d) l) ->
     (forall a0 l0, buffer σ a0 = Some l0 -> separate a0 (storage_ v) ->
        buffer σk a0 = Some l0) ->
     exists x, deref value σk = Ret x σk /\ Q x) ->
  exists x w l' σ',
    Q x /\
    Insert this (ptr_at (storage_ v) d) value σ =
      Ret (ptr_at (storage_ w) d) σ' /\
    valid σ' this w l' /\
    size_ w = size_ v + 1 /\
    elements w l' =
      take (Z.to_nat d) (elements v l) ++ x :: drop (Z.to_nat d) (elements v l) /\
    load (ptr_at (storage_ w) d) σ' = Ret x σ' /\
    capacity_ w =
      (if size_ v =? capacity_ v then grown (capacity_ v) else capacity_ v) /\
    (size_ v < capacity_ v -> storage_ w = storage_ v).
Proof.
  intros Hv Hd Halloc Hrfull Hrspare.
  pose proof Hv as [Ho Hb Hl Hs Hr].
  destruct (Z.eqb_spec (size_ v) (capacity_ v)) as [Hfull|Hspare].
  - destruct (Insert_full_at σ this v l d value Q Hv Hd Hfull (Halloc Hfull)
                (Hrfull Hfull))
      as (x & a & l' & σ' & HQ & Hrun & Hv' & Htake & _).
    exists x, (mkSimpleVector a (size_ v + 1) (grown (capacity_ v))), l', σ'.
    cbn [storage_ size_ capacity_].
    apply (elements_insert v l l' d x Hd ltac:(lia)) in Htake.
    split; [done|]. split; [done|]. split; [done|]. split; [done|].
    split; [done|]. split; [|split; [done|lia]].
    apply (load_at_run σ' a l'); [apply Hv' | lia |].
    apply (lookup_inserted (elements v l) l' _ _ x) in Htake; [done|].
    rewrite elements_length; lia.
  - destruct (Insert_spare_at σ this v l d value Q Hv Hd ltac:(lia)
                (Hrspare ltac:(lia)))
      as (x & l' & σ' & HQ & Hrun & Hv' & Htake & _).
    exists x, (mkSimpleVector (storage_ v) (size_ v + 1) (capacity_ v)), l', σ'.
    cbn [storage_ size_ capacity_].
    apply (elements_insert v l l' d x Hd ltac:(lia)) in Htake.
    split; [done|]. split; [done|]. split; [done|]. split; [done|].
    split; [done|]. split; [|done].
    apply (load_at_run σ' (storage_ v) l'); [apply Hv' | lia |].
    apply (lookup_inserted (elements v l) l' _ _ x) in Htake; [done|].
    rewrite elements_length; lia.
Qed.

(** [Insert] through any readable reference: some value is inserted, and
    it is the reference's own value when that lies outside the buffers. *)
Lemma Insert_readable (σ : state T) this v l d value :
  valid σ this v l -> 0 <= d <= size_ v ->
  (size_ v = capacity_ v -> grown (capacity_ v) <= alloc_limit) ->
  readable σ value ->
  exists x w l' σ',
    Insert this (ptr_at (storage_ v) d) value σ =
      Ret (ptr_at (storage_ w) d) σ' /\
    valid σ' this w l' /\
    size_ w = size_ v + 1 /\
    elements w l' =
      take (Z.to_nat d) (elements v l) ++ x :: drop (Z.to_nat d) (elements v l) /\
    load (ptr_at (storage_ w) d) σ' = Ret x σ' /\
    capacity_ w =
      (if size_ v =? capacity_ v then grown (capacity_ v) else capacity_ v) /\
    (size_ v < capacity_ v -> storage_ w = storage_ v) /\
    (forall y, value = Outside y -> x = y).
Proof.
  intros Hv Hd Halloc Hval.
  pose proof Hv as [Ho Hb Hl Hs Hr].
  destruct (Insert_at σ this v l d value
              (fun x => forall y, value = Outside y -> x = y) Hv Hd Halloc)
    as (x & w & l' & σ' & HQ & Hrun & Hv' & Hsz & Hel & Hload & Hcap & Hst).
  - intros _ σk Hbk Hfr.
    apply (deref_after σ σk value (storage_ v) l _ Hval Hb Hbk); [|done].
    rewrite length_app, length_fmap, length_take, length_drop. lia.
  - intros _ σk lk Hbk Hlen _ _ Hfr.
    by apply (deref_after σ σk value (storage_ v) l lk).
  - by exists x, w, l', σ'.
Qed.

(** [Insert] of a value that lies outside the buffers. *)
Lemma Insert_run (σ : state T) this v l d x :
  valid σ this v l -> 0 <= d <= size_ v ->
  (size_ v = capacity_ v -> grown (capacity_ v) <= alloc_limit) ->
  exists w l' σ',
    Insert this (ptr_at (storage_ v) d) (Outside x) σ =
      Ret (ptr_at (storage_ w) d) σ' /\
    valid σ' this w l' /\
    size_ w = size_ v + 1 /\
    elements w l' =
      take (Z.to_nat d) (elements v l) ++ x :: drop (Z.to_nat d) (elements v l) /\
    load (ptr_at (storage_ w) d) σ' = Ret x σ' /\
    capacity_ w =
      (if size_ v =? capacity_ v then grown (capacity_ v) else capacity_ v) /\
    (size_ v < capacity_ v -> storage_ w = storage_ v).
Proof.
  intros Hv Hd Halloc.
  destruct (Insert_readable σ this v l d (Outside x) Hv Hd Halloc)
    as (x' & w & l' & σ' & Hrun & Hv' & Hsz & Hel & Hload & Hcap & Hst & Hx);
    [by exists x|].
  rewrite (Hx x eq_refl) in *. by exists w, l', σ'.
Qed.

(** [PushBack] on a valid vector through any readable reference appends
    the value the reference reads. *)
Lemma PushBack_readable (σ : state T) this v l item :
  valid σ this v l ->
  (size_ v = capacity_ v -> grown (capacity_ v) <= alloc_limit) ->
  readable σ item ->
  exists x w l' σ',
    PushBack this item σ = Ret tt σ' /\
    valid σ' this w l' /\
    size_ w = size_ v + 1 /\
    elements w l' = elements v l ++ [x] /\
    capacity_ w =
      (if size_ v =? capacity_ v then grown (capacity_ v) else capacity_ v) /\
    (forall y, item = Outside y -> x = y).
Proof.
  intros Hv Halloc Hval. pose proof Hv as [Ho Hb Hl Hs Hr].
  unfold PushBack.
  mstep (end_run σ this v l Ho Hb ltac:(lia)).
  destruct (Insert_readable σ this v l (size_ v) item Hv ltac:(lia) Halloc Hval)
    as (x & w & l' & σ' & Hrun & Hv' & Hsz & Hel & _ & Hcap & _ & Hx).
  mstep Hrun. exists x, w, l', σ'.
  split; [done|]. split; [done|]. split; [done|]. split; [|done].
  rewrite Hel. rewrite take_ge, drop_ge; [done| |];
    rewrite elements_length; lia.
Qed.

(** [PushBack] of a value that lies outside the buffers appends it. *)
Lemma PushBack_run (σ : state T) this v l item :
  valid σ this v l ->
  (size_ v = capacity_ v -> grown (capacity_ v) <= alloc_limit) ->
  exists w l' σ',
    PushBack this (Outside item) σ = Ret tt σ' /\
    valid σ' this w l' /\
    size_ w = size_ v + 1 /\
    elements w l' = elements v l ++ [item] /\
    capacity_ w =
      (if size_ v =? capacity_ v then grown (capacity_ v) else capacity_ v).
Proof.
  intros Hv Halloc.
  destruct (PushBack_readable σ this v l (Outside item) Hv Halloc)
    as (x & w & l' & σ' & Hrun & Hv' & Hsz & Hel & Hcap & Hx);
    [by exists item|].
  rewrite (Hx item eq_refl) in *. by exists w, l', σ'.
Qed.

(** Moving from an object outside the buffers is, on the state, copying
    from it: the two overloads agree there. *)
Lemma Insert_rvalue_outside (σ : state T) this pos x :
  Insert_rvalue this pos (Outside x) σ = Insert this pos (Outside x) σ.
Proof. reflexivity. Qed.

(** [Insert] (both overloads) of a value that lies outside the buffers, at
    offset [d] of a valid vector, for [0 <= d <= size], when any
    allocation it needs succeeds: the size grows by one; the elements are
    the old ones with the value put at offset [d] and the elements from
    there on shifted one slot right; the returned iterator is
    [begin() + d] and points to the value; the capacity becomes
    [grown capacity] (1 from 0, else twice) exactly when size and capacity
    were equal, and is unchanged otherwise. *)
Lemma Insert_spec (ins : loc -> ptr -> reference T -> M T ptr)
    (σ : state T) this v l d x :
  ins = Insert \/ ins = Insert_rvalue ->
  valid σ this v l -> 0 <= d <= size_ v ->
  (size_ v = capacity_ v -> grown (capacity_ v) <= alloc_limit) ->
  exists w l' σ',
    ins this (ptr_at (storage_ v) d) (Outside x) σ =
      Ret (ptr_at (storage_ w) d) σ' /\
    valid σ' this w l' /\
    size_ w = size_ v + 1 /\
    elements w l' =
      take (Z.to_nat d) (elements v l) ++ x :: drop (Z.to_nat d) (elements v l) /\
    load (ptr_at (storage_ w) d) σ' = Ret x σ' /\
    capacity_ w =
      (if size_ v =? capacity_ v then grown (capacity_ v) else capacity_ v) /\
    (size_ v < capacity_ v -> storage_ w = storage_ v).
Proof.
  intros [->| ->] Hv Hd Halloc.
  - by apply Insert_run.
  - rewrite Insert_rvalue_outside. by apply Insert_run.
Qed.

(** C6.  [PushBack] (both overloads) leaves behind exactly what
    [Insert(end(), item)] leaves behind, whatever the state and whatever
    the reference is bound to: the same final state after a return, the
    same exception, the same undefined behaviour. *)
Theorem PushBack_is_Insert_at_end (σ : state T) this (item : reference T) :
  forget (PushBack this item σ) = forget (PushBack_spec this item σ) /\
  forget (PushBack_rvalue this item σ) =
    forget (PushBack_rvalue_spec this item σ).
Proof.
  unfold PushBack, PushBack_rvalue, PushBack_spec, PushBack_rvalue_spec.
  rewrite !run_bind. destruct (end_ this σ) as [last σ1| | |]; try done.
  rewrite !run_bind.
  split.
  - by destruct (Insert this last item σ1).
  - by destruct (Insert_rvalue this last item σ1).
Qed.

(** C7.  [Insert] at a valid offset, through any reference that can be
    read, followed by [Erase] on the iterator it returned restores the
    size and the elements. *)
Theorem Erase_Insert (σ : state T) this v l d (value : reference T) :
  valid σ this v l -> 0 <= d <= size_ v ->
  (size_ v = capacity_ v -> grown (capacity_ v) <= alloc_limit) ->
  readable σ value ->
  exists it σ1 it' σ2 w l2,
    Insert this (ptr_at (storage_ v) d) value σ = Ret it σ1 /\
    Erase this it σ1 = Ret it' σ2 /\
    valid σ2 this w l2 /\
    size_ w = size_ v /\
    elements w l2 = elements v l.
Proof.
  intros Hv Hd Halloc Hval. pose proof Hv as [Ho Hb Hl Hs Hr].
  destruct (Insert_readable σ this v l d value Hv Hd Halloc Hval)
    as (x & w & l1 & σ1 & Hrun1 & Hv1 & Hsz1 & Hel1 & _).
  destruct (Erase_run σ1 this w l1 d Hv1 ltac:(lia))
    as (l2 & σ2 & Hrun2 & Hv2 & Htake2 & _).
  exists (ptr_at (storage_ w) d), σ1, (ptr_at (storage_ w) d), σ2,
    (mkSimpleVector (storage_ w) (size_ w - 1) (capacity_ w)), l2.
  split; [done|]. split; [done|]. split; [done|].
  cbn [size_]. split; [lia|].
  assert (Hlen : length (elements v l) = Z.to_nat (size_ v))
    by (apply elements_length; lia).
  unfold elements at 1. cbn [size_]. rewrite Htake2.
  replace (take (Z.to_nat d) l1) with (take (Z.to_nat d) (elements w l1)).
  2:{ unfold elements. rewrite take_take, Nat.min_l by lia. done. }
  replace (take (Z.to_nat (size_ w - (d + 1))) (drop (Z.to_nat (d + 1)) l1))
    with (drop (Z.to_nat (d + 1)) (elements w l1)).
  2:{ unfold elements. rewrite take_drop_commute. do 2 f_equal. lia. }
  rewrite Hel1.
  rewrite take_app_length' by (rewrite length_take; lia).
  replace (Z.to_nat (d + 1)) with (length (take (Z.to_nat d) (elements v l)) + 1)%nat
    by (rewrite length_take; lia).
  rewrite <- drop_drop, drop_app_length. cbn [drop].
  by rewrite drop_0, take_drop.
Qed.

(** C8.  [Resize] of a valid vector, by cases on the new size [n]:
    at most the size, only the size field changes (same buffer, same
    slots, same capacity); above the size and within the capacity, slots
    [size .. n) are filled with default values in the same buffer; above
    the capacity, with [c * 2 ^ k] the first of [c], [2c], [4c], ... to
    reach [n] (where [c] is the capacity, or 1 for capacity 0; there is
    such a first one) and its allocation succeeding, the new buffer has
    that capacity and holds the live elements in order followed by
    default values.  In each case the size becomes [n]. *)
Theorem Resize_spec (σ : state T) (fuel : nat) this v l n :
  valid σ this v l -> 0 <= n -> (64 <= fuel)%nat ->
  (n <= size_ v ->
     exists σ',
       Resize fuel this n σ = Ret tt σ' /\
       heap σ' = heap σ /\
       valid σ' this (mkSimpleVector (storage_ v) n (capacity_ v)) l) /\
  (size_ v < n <= capacity_ v ->
     exists σ',
       Resize fuel this n σ = Ret tt σ' /\
       valid σ' this (mkSimpleVector (storage_ v) n (capacity_ v))
         (take (Z.to_nat (size_ v)) l ++
          replicate (Z.to_nat (n - size_ v)) dflt ++ drop (Z.to_nat n) l)) /\
  (capacity_ v < n ->
     let c := if capacity_ v =? 0 then 1 else capacity_ v in
     (exists k : nat,
        n <= c * 2 ^ Z.of_nat k /\
        (forall j : nat, (j < k)%nat -> c * 2 ^ Z.of_nat j < n)) /\
     forall k : nat,
       n <= c * 2 ^ Z.of_nat k ->
       (forall j : nat, (j < k)%nat -> c * 2 ^ Z.of_nat j < n) ->
       c * 2 ^ Z.of_nat k <= alloc_limit ->
       exists a σ',
         Resize fuel this n σ = Ret tt σ' /\
         valid σ' this (mkSimpleVector a n (c * 2 ^ Z.of_nat k))
           (take (Z.to_nat (size_ v)) l ++
            replicate (Z.to_nat (c * 2 ^ Z.of_nat k - size_ v)) dflt)).
Proof.
  intros Hv Hn Hfuel. split; [|split].
  - intros Hle.
    destruct (Resize_shrink σ fuel this v l n Hv ltac:(lia)) as [Hrun Hv'].
    eexists. split; [exact Hrun|]. split; [reflexivity|exact Hv'].
  - intros Hin.
    destruct (Resize_within σ fuel this v l n Hv Hin) as (σ' & Hrun & Hv' & _).
    by exists σ'.
  - intros Hgt c. split.
    { apply first_doubling. unfold c. destruct Hv.
      destruct (Z.eqb_spec (capacity_ v) 0); lia. }
    intros k Hk Hmin Halloc.
    destruct (Resize_grow σ fuel this v l n k Hv Hgt Hk Hmin Halloc Hfuel)
      as (a & σ' & Hrun & Hv' & _).
    by exists a, σ'.
Qed.

End Claims.

(** ** The comparison operators on valid vectors *)

Section Comparison_lemmas.

Context {T : Type} {elt : Element T} {mem : Allocator} {cmp : Comparable T}.

Lemma ptr_next_at a i : ptr_next (ptr_at a i) = ptr_at a (i + 1).
Proof. unfold ptr_at. by destruct (raw_ptr_ a). Qed.

Lemma equal_n_run (n : nat) : forall (σ : state T) a1 a2 l1 l2 i j,
  buffer σ a1 = Some l1 -> buffer σ a2 = Some l2 ->
  0 <= i -> 0 <= j ->
  i + Z.of_nat n <= Z.of_nat (length l1) ->
  j + Z.of_nat n <= Z.of_nat (length l2) ->
  equal_n n (ptr_at a1 i) (ptr_at a2 j) σ =
    Ret (equal_list (take n (drop (Z.to_nat i) l1))
                    (take n (drop (Z.to_nat j) l2))) σ.
Proof.
  induction n as [|n IH]; intros σ a1 a2 l1 l2 i j Hb1 Hb2 Hi Hj Hl1 Hl2;
    cbn [equal_n].
  - done.
  - destruct (lookup_lt_is_Some_2 l1 (Z.to_nat i) ltac:(lia)) as [x Hx].
    destruct (lookup_lt_is_Some_2 l2 (Z.to_nat j) ltac:(lia)) as [y Hy].
    mstep (load_at_run σ a1 l1 i x Hb1 Hi Hx).
    mstep (load_at_run σ a2 l2 j y Hb2 Hj Hy).
    rewrite (drop_S l1 x _ Hx), (drop_S l2 y _ Hy). cbn [take equal_list].
    destruct (elem_eq x y); [|done]. cbn [andb].
    rewrite !ptr_next_at, (IH σ a1 a2 l1 l2) by (done || lia).
    by replace (Z.to_nat (i + 1)) with (S (Z.to_nat i)) by lia;
       replace (Z.to_nat (j + 1)) with (S (Z.to_nat j)) by lia.
Qed.

Lemma lexicographical_n_run (n1 : nat) :
  forall (n2 : nat) (σ : state T) a1 a2 l1 l2 i j,
  buffer σ a1 = Some l1 -> buffer σ a2 = Some l2 ->
  0 <= i -> 0 <= j ->
  i + Z.of_nat n1 <= Z.of_nat (length l1) ->
  j + Z.of_nat n2 <= Z.of_nat (length l2) ->
  lexicographical_n n1 n2 (ptr_at a1 i) (ptr_at a2 j) σ =
    Ret (less_list (take n1 (drop (Z.to_nat i) l1))
                   (take n2 (drop (Z.to_nat j) l2))) σ.
Proof.
  induction n1 as [|n1 IH]; intros n2 σ a1 a2 l1 l2 i j Hb1 Hb2 Hi Hj Hl1 Hl2.
  - destruct n2 as [|n2]; cbn [lexicographical_n take less_list].
    + by destruct (drop (Z.to_nat j) l2).
    + destruct (lookup_lt_is_Some_2 l2 (Z.to_nat j) ltac:(lia)) as [y Hy].
      by rewrite (drop_S l2 y _ Hy).
  - destruct (lookup_lt_is_Some_2 l1 (Z.to_nat i) ltac:(lia)) as [x Hx].
    rewrite (drop_S l1 x _ Hx).
    destruct n2 as [|n2]; cbn [lexicographical_n take less_list]; [done|].
    destruct (lookup_lt_is_Some_2 l2 (Z.to_nat j) ltac:(lia)) as [y Hy].
    rewrite (drop_S l2 y _ Hy). cbn [take less_list].
    mstep (load_at_run σ a1 l1 i x Hb1 Hi Hx).
    mstep (load_at_run σ a2 l2 j y Hb2 Hj Hy).
    destruct (elem_lt x y); [done|]. destruct (elem_lt y x); [done|].
    rewrite !ptr_next_at, (IH n2 σ a1 a2 l1 l2) by (done || lia).
    by replace (Z.to_nat (i + 1)) with (S (Z.to_nat i)) by lia;
       replace (Z.to_nat (j + 1)) with (S (Z.to_nat j)) by lia.
Qed.

Lemma begin_const_run (σ : state T) this v :
  objs σ !! this = Some v ->
  begin_const this σ = Ret (ptr_at (storage_ v) 0) σ.
Proof.
  intros Ho. unfold begin_const, cbegin. by mstep (obj_run _ _ _ Ho).
Qed.

Lemma end_const_run (σ : state T) this v l :
  valid σ this v l ->
  end_const this σ = Ret (ptr_at (storage_ v) (size_ v)) σ.
Proof.
  intros [Ho Hb Hl Hs Hr]. unfold end_const, cend. mstep (obj_run _ _ _ Ho).
  apply (index_run σ _ l); [done|lia].
Qed.

Lemma GetSize_run (σ : state T) this v :
  objs σ !! this = Some v -> GetSize this σ = Ret (size_ v) σ.
Proof. intros Ho. unfold GetSize. by mstep (obj_run _ _ _ Ho). Qed.

(** [operator==] on valid vectors. *)
Lemma operator_eq_run (σ : state T) lhs rhs a la b lb :
  valid σ lhs a la -> valid σ rhs b lb ->
  operator_eq lhs rhs σ =
    Ret ((size_ a =? size_ b) && equal_list (elements a la) (elements b lb)) σ.
Proof.
  intros Ha Hb. pose proof Ha as [Ha1 Ha2 Ha3 Ha4 Ha5].
  pose proof Hb as [Hb1 Hb2 Hb3 Hb4 Hb5].
  unfold operator_eq.
  mstep (GetSize_run σ lhs a Ha1). mstep (GetSize_run σ rhs b Hb1).
  destruct (Z.eqb_spec (size_ a) (size_ b)) as [Heq|]; [|done].
  mstep (begin_const_run σ lhs a Ha1).
  mstep (end_const_run σ lhs a la Ha).
  mstep (begin_const_run σ rhs b Hb1).
  unfold std_equal.
  mstep (distance_run σ (storage_ a) la 0 (size_ a) Ha2 ltac:(lia) ltac:(lia)).
  rewrite decide_True by lia.
  rewrite (equal_n_run _ σ (storage_ a) (storage_ b) la lb 0 0) by (done || lia).
  change (Z.to_nat 0) with 0%nat. rewrite !drop_0, Z.sub_0_r.
  unfold elements. by rewrite Heq.
Qed.

(** [operator<] on valid vectors. *)
Lemma operator_lt_run (σ : state T) lhs rhs a la b lb :
  valid σ lhs a la -> valid σ rhs b lb ->
  operator_lt lhs rhs σ =
    Ret (less_list (elements a la) (elements b lb)) σ.
Proof.
  intros Ha Hb. pose proof Ha as [Ha1 Ha2 Ha3 Ha4 Ha5].
  pose proof Hb as [Hb1 Hb2 Hb3 Hb4 Hb5].
  unfold operator_lt.
  mstep (begin_const_run σ lhs a Ha1).
  mstep (end_const_run σ lhs a la Ha).
  mstep (begin_const_run σ rhs b Hb1).
  mstep (end_const_run σ rhs b lb Hb).
  unfold std_lexicographical_compare.
  mstep (distance_run σ (storage_ a) la 0 (size_ a) Ha2 ltac:(lia) ltac:(lia)).
  mstep (distance_run σ (storage_ b) lb 0 (size_ b) Hb2 ltac:(lia) ltac:(lia)).
  rewrite !decide_True by lia.
  rewrite (lexicographical_n_run _ _ σ (storage_ a) (storage_ b) la lb 0 0)
    by (done || lia).
  change (Z.to_nat 0) with 0%nat. by rewrite !drop_0, !Z.sub_0_r.
Qed.

End Comparison_lemmas.

(** ** Further properties: comparison *)

Section Comparison_properties.

Context {T : Type} {elt : Element T} {mem : Allocator} {cmp : Comparable T}.

Lemma equal_list_eq (l1 l2 : list T) :
  (forall x y, elem_eq x y = true <-> x = y) ->
  length l1 = length l2 ->
  equal_list l1 l2 = true <-> l1 = l2.
Proof.
  intros Heq. revert l2.
  induction l1 as [|x l1 IH]; intros [|y l2] Hlen; try done.
  cbn [equal_list]. rewrite andb_true_iff, Heq, (IH l2) by (simpl in Hlen; lia).
  split; [by intros [-> ->]|by intros [= -> ->]].
Qed.

Lemma elements_eq_size a b (la lb : list T) :
  0 <= size_ a <= Z.of_nat (length la) ->
  0 <= size_ b <= Z.of_nat (length lb) ->
  elements a la = elements b lb -> size_ a = size_ b.
Proof.
  intros Ha Hb Heq. apply (f_equal length) in Heq.
  rewrite !elements_length in Heq by done. lia.
Qed.

(** X1.  On two valid vectors [operator==] returns, without changing the
    state, whether the sizes are equal and the live elements are pairwise
    [==]; capacities and slack slots play no part.  [operator!=] returns
    the negation.  When [==] on elements is equality of elements, the
    result is [true] exactly when the two element sequences are the
    same. *)
Theorem operator_eq_spec (σ : state T) lhs rhs a la b lb :
  valid σ lhs a la -> valid σ rhs b lb ->
  let r := (size_ a =? size_ b) &&
           equal_list (elements a la) (elements b lb) in
  operator_eq lhs rhs σ = Ret r σ /\
  operator_ne lhs rhs σ = Ret (negb r) σ /\
  ((forall x y, elem_eq x y = true <-> x = y) ->
   r = true <-> elements a la = elements b lb).
Proof.
  intros Ha Hb r.
  pose proof (operator_eq_run σ lhs rhs a la b lb Ha Hb) as Hrun.
  fold r in Hrun. split; [done|]. split.
  - unfold operator_ne. by mstep Hrun.
  - intros Heq. unfold r. destruct Ha, Hb.
    rewrite andb_true_iff, Z.eqb_eq. split.
    + intros [Hsz Hel]. apply equal_list_eq in Hel; [done|done|].
      rewrite !elements_length by lia. lia.
    + intros Hel. pose proof (elements_eq_size a b la lb) as Hsz.
      split; [apply Hsz; (done || lia)|].
      apply equal_list_eq; [done| |done].
      rewrite !elements_length by lia. f_equal. apply Hsz; (done || lia).
Qed.

(** X2.  On two valid vectors the four ordering operators return,
    without changing the state, the lexicographic comparison of the live
    elements: [<] is [less_list], [>] is [less_list] with the operands
    exchanged, [<=] and [>=] are the negations of [>] and [<]. *)
Theorem ordering_spec (σ : state T) lhs rhs a la b lb :
  valid σ lhs a la -> valid σ rhs b lb ->
  operator_lt lhs rhs σ = Ret (less_list (elements a la) (elements b lb)) σ /\
  operator_gt lhs rhs σ = Ret (less_list (elements b lb) (elements a la)) σ /\
  operator_le lhs rhs σ =
    Ret (negb (less_list (elements b lb) (elements a la))) σ /\
  operator_ge lhs rhs σ =
    Ret (negb (less_list (elements a la) (elements b lb))) σ.
Proof.
  intros Ha Hb.
  pose proof (operator_lt_run σ lhs rhs a la b lb Ha Hb) as Hlt.
  pose proof (operator_lt_run σ rhs lhs b lb a la Hb Ha) as Hgt.
  split; [done|]. split; [done|]. split.
  - unfold operator_le. by mstep Hgt.
  - unfold operator_ge, operator_le. by mstep Hlt.
Qed.

Lemma less_list_trichotomy (l1 l2 : list T) :
  (forall x y, elem_eq x y = true <-> x = y) ->
  (forall x y, elem_lt x y = true -> elem_lt y x = false) ->
  (forall x y, elem_lt x y = false -> elem_lt y x = false -> x = y) ->
  (less_list l1 l2 = true /\ l1 ≠ l2 /\ less_list l2 l1 = false) \/
  (less_list l1 l2 = false /\ l1 = l2 /\ less_list l2 l1 = false) \/
  (less_list l1 l2 = false /\ l1 ≠ l2 /\ less_list l2 l1 = true).
Proof.
  intros Heq Hasym Htotal. revert l2.
  induction l1 as [|x l1 IH]; intros [|y l2]; cbn [less_list].
  - right; left. done.
  - left. done.
  - right; right. done.
  - destruct (elem_lt x y) eqn:Hxy.
    + rewrite (Hasym _ _ Hxy). left. split; [done|]. split; [|done].
      intros [= -> ->]. by rewrite (Hasym _ _ Hxy) in Hxy.
    + destruct (elem_lt y x) eqn:Hyx.
      * right; right. split; [done|]. split; [|done].
        intros [= -> ->]. congruence.
      * pose proof (Htotal _ _ Hxy Hyx) as ->.
        destruct (IH l2) as [(? & ? & ?)|[(? & ? & ?)|(? & ? & ?)]].
        -- left. split; [done|]. split; [congruence|done].
        -- right; left. split; [done|]. split; [congruence|done].
        -- right; right. split; [done|]. split; [congruence|done].
Qed.

(** X3.  When [==] on elements is equality and [<] is a strict total
    order, exactly one of [lhs < rhs], [lhs == rhs] and [lhs > rhs]
    returns [true] on two valid vectors. *)
Theorem comparison_trichotomy (σ : state T) lhs rhs a la b lb :
  valid σ lhs a la -> valid σ rhs b lb ->
  (forall x y, elem_eq x y = true <-> x = y) ->
  (forall x y, elem_lt x y = true -> elem_lt y x = false) ->
  (forall x y, elem_lt x y = false -> elem_lt y x = false -> x = y) ->
  exists lt eq gt,
    operator_lt lhs rhs σ = Ret lt σ /\
    operator_eq lhs rhs σ = Ret eq σ /\
    operator_gt lhs rhs σ = Ret gt σ /\
    ((lt = true /\ eq = false /\ gt = false) \/
     (lt = false /\ eq = true /\ gt = false) \/
     (lt = false /\ eq = false /\ gt = true)).
Proof.
  intros Ha Hb Heq Hasym Htotal.
  pose proof (operator_lt_run σ lhs rhs a la b lb Ha Hb) as Hlt.
  pose proof (operator_lt_run σ rhs lhs b lb a la Hb Ha) as Hgt.
  pose proof (operator_eq_run σ lhs rhs a la b lb Ha Hb) as Heqr.
  eexists _, _, _. split; [exact Hlt|]. split; [exact Heqr|].
  split; [exact Hgt|].
  assert (Hiff : (size_ a =? size_ b) &&
                 equal_list (elements a la) (elements b lb) = true <->
                 elements a la = elements b lb).
  { destruct Ha, Hb. rewrite andb_true_iff, Z.eqb_eq. split.
    - intros [Hsz Hel]. apply equal_list_eq in Hel; [done|done|].
      rewrite !elements_length by lia. lia.
    - intros Hel. pose proof (elements_eq_size a b la lb) as Hsz.
      split; [apply Hsz; (done || lia)|].
      apply equal_list_eq; [done| |done].
      rewrite !elements_length by lia. f_equal. apply Hsz; (done || lia). }
  destruct (less_list_trichotomy (elements a la) (elements b lb)
              Heq Hasym Htotal) as [(-> & Hne & ->)|[(-> & He & ->)|(-> & Hne & ->)]].
  - left. split; [done|]. split; [|done].
    apply not_true_is_false. by rewrite Hiff.
  - right; left. split; [done|]. split; [|done]. by apply Hiff.
  - right; right. split; [done|]. split; [|done].
    apply not_true_is_false. by rewrite Hiff.
Qed.

Lemma equal_list_refl (l : list T) :
  (forall x, elem_eq x x = true) -> equal_list l l = true.
Proof.
  intros Hrefl. induction l as [|x l IH]; [done|].
  cbn [equal_list]. by rewrite Hrefl, IH.
Qed.

(** X4.  A vector built by the copy constructor compares equal to its
    source, in both directions, although its capacity may be smaller;
    this needs only that [==] on elements is reflexive. *)
Theorem copy_compares_equal (σ : state T) this other v l :
  valid σ other v l -> objs σ !! this = None -> size_ v <= alloc_limit ->
  (forall x, elem_eq x x = true) ->
  exists σ',
    SimpleVector_copy this other σ = Ret tt σ' /\
    operator_eq this other σ' = Ret true σ' /\
    operator_eq other this σ' = Ret true σ'.
Proof.
  intros Hv Ho Hn Hrefl.
  destruct (SimpleVector_copy_run σ this other v l Hv Ho Hn)
    as (a & σ' & Hrun & Hw & Hother & _).
  exists σ'. split; [done|].
  rewrite (operator_eq_run σ' this other _ _ v l Hw Hother).
  rewrite (operator_eq_run σ' other this v l _ _ Hother Hw).
  cbn [size_]. rewrite Z.eqb_refl. cbn [andb].
  assert (Hel : elements (mkSimpleVector a (size_ v) (size_ v))
                  (take (Z.to_nat (size_ v)) l) = elements v l).
  { unfold elements. cbn [size_]. by rewrite take_take, Nat.min_id. }
  by rewrite Hel, equal_list_refl.
Qed.

End Comparison_properties.

(** ** Further properties: removal, size changes *)

Section Removal_properties.

Context {T : Type} {elt : Element T} {mem : Allocator}.

(** X5.  [Erase] at offset [d] before the end of a valid vector removes
    the element of that offset and moves the later ones one slot left, in
    place: the size drops by one, buffer and capacity stay, and the
    returned iterator is [begin() + d], the position of the element that
    followed (the new [end()] when the last element was erased). *)
Theorem Erase_spec (σ : state T) this v l d :
  valid σ this v l -> 0 <= d < size_ v ->
  exists l' σ',
    Erase this (ptr_at (storage_ v) d) σ = Ret (ptr_at (storage_ v) d) σ' /\
    valid σ' this (mkSimpleVector (storage_ v) (size_ v - 1) (capacity_ v)) l' /\
    elements (mkSimpleVector (storage_ v) (size_ v - 1) (capacity_ v)) l' =
      take (Z.to_nat d) (elements v l) ++
      drop (S (Z.to_nat d)) (elements v l).
Proof.
  intros Hv Hd. pose proof Hv as [Ho Hb Hl Hs Hr].
  destruct (Erase_run σ this v l d Hv Hd) as (l' & σ' & Hrun & Hv' & Htake & _).
  exists l', σ'. split; [done|]. split; [done|].
  unfold elements at 1. cbn [size_]. rewrite Htake. unfold elements.
  rewrite take_take, Nat.min_l by lia. f_equal.
  rewrite take_drop_commute.
  replace (Z.to_nat (d + 1)) with (S (Z.to_nat d)) by lia.
  do 2 f_equal. lia.
Qed.

Lemma index_beyond (σ : state T) a l i :
  buffer σ a = Some l -> Z.of_nat (length l) < i ->
  ArrayPtr_index a i σ = Undefined.
Proof.
  intros Hb Hi. unfold ArrayPtr_index, Get.
  destruct (raw_ptr_ a) as [b|] eqn:Ha.
  - rewrite (buffer_block _ _ _ Ha) in Hb. unfold ptr_add.
    mstep (block_run b l σ Hb). by rewrite decide_False by lia.
  - unfold ptr_add. by rewrite decide_False by lia.
Qed.

(** X6.  [Erase] does not check its position: at [end()] of a valid
    vector it is undefined behaviour, for the range it moves starts one
    slot after its end. *)
Theorem Erase_at_end (σ : state T) this v l :
  valid σ this v l -> capacity_ v <= alloc_limit ->
  Erase this (ptr_at (storage_ v) (size_ v)) σ = Undefined.
Proof.
  intros [Ho Hb Hl Hs Hr] Hlim. pose proof alloc_limit_lt.
  unfold Erase.
  mstep (begin_run σ this v Ho).
  mstep (distance_run σ (storage_ v) l 0 (size_ v) Hb ltac:(lia) ltac:(lia)).
  rewrite Z.sub_0_r, (wrap_small (size_ v)) by lia.
  mstep (obj_run _ _ _ Ho).
  rewrite (wrap_small (size_ v + 1)) by (rewrite size_t_modulus_eq; lia).
  destruct (decide (size_ v = capacity_ v)) as [Hfull|Hspare].
  - by rewrite run_bind, (index_beyond σ (storage_ v) l) by (done || lia).
  - mstep (index_run σ (storage_ v) l (size_ v + 1) Hb ltac:(lia)).
    mstep (end_run σ this v l Ho Hb ltac:(lia)).
    mstep (index_run σ (storage_ v) l (size_ v) Hb ltac:(lia)).
    rewrite run_bind. unfold std_move.
    mstep (distance_run σ (storage_ v) l (size_ v + 1) (size_ v) Hb
             ltac:(lia) ltac:(lia)).
    by rewrite decide_False by lia.
Qed.

(** X7.  [PopBack] undoes [PushBack]: on a valid vector, with any
    allocation succeeding and whatever readable reference the item is
    passed by, the two calls restore the size and the elements (the
    capacity may have grown). *)
Theorem PopBack_PushBack (σ : state T) this v l (item : reference T) :
  valid σ this v l ->
  (size_ v = capacity_ v -> grown (capacity_ v) <= alloc_limit) ->
  readable σ item ->
  exists σ1 σ2 w l2,
    PushBack this item σ = Ret tt σ1 /\
    PopBack this σ1 = Ret tt σ2 /\
    valid σ2 this w l2 /\
    size_ w = size_ v /\
    elements w l2 = elements v l.
Proof.
  intros Hv Halloc Hval. pose proof Hv as [Ho Hb Hl Hs Hr].
  destruct (PushBack_readable σ this v l item Hv Halloc Hval)
    as (x & w & l1 & σ1 & Hrun1 & Hv1 & Hsz & Hel & _).
  destruct (PopBack_run σ1 this w l1 Hv1 ltac:(lia)) as [Hrun2 Hv2].
  eexists σ1, _, _, l1. split; [done|]. split; [done|]. split; [done|].
  cbn [size_]. split; [lia|].
  unfold elements in *. cbn [size_].
  replace (Z.to_nat (size_ w - 1)) with (Z.to_nat (size_ v)) by lia.
  replace (take (Z.to_nat (size_ v)) l1)
    with (take (Z.to_nat (size_ v)) (take (Z.to_nat (size_ w)) l1))
    by (by rewrite take_take, Nat.min_l by lia).
  rewrite Hel, take_app_length'; [done|].
  rewrite length_take. lia.
Qed.

(** X8.  [PopBack] does not check for emptiness: on an empty vector it
    returns normally and leaves the size at [2^64 - 1], so that
    [size <= capacity] no longer holds. *)
Theorem PopBack_empty (σ : state T) this v l :
  valid σ this v l -> size_ v = 0 -> capacity_ v <= alloc_limit ->
  let w := mkSimpleVector (storage_ v) (size_t_modulus - 1) (capacity_ v) in
  PopBack this σ = Ret tt (set_obj this w σ) /\ ~ size_le_capacity w.
Proof.
  intros [Ho Hb Hl Hs Hr] Hz Hlim w. pose proof alloc_limit_lt. split.
  - unfold PopBack. mstep (obj_run _ _ _ Ho). rewrite Hz.
    change (wrap (0 - 1)) with (size_t_modulus - 1).
    by rewrite (set_size_run this v _ σ Ho).
  - unfold size_le_capacity, w. cbn [size_ capacity_].
    rewrite size_t_modulus_eq. lia.
Qed.

(** X9.  After [Clear], [Resize] to any [n] within the capacity gives [n]
    default values in the same buffer: the elements cleared do not come
    back.  Nothing is allocated or released: the heap has the same blocks
    as before the two calls, and every block but the vector's own is as it
    was. *)
Theorem Resize_after_Clear (σ : state T) (fuel : nat) this v l n :
  valid σ this v l -> 0 <= n <= capacity_ v ->
  exists σ1 σ2 l2,
    Clear this σ = Ret tt σ1 /\
    Resize fuel this n σ1 = Ret tt σ2 /\
    valid σ2 this (mkSimpleVector (storage_ v) n (capacity_ v)) l2 /\
    elements (mkSimpleVector (storage_ v) n (capacity_ v)) l2 =
      replicate (Z.to_nat n) dflt /\
    dom (heap σ2) = dom (heap σ) /\
    (forall b, raw_ptr_ (storage_ v) ≠ Some b ->
       heap σ2 !! b = heap σ !! b).
Proof.
  intros Hv Hn. pose proof Hv as [Ho Hb Hl Hs Hr].
  destruct (Clear_run σ this v l Hv) as [Hrun1 Hv1].
  set (v0 := mkSimpleVector (storage_ v) 0 (capacity_ v)) in *.
  destruct (decide (n = 0)) as [->|Hpos].
  - destruct (Resize_shrink _ fuel this v0 l 0 Hv1 ltac:(cbn; lia))
      as [Hrun2 Hv2].
    eexists _, _, l. split; [done|]. split; [done|]. split; [done|]. done.
  - destruct (Resize_within _ fuel this v0 l n Hv1 ltac:(cbn; lia))
      as (σ2 & Hrun2 & Hv2 & _ & Hfr).
    eexists _, σ2, _. split; [done|]. split; [done|]. split; [done|].
    split.
    + unfold elements. cbn [size_]. change (Z.to_nat 0) with 0%nat.
      rewrite take_0, Z.sub_0_r. cbn [app].
      rewrite take_app_length'; [done|]. by rewrite length_replicate.
    + apply (same_blocks σ σ2 (storage_ v) l _ Hb (valid_buffer _ _ _ _ Hv2)).
      intros a0 Hs0. by rewrite (Hfr a0 Hs0).
Qed.

End Removal_properties.

(** ** Further properties: construction, capacity, assignment *)

Section Capacity_properties.

Context {T : Type} {elt : Element T} {mem : Allocator}.

(** X10.  The four simple constructors, on storage that holds no object
    and with their allocation succeeding: the default constructor builds
    the empty vector without allocating; the constructors from a count
    build that many copies of the value, or of the default value; the
    constructor from an initializer list builds its elements in order.
    Size and capacity are both the number of elements. *)
Theorem constructors_spec (σ : state T) this :
  objs σ !! this = None ->
  (exists σ',
     SimpleVector_default this σ = Ret tt σ' /\
     heap σ' = heap σ /\
     valid σ' this (mkSimpleVector ArrayPtr_default 0 0) []) /\
  (forall n x, 0 <= n <= alloc_limit ->
     exists a σ',
       SimpleVector_fill this n x σ = Ret tt σ' /\
       valid σ' this (mkSimpleVector a n n) (replicate (Z.to_nat n) x)) /\
  (forall n, 0 <= n <= alloc_limit ->
     exists a σ',
       SimpleVector_sized this n σ = Ret tt σ' /\
       valid σ' this (mkSimpleVector a n n) (replicate (Z.to_nat n) dflt)) /\
  (forall init, Z.of_nat (length init) <= alloc_limit ->
     exists a σ',
       SimpleVector_init this init σ = Ret tt σ' /\
       valid σ' this
         (mkSimpleVector a (Z.of_nat (length init)) (Z.of_nat (length init)))
         init).
Proof.
  intros Ho. split; [|split; [|split]].
  - eexists. split; [by apply construct_run|]. split; [done|].
    split; try done. apply set_obj_lookup.
  - intros n x Hn. by apply SimpleVector_fill_run.
  - intros n Hn. by apply SimpleVector_fill_run.
  - intros init Hn. by apply SimpleVector_init_run.
Qed.

Lemma ArrayPtr_new_throw (σ : state T) n :
  n ≠ 0 -> alloc_limit < n -> ArrayPtr_new n σ = Throw bad_alloc σ.
Proof.
  intros Hn Hlim. unfold ArrayPtr_new.
  destruct (Z.eqb_spec n 0); [done|].
  rewrite run_bind. unfold alloc_array. by rewrite decide_False by lia.
Qed.

(** X11.  [Reserve] on a valid vector: a request within the capacity
    changes nothing; a larger one that can be allocated moves the elements
    to a new buffer of exactly the requested capacity, keeps size and
    elements, and releases the old block; a larger one that cannot be
    allocated throws [bad_alloc] and changes nothing. *)
Theorem Reserve_spec (σ : state T) this v l n :
  valid σ this v l ->
  (n <= capacity_ v -> Reserve this n σ = Ret tt σ) /\
  (capacity_ v < n <= alloc_limit ->
     exists a l' σ',
       Reserve this n σ = Ret tt σ' /\
       valid σ' this (mkSimpleVector a (size_ v) n) l' /\
       elements (mkSimpleVector a (size_ v) n) l' = elements v l /\
       (forall b, raw_ptr_ (storage_ v) = Some b -> heap σ' !! b = None)) /\
  (capacity_ v < n -> alloc_limit < n ->
     Reserve this n σ = Throw bad_alloc σ).
Proof.
  intros Hv. pose proof Hv as [Ho Hb Hl Hs Hr]. split; [|split].
  - intros Hn. by apply (Reserve_keep σ this v).
  - intros Hn.
    destruct (Reserve_grow σ this v l n Hv Hn)
      as (a & l' & σ' & Hrun & Hv' & Hel & _ & _ & Hfreed & _).
    by exists a, l', σ'.
  - intros Hn Hlim. unfold Reserve. mstep (obj_run _ _ _ Ho).
    destruct (Z.gtb_spec n (capacity_ v)); [|lia].
    by rewrite run_bind, ArrayPtr_new_throw by lia.
Qed.

(** X28.  The constructor from a reservation request that cannot be
    allocated throws [bad_alloc] and leaves no object behind: the state
    is the one before the call. *)
Theorem reserve_constructor_failure (σ : state T) this c :
  objs σ !! this = None -> alloc_limit < c ->
  SimpleVector_reserve this (ReserveProxy c) σ = Throw bad_alloc σ.
Proof.
  intros Ho Hc. pose proof alloc_limit_ptrdiff as Hlim.
  unfold SimpleVector_reserve.
  mstep (construct_run σ this (mkSimpleVector ArrayPtr_default 0 0) Ho).
  cbn [GetValue ReserveProxy value].
  set (σ1 := set_obj this (mkSimpleVector ArrayPtr_default 0 0) σ).
  assert (Ho1 : objs σ1 !! this = Some (mkSimpleVector ArrayPtr_default 0 0))
    by apply set_obj_lookup.
  assert (Hthrow : Reserve this c σ1 = Throw bad_alloc σ1).
  { unfold Reserve. mstep (obj_run _ _ _ Ho1). cbn [capacity_].
    destruct (Z.gtb_spec c 0); [|lia].
    by rewrite run_bind, ArrayPtr_new_throw by lia. }
  unfold constructor_body. rewrite Hthrow.
  unfold destroy. rewrite run_bind, (obj_run _ _ _ Ho1).
  cbn [storage_ ArrayPtr_default ArrayPtr_delete raw_ptr_].
  rewrite run_bind, run_ret. unfold end_lifetime, σ1, set_obj.
  cbn [heap objs]. rewrite delete_insert_id by done.
  by rewrite state_eta.
Qed.

(** X12.  On a vector of capacity 0, [Resize] to more than [2^63] never
    returns: the doubled capacity wraps around to 0 and stays below the
    requested size, so the loop runs out of any amount of fuel. *)
Theorem Resize_never_returns (σ : state T) (fuel : nat) this v n :
  objs σ !! this = Some v -> capacity_ v = 0 -> 2 ^ 63 < n ->
  Resize fuel this n σ = Diverge.
Proof. apply Resize_overflow. Qed.


(** X14.  [swap] of two distinct valid vectors exchanges their contents
    without touching the heap, and a second [swap] restores the state
    exactly; [swap] of a vector with itself changes nothing. *)
Theorem swap_spec (σ : state T) this other a la b lb :
  valid σ this a la -> valid σ other b lb ->
  (this ≠ other ->
     exists σ',
       swap this other σ = Ret tt σ' /\
       heap σ' = heap σ /\
       valid σ' this b lb /\ valid σ' other a la /\
       swap this other σ' = Ret tt σ) /\
  swap this this σ = Ret tt σ.
Proof.
  intros Ha Hb. split.
  - intros Hne.
    destruct (swap_valid σ this other a la b lb Ha Hb Hne)
      as (σ' & Hrun & Hheap & Hb' & Ha').
    exists σ'. split; [done|]. split; [done|]. split; [done|].
    split; [done|].
    rewrite (swap_run σ' this other b a) by (done || apply Hb' || apply Ha').
    rewrite (swap_run σ this other a b) in Hrun
      by (done || apply Ha || apply Hb).
    injection Hrun as <-. rewrite set_obj_four by done.
    rewrite (set_obj_id this a), set_obj_id; [done|apply Hb|apply Ha].
  - destruct Ha as [Ho _ _ _ _]. unfold swap.
    do 11 ostep. erewrite set_capacity_run by lookup_obj.
    cbn [storage_ size_ capacity_]. rewrite !set_obj_twice.
    destruct a. by rewrite set_obj_id.
Qed.

(** X15.  Copy assignment from a different valid vector that does not
    share the target's buffer, with the allocation succeeding, returns the
    target, which then holds the source's elements with size and capacity
    both equal to the source's size; the source is unchanged. *)
Theorem assign_copy_spec (σ : state T) this rhs u lu v l :
  valid σ this u lu -> valid σ rhs v l -> this ≠ rhs ->
  separate (storage_ u) (storage_ v) -> size_ v <= alloc_limit ->
  exists w lw σ',
    assign_copy this rhs σ = Ret this σ' /\
    valid σ' this w lw /\
    size_ w = size_ v /\ capacity_ w = size_ v /\
    elements w lw = elements v l /\
    valid σ' rhs v l.
Proof.
  intros Hu Hv Hne Hsep Hn.
  destruct (assign_copy_run σ this rhs u lu v l Hu Hv Hne Hsep Hn)
    as (a & σ' & Hrun & Hw & Hv').
  eexists _, _, σ'. split; [done|]. split; [done|].
  cbn [size_ capacity_]. split; [done|]. split; [done|]. split; [|done].
  unfold elements. cbn [size_]. by rewrite take_take, Nat.min_id.
Qed.

End Capacity_properties.

(** ** Further properties: sequences of calls, iterators, independence *)

Section Composition_properties.

Context {T : Type} {elt : Element T} {mem : Allocator}.

(** [Insert] with what it leaves of the rest of the state. *)
Lemma Insert_frame (σ : state T) this v l d value :
  valid σ this v l -> 0 <= d <= size_ v ->
  (size_ v = capacity_ v -> grown (capacity_ v) <= alloc_limit) ->
  readable σ value ->
  exists it σ',
    Insert this (ptr_at (storage_ v) d) value σ = Ret it σ' /\
    (forall other, other ≠ this -> objs σ' !! other = objs σ !! other) /\
    (forall a0 l0, buffer σ a0 = Some l0 -> separate a0 (storage_ v) ->
       buffer σ' a0 = Some l0).
Proof.
  intros Hv Hd Halloc Hval. pose proof Hv as [Ho Hb Hl Hs Hr].
  destruct (decide (size_ v = capacity_ v)) as [Hfull|Hspare].
  - destruct (Insert_full_at σ this v l d value (fun _ => True)
                Hv Hd Hfull (Halloc Hfull))
      as (x & a & l' & σ' & _ & Hrun & _ & _ & Hobjs & Hbuf & _).
    { intros σk Hbk Hfr.
      destruct (deref_after σ σk value (storage_ v) l _ Hval Hb Hbk)
        as (x & Hx & _); [|done|by exists x].
      rewrite length_app, length_fmap, length_take, length_drop. lia. }
    by eexists _, σ'.
  - destruct (Insert_spare_at σ this v l d value (fun _ => True)
                Hv Hd ltac:(lia))
      as (x & l' & σ' & _ & Hrun & _ & _ & Hobjs & Hbuf).
    { intros σk lk Hbk Hlen _ _ Hfr.
      destruct (deref_after σ σk value (storage_ v) l lk Hval Hb Hbk Hlen Hfr)
        as (x & Hx & _).
      by exists x. }
    by eexists _, σ'.
Qed.

Lemma valid_frame (σ σ' : state T) this other u lu a :
  valid σ other u lu -> other ≠ this -> separate (storage_ u) a ->
  (forall o, o ≠ this -> objs σ' !! o = objs σ !! o) ->
  (forall a0 l0, buffer σ a0 = Some l0 -> separate a0 a ->
     buffer σ' a0 = Some l0) ->
  valid σ' other u lu.
Proof.
  intros [Ho Hb Hl Hs Hr] Hne Hsep Hobjs Hbuf. split; try done.
  - by rewrite Hobjs.
  - by apply Hbuf.
Qed.

(** [PushBack] with spare capacity stays in the buffer. *)
Lemma PushBack_spare (σ : state T) this v l item :
  valid σ this v l -> size_ v < capacity_ v ->
  exists l' σ',
    PushBack this (Outside item) σ = Ret tt σ' /\
    valid σ' this (mkSimpleVector (storage_ v) (size_ v + 1) (capacity_ v)) l' /\
    elements (mkSimpleVector (storage_ v) (size_ v + 1) (capacity_ v)) l' =
      elements v l ++ [item].
Proof.
  intros Hv Hspare. pose proof Hv as [Ho Hb Hl Hs Hr].
  unfold PushBack.
  mstep (end_run σ this v l Ho Hb ltac:(lia)).
  destruct (Insert_spare σ this v l (size_ v) item Hv ltac:(lia) Hspare)
    as (l' & σ' & Hrun & Hv' & Htake & _).
  mstep Hrun. exists l', σ'. split; [done|]. split; [done|].
  unfold elements. cbn [size_]. rewrite Htake, Z.sub_diag.
  by change (Z.to_nat 0) with 0%nat.
Qed.

Lemma PushBack_all_spare (items : list T) :
  forall (σ : state T) this v l,
  valid σ this v l ->
  size_ v + Z.of_nat (length items) <= capacity_ v ->
  exists l' σ',
    PushBack_all this items σ = Ret tt σ' /\
    valid σ' this
      (mkSimpleVector (storage_ v) (size_ v + Z.of_nat (length items))
         (capacity_ v)) l' /\
    elements
      (mkSimpleVector (storage_ v) (size_ v + Z.of_nat (length items))
         (capacity_ v)) l' = elements v l ++ items.
Proof.
  induction items as [|item items IH]; intros σ this v l Hv Hfit.
  - exists l, σ. cbn [PushBack_all length]. rewrite Z.add_0_r, app_nil_r.
    split; [done|]. destruct v. done.
  - cbn [length] in Hfit. cbn [PushBack_all length].
    destruct (PushBack_spare σ this v l item Hv ltac:(lia))
      as (l1 & σ1 & Hrun1 & Hv1 & Hel1).
    mstep Hrun1.
    destruct (IH σ1 this _ l1 Hv1) as (l2 & σ2 & Hrun2 & Hv2 & Hel2).
    { cbn [size_ capacity_]. lia. }
    cbn [storage_ size_ capacity_] in *.
    replace (size_ v + 1 + Z.of_nat (length items))
      with (size_ v + Z.of_nat (S (length items))) in * by lia.
    exists l2, σ2. split; [done|]. split; [done|].
    by rewrite Hel2, Hel1, <- app_assoc.
Qed.

(** X16.  [PushBack]s that fit the capacity never reallocate: after
    pushing [items] onto a valid vector with at least that many spare
    slots, the vector has the same buffer (so [begin()] is unchanged) and
    the same capacity, and its elements are the old ones followed by
    [items]. *)
Theorem PushBack_within_capacity (σ : state T) this v l (items : list T) :
  valid σ this v l ->
  size_ v + Z.of_nat (length items) <= capacity_ v ->
  exists w l' σ',
    PushBack_all this items σ = Ret tt σ' /\
    valid σ' this w l' /\
    storage_ w = storage_ v /\
    capacity_ w = capacity_ v /\
    size_ w = size_ v + Z.of_nat (length items) /\
    elements w l' = elements v l ++ items /\
    begin this σ' = Ret (ptr_at (storage_ v) 0) σ'.
Proof.
  intros Hv Hfit.
  destruct (PushBack_all_spare items σ this v l Hv Hfit)
    as (l' & σ' & Hrun & Hv' & Hel).
  eexists _, l', σ'. split; [done|]. split; [done|].
  cbn [storage_ size_ capacity_]. do 4 (split; [done|]).
  by rewrite (begin_run σ' this _ (valid_obj _ _ _ _ Hv')).
Qed.

Lemma least_power_of_two_step size capacity :
  0 <= size <= capacity -> least_power_of_two size capacity ->
  least_power_of_two (size + 1)
    (if size =? capacity then grown capacity else capacity).
Proof.
  intros Hs [[-> ->]|(Hpos & j & -> & Hle & Hmin)]; right.
  - split; [lia|]. exists 0%nat. cbn. split; [done|]. split; [lia|].
    intros i Hi. lia.
  - split; [lia|]. destruct (Z.eqb_spec size (2 ^ Z.of_nat j)) as [Heq|Hne].
    + exists (S j). unfold grown.
      assert (0 < 2 ^ Z.of_nat j) by (apply Z.pow_pos_nonneg; lia).
      destruct (Z.eqb_spec (2 ^ Z.of_nat j) 0); [lia|].
      rewrite Nat2Z.inj_succ, Z.pow_succ_r by lia.
      split; [lia|]. split; [lia|].
      intros i Hi.
      assert (2 ^ Z.of_nat i <= 2 ^ Z.of_nat j)
        by (apply Z.pow_le_mono_r; lia).
      lia.
    + exists j. split; [done|]. split; [lia|].
      intros i Hi. specialize (Hmin i Hi). lia.
Qed.

Lemma PushBack_all_grow (items : list T) :
  forall (σ : state T) this v l,
  valid σ this v l ->
  least_power_of_two (size_ v) (capacity_ v) ->
  2 * (size_ v + Z.of_nat (length items)) <= alloc_limit ->
  exists w l' σ',
    PushBack_all this items σ = Ret tt σ' /\
    valid σ' this w l' /\
    size_ w = size_ v + Z.of_nat (length items) /\
    elements w l' = elements v l ++ items /\
    least_power_of_two (size_ w) (capacity_ w).
Proof.
  induction items as [|item items IH]; intros σ this v l Hv Hpow Hlim.
  - exists v, l, σ. cbn [PushBack_all length]. rewrite Z.add_0_r, app_nil_r.
    done.
  - cbn [length] in Hlim. cbn [PushBack_all length].
    pose proof Hv as [Ho Hb Hl Hs Hr].
    destruct (PushBack_run σ this v l item Hv)
      as (w1 & l1 & σ1 & Hrun1 & Hv1 & Hsz1 & Hel1 & Hcap1).
    { intros Hfull. unfold grown.
      destruct (Z.eqb_spec (capacity_ v) 0); lia. }
    mstep Hrun1.
    destruct (IH σ1 this w1 l1 Hv1) as (w & l' & σ' & Hrun & Hv' & Hsz & Hel & Hp).
    { rewrite Hsz1, Hcap1. by apply least_power_of_two_step. }
    { lia. }
    exists w, l', σ'. split; [done|]. split; [done|]. split; [lia|].
    split; [|done]. by rewrite Hel, Hel1, <- app_assoc.
Qed.

(** X17.  Pushing the items of a list, one by one, onto a
    default-constructed vector (all allocations succeeding) gives a vector
    whose elements are the list and whose capacity is 0 for the empty list
    and otherwise the least power of two that is at least the number of
    items. *)
Theorem PushBack_from_empty (σ : state T) this (items : list T) :
  objs σ !! this = None ->
  2 * Z.of_nat (length items) <= alloc_limit ->
  exists w l' σ',
    (SimpleVector_default this;; PushBack_all this items) σ = Ret tt σ' /\
    valid σ' this w l' /\
    size_ w = Z.of_nat (length items) /\
    elements w l' = items /\
    least_power_of_two (Z.of_nat (length items)) (capacity_ w).
Proof.
  intros Ho Hlim.
  destruct (SimpleVector_default_run σ this Ho) as (σ0 & Hrun0 & Hv0).
  mstep Hrun0.
  destruct (PushBack_all_grow items σ0 this _ [] Hv0)
    as (w & l' & σ' & Hrun & Hv' & Hsz & Hel & Hp).
  { left. done. }
  { cbn [size_]. lia. }
  cbn [size_] in *. rewrite Z.add_0_l in Hsz.
  exists w, l', σ'. split; [done|]. split; [done|]. split; [done|].
  split; [done|]. by rewrite <- Hsz.
Qed.

(** X18.  An [Insert] that reallocates invalidates the old iterators: on
    a full vector with a non-empty buffer the old block is released, so
    that reading through any pointer into it is undefined afterwards, and
    the new buffer is a different block.  This holds whatever readable
    reference the value is passed by. *)
Theorem Insert_invalidates (σ : state T) this v l d (value : reference T) :
  valid σ this v l -> 0 <= d <= size_ v ->
  size_ v = capacity_ v -> 0 < capacity_ v ->
  grown (capacity_ v) <= alloc_limit ->
  readable σ value ->
  exists it σ',
    Insert this (ptr_at (storage_ v) d) value σ = Ret it σ' /\
    (forall i, load (ptr_at (storage_ v) i) σ' = Undefined) /\
    (forall i, it ≠ ptr_at (storage_ v) i).
Proof.
  intros Hv Hd Hfull Hpos Hg Hval. pose proof Hv as [Ho Hb Hl Hs Hr].
  destruct (Insert_full_at σ this v l d value (fun _ => True) Hv Hd Hfull Hg)
    as (x & a & l' & σ' & _ & Hrun & Hv' & _ & _ & _ & Hfreed & Hsep).
  { intros σk Hbk Hfr.
    destruct (deref_after σ σk value (storage_ v) l _ Hval Hb Hbk)
      as (x & Hx & _); [|done|by exists x].
    rewrite length_app, length_fmap, length_take, length_drop. lia. }
  destruct (nonempty_block σ (storage_ v) l Hb ltac:(lia)) as (b & Hraw & _).
  exists (ptr_at a d), σ'. split; [done|]. split.
  - intros i. rewrite (ptr_at_block _ _ _ Hraw). unfold load, block.
    rewrite run_bind. by rewrite (Hfreed b Hraw).
  - intros i. rewrite (ptr_at_block _ _ _ Hraw). unfold ptr_at.
    destruct (raw_ptr_ a) as [b'|] eqn:Ha; [|done].
    intros [= Hbb _]. subst b'. exact (Hsep b Hraw Ha).
Qed.

(** X19.  The source of a move construction cannot be used again when it
    had any capacity: it keeps that capacity over a null buffer, so a
    [PushBack] on it takes the branch for spare capacity and steps past a
    null pointer, which is undefined behaviour. *)
Theorem PushBack_after_move (σ : state T) this other v
    (item : reference T) :
  objs σ !! other = Some v -> objs σ !! this = None ->
  0 < capacity_ v ->
  exists σ',
    SimpleVector_move this other σ = Ret tt σ' /\
    objs σ' !! other =
      Some (mkSimpleVector (mkArrayPtr None) 0 (capacity_ v)) /\
    PushBack other item σ' = Undefined.
Proof.
  intros Hoo Ho Hcap. assert (Hne : other ≠ this) by (intros ->; congruence).
  eexists. split; [by apply SimpleVector_move_run|].
  set (u := mkSimpleVector (mkArrayPtr None) 0 (capacity_ v)).
  set (σ' := set_obj this _ _).
  assert (Hu : objs σ' !! other = Some u).
  { unfold σ'. rewrite set_obj_lookup_ne by done. apply set_obj_lookup. }
  assert (Hbu : buffer σ' (storage_ u) = Some []) by done.
  split; [done|]. unfold PushBack.
  mstep (end_run σ' other u [] Hu Hbu ltac:(cbn; lia)).
  change (size_ u) with 0.
  rewrite run_bind. unfold Insert.
  mstep (begin_run σ' other u Hu).
  mstep (distance_run σ' (storage_ u) [] 0 0 Hbu ltac:(cbn; lia) ltac:(cbn; lia)).
  mstep (obj_run _ _ _ Hu).
  change (size_ u) with 0. change (capacity_ u) with (capacity_ v).
  destruct (Z.eqb_spec 0 (capacity_ v)); [lia|].
  change (wrap (0 - 0)) with 0.
  mstep (index_run σ' (storage_ u) [] 0 Hbu ltac:(cbn; lia)).
  mstep (end_run σ' other u [] Hu Hbu ltac:(cbn; lia)).
  done.
Qed.

(** [PushBack(v[i])]: the item is an element of the vector itself.  With
    spare capacity that element is appended; a full vector moves its
    elements to the new buffer before the reference is read, which then
    finds the element moved-from. *)
Lemma PushBack_own_element (σ : state T) this v l i x :
  valid σ this v l ->
  (size_ v = capacity_ v -> grown (capacity_ v) <= alloc_limit) ->
  0 <= i -> elements v l !! Z.to_nat i = Some x ->
  exists w l' σ',
    PushBack this (Inside (ptr_at (storage_ v) i)) σ = Ret tt σ' /\
    valid σ' this w l' /\
    size_ w = size_ v + 1 /\
    elements w l' =
      elements v l ++
      [if size_ v =? capacity_ v then moved_from x else x].
Proof.
  intros Hv Halloc Hi Hx. pose proof Hv as [Ho Hb Hl Hs Hr].
  unfold elements in Hx. apply lookup_take_Some in Hx as [Hx Hlt].
  unfold PushBack.
  mstep (end_run σ this v l Ho Hb ltac:(lia)).
  assert (Hend : forall y (l' : list T),
            take (Z.to_nat (size_ v + 1)) l' =
              take (Z.to_nat (size_ v)) l ++
              y :: take (Z.to_nat (size_ v - size_ v))
                     (drop (Z.to_nat (size_ v)) l) ->
            take (Z.to_nat (size_ v + 1)) l' = elements v l ++ [y]).
  { intros y l' ->. by rewrite Z.sub_diag. }
  destruct (Z.eqb_spec (size_ v) (capacity_ v)) as [Hfull|Hspare].
  - destruct (Insert_full_at σ this v l (size_ v)
                (Inside (ptr_at (storage_ v) i)) (eq (moved_from x))
                Hv ltac:(lia) Hfull (Halloc Hfull))
      as (y & a & l' & σ' & <- & Hrun & Hv' & Htake & _).
    { intros σk Hbk _. exists (moved_from x). split; [|done].
      apply (deref_at_run σk _ _ i _ Hbk Hi).
      rewrite lookup_app_l by (rewrite length_fmap, length_take; lia).
      by rewrite list_lookup_fmap, lookup_take_lt, Hx by lia. }
    mstep Hrun. eexists _, l', σ'. split; [done|]. split; [done|].
    split; [done|]. by apply Hend.
  - destruct (Insert_spare_at σ this v l (size_ v)
                (Inside (ptr_at (storage_ v) i)) (eq x)
                Hv ltac:(lia) ltac:(lia))
      as (y & l' & σ' & <- & Hrun & Hv' & Htake & _).
    { intros σk lk Hbk _ Hpre _ _. exists x. split; [|done].
      apply (deref_at_run σk _ _ i _ Hbk Hi).
      rewrite <- (lookup_take_lt lk (Z.to_nat (size_ v))) by lia.
      by rewrite Hpre, lookup_take_lt by lia. }
    mstep Hrun. eexists _, l', σ'. split; [done|]. split; [done|].
    split; [done|]. by apply Hend.
Qed.

(** [At] at the old size after an element was appended. *)
Lemma At_appended (σ' : state T) this v w (l l' : list T) y :
  valid σ' this w l' -> 0 <= size_ v <= Z.of_nat (length l) ->
  size_ w = size_ v + 1 ->
  elements w l' = elements v l ++ [y] ->
  At this (size_ v) σ' = Ret (ptr_at (storage_ w) (size_ v)) σ' /\
  load (ptr_at (storage_ w) (size_ v)) σ' = Ret y σ'.
Proof.
  intros [Ho' Hb' Hl' Hs' Hr'] Hs Hsz Hel.
  assert (Hy : l' !! Z.to_nat (size_ v) = Some y).
  { assert (Hy : elements w l' !! Z.to_nat (size_ v) = Some y).
    { rewrite Hel, lookup_app_r by (rewrite elements_length; lia).
      rewrite elements_length, Nat.sub_diag by lia. done. }
    unfold elements in Hy. apply lookup_take_Some in Hy. tauto. }
  split.
  - unfold At. mstep (obj_run _ _ _ Ho').
    destruct (Z.geb_spec (size_ v) (size_ w)); [lia|].
    apply (index_run σ' _ l'); [done|lia].
  - apply (load_at_run σ' _ l'); [done|lia|done].
Qed.

(** X20.  What [At] finds at the old size after a [PushBack] on a valid
    vector (any allocation succeeding).  For an item that lies outside
    the buffers it is that item.  For [PushBack(v[i])], an element of the
    vector itself, it is that element when there was spare capacity; on a
    full vector it is the element's moved-from state, because the
    elements are moved to the new buffer before the reference is read. *)
Theorem At_after_PushBack (σ : state T) this v l :
  valid σ this v l ->
  (size_ v = capacity_ v -> grown (capacity_ v) <= alloc_limit) ->
  (forall item,
     exists σ' p,
       PushBack this (Outside item) σ = Ret tt σ' /\
       At this (size_ v) σ' = Ret p σ' /\
       load p σ' = Ret item σ') /\
  (forall i x, 0 <= i -> elements v l !! Z.to_nat i = Some x ->
     exists q σ' p,
       subscript this i σ = Ret q σ /\
       load q σ = Ret x σ /\
       PushBack this (Inside q) σ = Ret tt σ' /\
       At this (size_ v) σ' = Ret p σ' /\
       load p σ' =
         Ret (if size_ v =? capacity_ v then moved_from x else x) σ').
Proof.
  intros Hv Halloc. pose proof Hv as [Ho Hb Hl Hs Hr]. split.
  - intros item.
    destruct (PushBack_run σ this v l item Hv Halloc)
      as (w & l' & σ' & Hrun & Hv' & Hsz & Hel & _).
    destruct (At_appended σ' this v w l l' item Hv' ltac:(lia) Hsz Hel)
      as [Hat Hload].
    by exists σ', (ptr_at (storage_ w) (size_ v)).
  - intros i x Hi Hx.
    destruct (PushBack_own_element σ this v l i x Hv Halloc Hi Hx)
      as (w & l' & σ' & Hrun & Hv' & Hsz & Hel).
    destruct (At_appended σ' this v w l l' _ Hv' ltac:(lia) Hsz Hel)
      as [Hat Hload].
    unfold elements in Hx. apply lookup_take_Some in Hx as [Hx Hlt].
    exists (ptr_at (storage_ v) i), σ', (ptr_at (storage_ w) (size_ v)).
    split.
    { unfold subscript. mstep (obj_run _ _ _ Ho).
      apply (index_run σ _ l); [done|lia]. }
    split; [by apply (load_at_run σ _ l)|].
    done.
Qed.

(** X21.  [operator[]] checks nothing: for an index between the size and
    the capacity, where [At] throws, it returns the address of a slack
    slot of the buffer, which can be read; for an index beyond the
    capacity it is undefined behaviour. *)
Theorem subscript_unchecked (σ : state T) this v l index :
  valid σ this v l -> 0 <= index ->
  (size_ v <= index < capacity_ v ->
     exists x,
       l !! Z.to_nat index = Some x /\
       subscript this index σ = Ret (ptr_at (storage_ v) index) σ /\
       load (ptr_at (storage_ v) index) σ = Ret x σ /\
       At this index σ = Throw (out_of_range "out_of_range") σ) /\
  (capacity_ v < index ->
     subscript this index σ = Undefined /\
     subscript_const this index σ = Undefined).
Proof.
  intros [Ho Hb Hl Hs Hr] Hi. split.
  - intros Hin.
    destruct (lookup_lt_is_Some_2 l (Z.to_nat index) ltac:(lia)) as [x Hx].
    exists x. split; [done|]. split.
    { unfold subscript. mstep (obj_run _ _ _ Ho).
      apply (index_run σ _ l); [done|lia]. }
    split; [by apply (load_at_run σ _ l)|].
    unfold At. mstep (obj_run _ _ _ Ho).
    by destruct (Z.geb_spec index (size_ v)); [|lia].
  - intros Hout. unfold subscript, subscript_const.
    rewrite !run_bind, !(obj_run _ _ _ Ho).
    by rewrite (index_beyond σ (storage_ v) l) by (done || lia).
Qed.

(** X22.  A copy is independent of its source: after copy construction
    (the allocation succeeding), an [Insert] into the copy leaves the
    source's fields and buffer as they were, and an [Insert] into the
    source leaves the copy's, whatever readable reference the value is
    passed by (an element of the other vector included). *)
Theorem copy_independent (σ : state T) this other v l :
  valid σ other v l -> objs σ !! this = None -> size_ v <= alloc_limit ->
  exists w lw σ1,
    SimpleVector_copy this other σ = Ret tt σ1 /\
    valid σ1 this w lw /\ valid σ1 other v l /\
    capacity_ w = size_ v /\
    (forall d (value : reference T), 0 <= d <= size_ w ->
       (size_ w = capacity_ w -> grown (capacity_ w) <= alloc_limit) ->
       readable σ1 value ->
       exists it σ2,
         Insert this (ptr_at (storage_ w) d) value σ1 = Ret it σ2 /\
         valid σ2 other v l) /\
    (forall d (value : reference T), 0 <= d <= size_ v ->
       (size_ v = capacity_ v -> grown (capacity_ v) <= alloc_limit) ->
       readable σ1 value ->
       exists it σ2,
         Insert other (ptr_at (storage_ v) d) value σ1 = Ret it σ2 /\
         valid σ2 this w lw).
Proof.
  intros Hv Ho Hn. pose proof Hv as [Hoo Hb Hl Hs Hr].
  assert (Hne : other ≠ this) by (intros ->; congruence).
  destruct (SimpleVector_copy_run σ this other v l Hv Ho Hn)
    as (a & σ1 & Hrun & Hw & Hv1 & _ & Hbuf).
  destruct (Hbuf _ _ Hb) as [_ Hsep].
  eexists _, _, σ1. split; [done|]. split; [done|]. split; [done|].
  split; [done|]. split.
  - intros d value Hd Halloc Hval.
    destruct (Insert_frame σ1 this _ _ d value Hw Hd Halloc Hval)
      as (it & σ2 & Hrun2 & Hobjs & Hfr).
    exists it, σ2. split; [done|].
    by apply (valid_frame σ1 σ2 this other v l a).
  - intros d value Hd Halloc Hval.
    destruct (Insert_frame σ1 other v l d value Hv1 Hd Halloc Hval)
      as (it & σ2 & Hrun2 & Hobjs & Hfr).
    exists it, σ2. split; [done|].
    apply (valid_frame σ1 σ2 other this _ _ (storage_ v)); try done.
    by apply separate_sym.
Qed.

End Composition_properties.

(** ** Further properties: move assignment, iterators, round trips *)

Section Iteration_properties.

Context {T : Type} {elt : Element T} {mem : Allocator}.

(** X23.  Move assignment from a different valid vector that does not
    share the target's buffer returns the target, allocates nothing and
    releases the target's old block: the heap afterwards is the heap
    before without that block.  The target takes over the source's buffer
    and size but is given capacity 0, and the source is left with a null
    buffer, size 0 and its old capacity.  Move assignment of a vector to
    itself changes nothing. *)
Theorem assign_move_spec (σ : state T) this rhs u lu v l :
  valid σ this u lu -> valid σ rhs v l -> this ≠ rhs ->
  separate (storage_ u) (storage_ v) ->
  (exists σ',
     assign_move this rhs σ = Ret this σ' /\
     objs σ' !! this = Some (mkSimpleVector (storage_ v) (size_ v) 0) /\
     buffer σ' (storage_ v) = Some l /\
     objs σ' !! rhs = Some (mkSimpleVector (mkArrayPtr None) 0 (capacity_ v)) /\
     heap σ' = match raw_ptr_ (storage_ u) with
               | Some b => delete b (heap σ)
               | None => heap σ
               end /\
     (forall b, raw_ptr_ (storage_ u) = Some b -> heap σ' !! b = None)) /\
  assign_move this this σ = Ret this σ.
Proof.
  intros Hu Hv Hne Hsep.
  pose proof Hu as [Hu1 Hu2 Hu3 Hu4 Hu5].
  pose proof Hv as [Hv1 Hv2 Hv3 Hv4 Hv5].
  split; [|unfold assign_move; by rewrite decide_False by tauto].
  unfold assign_move. rewrite decide_True by done.
  destruct (fresh_loc_run σ) as [Hrun0 Hfresh].
  set (tmp := fresh (dom (objs σ))) in *.
  assert (Hnt : this ≠ tmp) by (intros ->; congruence).
  assert (Hnr : rhs ≠ tmp) by (intros ->; congruence).
  mstep Hrun0.
  mstep (SimpleVector_move_run σ tmp rhs v Hv1 Hfresh).
  set (w := mkSimpleVector (storage_ v) (size_ v) 0).
  set (r := mkSimpleVector (mkArrayPtr None) 0 (capacity_ v)).
  set (σ1 := set_obj tmp w (set_obj rhs r σ)).
  assert (Hu1' : objs σ1 !! this = Some u).
  { unfold σ1. by rewrite !set_obj_lookup_ne by done. }
  mstep (swap_run σ1 this tmp u w Hu1' (set_obj_lookup _ _ _) Hnt).
  set (σ2 := set_obj tmp u (set_obj this w σ1)).
  destruct (ArrayPtr_delete_run σ2 (storage_ u) lu)
    as (σ3 & Hrun3 & Hobjs3 & Hbuf3); [done|].
  unfold destroy. rewrite run_bind.
  mstep (obj_run tmp u σ2 (set_obj_lookup _ _ _)).
  mstep Hrun3. unfold end_lifetime. rewrite run_ret.
  eexists. split; [done|]. cbn [heap objs].
  split; [|split; [|split]].
  - rewrite lookup_delete_ne by done. rewrite Hobjs3. unfold σ2.
    rewrite set_obj_lookup_ne by done. apply set_obj_lookup.
  - change (buffer σ3 (storage_ v) = Some l).
    rewrite Hbuf3 by (by apply separate_sym). done.
  - rewrite lookup_delete_ne by done. rewrite Hobjs3. unfold σ2, σ1.
    rewrite !set_obj_lookup_ne by done. apply set_obj_lookup.
  - split.
    + by rewrite (ArrayPtr_delete_heap σ2 σ3 (storage_ u) Hrun3).
    + intros b Hb. by apply (ArrayPtr_delete_freed σ2 σ3 (storage_ u)).
Qed.

(** X24.  On a valid vector [begin()] and [end()] delimit exactly the
    live elements, and the const iterators are the same addresses: the
    distance from [begin()] to [end()] is [GetSize()], [IsEmpty()] is
    true exactly when the two are equal, and for each [i] below the size
    [begin() + i] can be formed and reads element [i]. *)
Theorem iterators_spec (σ : state T) this v l :
  valid σ this v l ->
  exists first last,
    begin this σ = Ret first σ /\ end_ this σ = Ret last σ /\
    cbegin this σ = Ret first σ /\ cend this σ = Ret last σ /\
    begin_const this σ = Ret first σ /\ end_const this σ = Ret last σ /\
    std_distance first last σ = Ret (size_ v) σ /\
    GetSize this σ = Ret (size_ v) σ /\
    (IsEmpty this σ = Ret true σ <-> first = last) /\
    (forall (i : nat) x, elements v l !! i = Some x ->
       exists p, ptr_add first (Z.of_nat i) σ = Ret p σ /\
                 load p σ = Ret x σ).
Proof.
  intros [Ho Hb Hl Hs Hr].
  exists (ptr_at (storage_ v) 0), (ptr_at (storage_ v) (size_ v)).
  split; [by apply begin_run|].
  split; [by apply (end_run σ this v l); (done || lia)|].
  split; [by apply begin_run|].
  split; [by apply (end_run σ this v l); (done || lia)|].
  split; [by apply begin_run|].
  split; [by apply (end_run σ this v l); (done || lia)|].
  split.
  { rewrite (distance_run σ (storage_ v) l 0 (size_ v)) by (done || lia).
    by rewrite Z.sub_0_r. }
  split; [unfold GetSize; by mstep (obj_run _ _ _ Ho)|].
  split.
  - unfold IsEmpty. mstep (obj_run _ _ _ Ho). rewrite run_ret.
    unfold ptr_at. destruct (raw_ptr_ (storage_ v)) as [b|] eqn:Ha.
    + split.
      * intros [= Hz]. apply Z.eqb_eq in Hz. by rewrite Hz.
      * intros [= Hz]. by rewrite <- Hz.
    + apply (buffer_null _ _ _ Ha) in Hb. subst l. simpl in Hl.
      replace (size_ v) with 0 by lia. done.
  - intros i x Hx. unfold elements in Hx.
    apply lookup_take_Some in Hx as [Hx Hi].
    pose proof (lookup_lt_Some _ _ _ Hx) as Hlen.
    exists (ptr_at (storage_ v) (Z.of_nat i)). split.
    + unfold ptr_at. destruct (raw_ptr_ (storage_ v)) as [b|] eqn:Ha.
      * rewrite (buffer_block _ _ _ Ha) in Hb.
        rewrite (ptr_add_run b 0 (Z.of_nat i) l) by (done || lia).
        done.
      * apply (buffer_null _ _ _ Ha) in Hb. subst l. simpl in Hlen. lia.
    + apply (load_at_run σ (storage_ v) l); [done|lia|].
      by rewrite Nat2Z.id.
Qed.

(** X25.  [Reserve] does what it is for: after [Reserve(n)] has grown a
    valid vector, pushing items up to a total of [n] elements does not
    reallocate; [begin()] is what it was right after [Reserve], the
    capacity is exactly [n] and the elements are the old ones followed by
    the items. *)
Theorem PushBack_after_Reserve (σ : state T) this v l n (items : list T) :
  valid σ this v l -> capacity_ v < n <= alloc_limit ->
  size_ v + Z.of_nat (length items) <= n ->
  exists σ1 σ2 p w l2,
    Reserve this n σ = Ret tt σ1 /\
    begin this σ1 = Ret p σ1 /\
    PushBack_all this items σ1 = Ret tt σ2 /\
    begin this σ2 = Ret p σ2 /\
    valid σ2 this w l2 /\
    capacity_ w = n /\
    size_ w = size_ v + Z.of_nat (length items) /\
    elements w l2 = elements v l ++ items.
Proof.
  intros Hv Hn Hfit.
  destruct (Reserve_grow σ this v l n Hv Hn)
    as (a & l1 & σ1 & Hrun1 & Hv1 & Hel1 & _).
  destruct (PushBack_all_spare items σ1 this _ l1 Hv1)
    as (l2 & σ2 & Hrun2 & Hv2 & Hel2); [by cbn [size_ capacity_]|].
  cbn [storage_ size_ capacity_] in *.
  eexists σ1, σ2, (ptr_at a 0), _, l2.
  split; [done|].
  split; [by apply (begin_run σ1 this _ (valid_obj _ _ _ _ Hv1))|].
  split; [done|].
  split; [by apply (begin_run σ2 this _ (valid_obj _ _ _ _ Hv2))|].
  split; [done|]. cbn [size_ capacity_].
  split; [done|]. split; [done|]. by rewrite Hel2, Hel1.
Qed.

(** X26.  [Insert] undoes [Erase]: erasing the element at offset [d] of a
    valid vector and inserting its value again at the iterator [Erase]
    returned restores the fields and the elements, without allocating. *)
Theorem Insert_Erase (σ : state T) this v l d x :
  valid σ this v l -> 0 <= d < size_ v ->
  elements v l !! Z.to_nat d = Some x ->
  exists it σ1 σ2 l2,
    Erase this (ptr_at (storage_ v) d) σ = Ret it σ1 /\
    Insert this it (Outside x) σ1 = Ret it σ2 /\
    valid σ2 this v l2 /\
    elements v l2 = elements v l.
Proof.
  intros Hv Hd Hx. pose proof Hv as [Ho Hb Hl Hs Hr].
  destruct (Erase_run σ this v l d Hv Hd) as (l1 & σ1 & Hrun1 & Hv1 & Htake1 & _).
  destruct (Insert_spare σ1 this _ l1 d x Hv1) as (l2 & σ2 & Hrun2 & Hv2 & Htake2 & _);
    [cbn [size_]; lia | cbn [size_ capacity_]; lia |].
  cbn [storage_ size_ capacity_] in *.
  replace (size_ v - 1 + 1) with (size_ v) in * by lia.
  exists (ptr_at (storage_ v) d), σ1, σ2, l2.
  split; [done|]. split; [done|].
  split; [by destruct v|].
  unfold elements in *. rewrite Htake2.
  apply lookup_take_Some in Hx as [Hx _].
  assert (Hlen : (Z.to_nat d < length l)%nat) by (by eapply lookup_lt_Some).
  assert (Hd1 : take (Z.to_nat d) l1 = take (Z.to_nat d) l).
  { replace (take (Z.to_nat d) l1)
      with (take (Z.to_nat d) (take (Z.to_nat (size_ v - 1)) l1))
      by (by rewrite take_take, Nat.min_l by lia).
    rewrite Htake1, take_app_length'; [done|]. rewrite length_take. lia. }
  assert (Hd2 : take (Z.to_nat (size_ v - 1 - d)) (drop (Z.to_nat d) l1) =
                take (Z.to_nat (size_ v - (d + 1))) (drop (Z.to_nat (d + 1)) l)).
  { rewrite take_drop_commute.
    replace (Z.to_nat d + Z.to_nat (size_ v - 1 - d))%nat
      with (Z.to_nat (size_ v - 1)) by lia.
    rewrite Htake1, drop_app_length'; [done|].
    rewrite length_take. lia. }
  rewrite Hd1, Hd2.
  rewrite <- (take_drop_middle l (Z.to_nat d) x Hx) at 3.
  rewrite take_app_ge by (rewrite length_take; lia).
  f_equal. rewrite length_take, Nat.min_l by lia.
  replace (Z.to_nat (size_ v) - Z.to_nat d)%nat
    with (S (Z.to_nat (size_ v - (d + 1)))) by lia.
  cbn [take]. do 3 f_equal. lia.
Qed.

(** X27.  [Insert] does not check its position: with a position after
    [end()] (inside the buffer of a vector with spare capacity) it is
    undefined behaviour, for the range it moves ends before it starts. *)
Theorem Insert_past_end (σ : state T) this v l d (value : reference T) :
  valid σ this v l -> size_ v < d <= capacity_ v ->
  Insert this (ptr_at (storage_ v) d) value σ = Undefined.
Proof.
  intros [Ho Hb Hl Hs Hr] Hd.
  unfold Insert.
  mstep (begin_run σ this v Ho).
  mstep (distance_run σ (storage_ v) l 0 d Hb ltac:(lia) ltac:(lia)).
  rewrite Z.sub_0_r, (wrap_small d) by lia.
  mstep (obj_run _ _ _ Ho).
  destruct (Z.eqb_spec (size_ v) (capacity_ v)); [lia|].
  mstep (index_run σ (storage_ v) l d Hb ltac:(lia)).
  mstep (end_run σ this v l Ho Hb ltac:(lia)).
  rewrite run_bind.
  assert (Hadd : ptr_add (ptr_at (storage_ v) (size_ v)) 1 σ =
                 Ret (ptr_at (storage_ v) (size_ v + 1)) σ).
  { unfold ptr_at. destruct (raw_ptr_ (storage_ v)) as [b|] eqn:Ha.
    - rewrite (buffer_block _ _ _ Ha) in Hb.
      by rewrite (ptr_add_run b (size_ v) 1 l) by (done || lia).
    - apply (buffer_null _ _ _ Ha) in Hb. subst l. simpl in Hl. lia. }
  rewrite Hadd. cbv beta iota.
  rewrite run_bind. unfold std_move_backward.
  mstep (distance_run σ (storage_ v) l d (size_ v) Hb ltac:(lia) ltac:(lia)).
  by rewrite decide_False by lia.
Qed.

End Iteration_properties.

(** ** Further properties: a value that is an element of the vector *)

Section Aliasing_properties.

Context {T : Type} {elt : Element T} {mem : Allocator}.

(** X29.  [v.Insert(pos, v[i])]: the value is an element of the vector
    itself, and what is inserted is what the reference reads after the
    elements have been moved.  With spare capacity an element before the
    offset is inserted as it is, but for an element after the offset the
    reference reads its slot after the shift, and the element that
    preceded it is inserted instead.  On a full vector an element from the
    offset on is inserted as it is, and an element before the offset is
    inserted in its moved-from state. *)
Theorem Insert_own_element (σ : state T) this v l d i x :
  valid σ this v l -> 0 <= d <= size_ v -> 0 <= i ->
  (size_ v = capacity_ v -> grown (capacity_ v) <= alloc_limit) ->
  elements v l !! Z.to_nat i = Some x ->
  (size_ v < capacity_ v -> i ≠ d) ->
  exists y w l' σ',
    Insert this (ptr_at (storage_ v) d) (Inside (ptr_at (storage_ v) i)) σ =
      Ret (ptr_at (storage_ w) d) σ' /\
    valid σ' this w l' /\
    size_ w = size_ v + 1 /\
    elements w l' =
      take (Z.to_nat d) (elements v l) ++ y :: drop (Z.to_nat d) (elements v l) /\
    (size_ v < capacity_ v -> i < d -> y = x) /\
    (size_ v < capacity_ v -> d < i ->
       elements v l !! Z.to_nat (i - 1) = Some y) /\
    (size_ v = capacity_ v -> i < d -> y = moved_from x) /\
    (size_ v = capacity_ v -> d <= i -> y = x).
Proof.
  intros Hv Hd Hi Halloc Hx Hne. pose proof Hv as [Ho Hb Hl Hs Hr].
  unfold elements in Hx. apply lookup_take_Some in Hx as [Hx Hlt].
  pose proof (lookup_lt_Some _ _ _ Hx) as Hlen.
  set (Q := fun y : T =>
    (size_ v < capacity_ v -> i < d -> y = x) /\
    (size_ v < capacity_ v -> d < i ->
       elements v l !! Z.to_nat (i - 1) = Some y) /\
    (size_ v = capacity_ v -> i < d -> y = moved_from x) /\
    (size_ v = capacity_ v -> d <= i -> y = x)).
  destruct (Insert_at σ this v l d (Inside (ptr_at (storage_ v) i)) Q
              Hv Hd Halloc)
    as (y & w & l' & σ' & HQ & Hrun & Hv' & Hsz & Hel & _).
  - intros Hfull σk Hbk _.
    destruct (decide (i < d)) as [Hid|Hid].
    + exists (moved_from x). split.
      * apply (deref_at_run σk _ _ i _ Hbk Hi).
        rewrite lookup_app_l by (rewrite length_fmap, length_take; lia).
        by rewrite list_lookup_fmap, lookup_take_lt, Hx by lia.
      * unfold Q. repeat split; intros; (done || lia).
    + exists x. split.
      * apply (deref_at_run σk _ _ i _ Hbk Hi).
        rewrite lookup_app_r by (rewrite length_fmap, length_take; lia).
        rewrite length_fmap, length_take, lookup_drop.
        rewrite <- Hx. f_equal. lia.
      * unfold Q. repeat split; intros; (done || lia).
  - intros Hspare σk lk Hbk Hlenk Hpre Hmid _.
    destruct (decide (i < d)) as [Hid|Hid].
    + exists x. split.
      * apply (deref_at_run σk _ _ i _ Hbk Hi).
        rewrite <- (lookup_take_lt lk (Z.to_nat d)) by lia.
        by rewrite Hpre, lookup_take_lt by lia.
      * unfold Q. repeat split; intros; (done || lia).
    + assert (Hdi : d < i) by (specialize (Hne Hspare); lia).
      destruct (lookup_lt_is_Some_2 l (Z.to_nat (i - 1)) ltac:(lia))
        as [y Hy].
      exists y. split.
      * apply (deref_at_run σk _ _ i _ Hbk Hi).
        assert (Hk : take (Z.to_nat (size_ v - d))
                       (drop (Z.to_nat (d + 1)) lk)
                     !! Z.to_nat (i - d - 1) = Some y).
        { rewrite Hmid, lookup_take_lt, lookup_drop by lia.
          rewrite <- Hy. f_equal. lia. }
        rewrite lookup_take_lt, lookup_drop in Hk by lia.
        rewrite <- Hk. f_equal. lia.
      * unfold Q. repeat split; intros; try lia.
        unfold elements. by rewrite lookup_take_lt by lia.
  - exists y, w, l', σ'. by destruct HQ as (? & ? & ? & ?).
Qed.

End Aliasing_properties.

(** ** The model on concrete vectors of [int] *)

Section Examples.

#[local] Existing Instance int_element.
#[local] Existing Instance small_store.

Lemma full_vector_valid :
  valid full_vector 1 (mkSimpleVector (mkArrayPtr (Some 1%positive)) 3 3)
    [1; 2; 3].
Proof.
  split; [reflexivity | reflexivity | reflexivity | cbn; lia
         | vm_compute; reflexivity].
Qed.

Lemma spare_vector_valid :
  valid spare_vector 1 (mkSimpleVector (mkArrayPtr (Some 1%positive)) 3 4)
    [1; 2; 3; 0].
Proof.
  split; [reflexivity | reflexivity | reflexivity | cbn; lia
         | vm_compute; reflexivity].
Qed.

(** The example trace of the specification: three [PushBack]s on an empty
    vector, an [Insert] at [begin() + 1], one more [PushBack]. *)
Example spec_trace :
  exists σ1 σ2 σ3,
    (SimpleVector_default 1;;
     PushBack 1 (Outside 1);; PushBack 1 (Outside 2);;
     PushBack 1 (Outside 3)) empty_state = Ret tt σ1 /\
    objs σ1 !! 1%positive =
      Some (mkSimpleVector (mkArrayPtr (Some 3%positive)) 3 4) /\
    heap σ1 !! 3%positive = Some [1; 2; 3; 0] /\
    Insert 1 (Ptr 3 1) (Outside 9) σ1 = Ret (Ptr 3 1) σ2 /\
    objs σ2 !! 1%positive =
      Some (mkSimpleVector (mkArrayPtr (Some 3%positive)) 4 4) /\
    heap σ2 !! 3%positive = Some [1; 9; 2; 3] /\
    PushBack 1 (Outside 5) σ2 = Ret tt σ3 /\
    objs σ3 !! 1%positive =
      Some (mkSimpleVector (mkArrayPtr (Some 4%positive)) 5 8) /\
    heap σ3 !! 4%positive = Some [1; 9; 2; 3; 5; 0; 0; 0].
Proof.
  do 3 eexists.
  do 8 (split; [vm_compute; reflexivity|]). vm_compute; reflexivity.
Qed.

(** C1.  Move-constructing from [SimpleVector<int>{7}] (size 1, capacity
    1): the new vector takes the buffer and the size but gets capacity 0,
    and the source keeps capacity 1 with a null buffer.  The third member
    initialiser exchanges [other.size_] a second time where
    [other.capacity_] is expected. *)
Theorem move_constructor_capacity :
  exists σ0 σ1,
    SimpleVector_init 1 [7] empty_state = Ret tt σ0 /\
    objs σ0 !! 1%positive =
      Some (mkSimpleVector (mkArrayPtr (Some 1%positive)) 1 1) /\
    SimpleVector_move 2 1 σ0 = Ret tt σ1 /\
    objs σ1 !! 2%positive =
      Some (mkSimpleVector (mkArrayPtr (Some 1%positive)) 1 0) /\
    objs σ1 !! 1%positive = Some (mkSimpleVector (mkArrayPtr None) 0 1) /\
    heap σ1 = heap σ0.
Proof.
  do 2 eexists.
  do 5 (split; [vm_compute; reflexivity|]). vm_compute; reflexivity.
Qed.

(** C2.  The vector that the move constructor builds from
    [SimpleVector<int>{7}], and the target of a move assignment from it,
    have size 1 and capacity 0: [size <= capacity] does not hold. *)
Theorem move_breaks_size_le_capacity :
  (exists σ0 σ1 w,
     SimpleVector_init 1 [7] empty_state = Ret tt σ0 /\
     SimpleVector_move 2 1 σ0 = Ret tt σ1 /\
     objs σ1 !! 2%positive = Some w /\
     ~ size_le_capacity w) /\
  (exists σ0 σ1 w,
     (SimpleVector_init 1 [7];; SimpleVector_default 2) empty_state =
       Ret tt σ0 /\
     assign_move 2 1 σ0 = Ret 2%positive σ1 /\
     objs σ1 !! 2%positive = Some w /\
     ~ size_le_capacity w).
Proof.
  split.
  - exists (mkState {[1%positive := [7]]}
             {[1%positive := mkSimpleVector (mkArrayPtr (Some 1%positive)) 1 1]}).
    do 2 eexists. split; [vm_compute; reflexivity|].
    split; [vm_compute; reflexivity|]. split; [vm_compute; reflexivity|].
    unfold size_le_capacity. cbn [size_ capacity_]. lia.
  - do 3 eexists. split; [vm_compute; reflexivity|].
    split; [vm_compute; reflexivity|]. split; [vm_compute; reflexivity|].
    unfold size_le_capacity. cbn [size_ capacity_]. lia.
Qed.

(** [reserve_constructor] for a request of 5 slots in the empty state. *)
Lemma reserve_constructor_witness :
  objs (empty_state (T:=Z)) !! 1%positive = None /\
  0 <= 5 <= alloc_limit /\
  exists w lw σ',
    SimpleVector_reserve 1 (ReserveProxy 5) empty_state = Ret tt σ' /\
    valid σ' 1 w lw /\ size_ w = 0 /\ capacity_ w = 5.
Proof.
  assert (Hfree : objs (empty_state (T:=Z)) !! 1%positive = None)
    by reflexivity.
  assert (Hc : 0 <= 5 <= alloc_limit) by (vm_compute; intuition congruence).
  split; [exact Hfree|]. split; [exact Hc|].
  exact (reserve_constructor empty_state 1 5 Hfree Hc).
Defined.

(** [At_checked] on the vector [1; 2; 3]: index 1 is the element 2, index 3
    throws. *)
Lemma At_checked_witness :
  valid full_vector 1 (mkSimpleVector (mkArrayPtr (Some 1%positive)) 3 3)
    [1; 2; 3] /\
  0 <= 1 /\
  At 1 1 full_vector = Ret (Ptr 1 1) full_vector /\
  load (Ptr 1 1) full_vector = Ret 2 full_vector /\
  At 1 3 full_vector = Throw (out_of_range "out_of_range") full_vector.
Proof.
  pose proof full_vector_valid as Hv.
  assert (H1 : 0 <= 1) by lia. assert (H3 : 0 <= 3) by lia.
  split; [exact Hv|]. split; [exact H1|].
  destruct (At_checked full_vector 1 _ _ 1 Hv H1) as (_ & Hin & _).
  destruct (At_checked full_vector 1 _ _ 3 Hv H3) as (Hout & _).
  destruct (Hin ltac:(cbn; lia)) as (x & Hx & Hat & _ & _ & _ & Hload).
  destruct (Hout ltac:(cbn; lia)) as (Hthrow & _).
  split; [exact Hat|]. split; [|exact Hthrow].
  vm_compute in Hx. injection Hx as <-. exact Hload.
Defined.

(** C5.  [v.Insert(v.begin(), v[2])] on the vector [1; 2; 3] of capacity
    4.  The value passed is the element 3, so the specification gives
    [3; 1; 2; 3].  The code shifts the elements first and reads the
    reference afterwards, when its slot holds the 2: the vector becomes
    [2; 1; 2; 3] and the returned iterator points to a 2.  Size, capacity
    and the position of the returned iterator are as specified. *)
Theorem Insert_aliased_value :
  exists first value σ',
    begin 1 spare_vector = Ret first spare_vector /\
    subscript 1 2 spare_vector = Ret value spare_vector /\
    load value spare_vector = Ret 3 spare_vector /\
    Insert 1 first (Inside value) spare_vector = Ret first σ' /\
    objs σ' !! 1%positive =
      Some (mkSimpleVector (mkArrayPtr (Some 1%positive)) 4 4) /\
    heap σ' !! 1%positive = Some [2; 1; 2; 3] /\
    load first σ' = Ret 2 σ'.
Proof.
  do 3 eexists.
  do 6 (split; [vm_compute; reflexivity|]). vm_compute; reflexivity.
Qed.

(** [Insert_spec] on the full vector [1; 2; 3]: inserting a 9 held outside
    the vector at offset 1 gives [1; 9; 2; 3] with capacity 6. *)
Example Insert_spec_example :
  valid full_vector 1 (mkSimpleVector (mkArrayPtr (Some 1%positive)) 3 3)
    [1; 2; 3] /\
  0 <= 1 <= 3 /\
  grown 3 <= alloc_limit /\
  exists w l' σ',
    Insert 1 (Ptr 1 1) (Outside 9) full_vector =
      Ret (ptr_at (storage_ w) 1) σ' /\
    valid σ' 1 w l' /\
    size_ w = 4 /\ capacity_ w = 6 /\ elements w l' = [1; 9; 2; 3].
Proof.
  pose proof full_vector_valid as Hv.
  assert (Hd : 0 <= 1 <= 3) by lia.
  assert (Hg : grown 3 <= alloc_limit) by (vm_compute; congruence).
  split; [exact Hv|]. split; [exact Hd|]. split; [exact Hg|].
  destruct (Insert_spec Insert full_vector 1 _ _ 1 9 (or_introl eq_refl)
              Hv Hd (fun _ => Hg))
    as (w & l' & σ' & Hrun & Hv' & Hsz & Hel & _ & Hcap & _).
  exists w, l', σ'. split; [exact Hrun|]. split; [exact Hv'|].
  split; [exact Hsz|]. split; [exact Hcap|]. exact Hel.
Defined.

(** [Erase_Insert] on [1; 2; 3] with a spare slot, at offset 0, with the
    vector's own last element as the value. *)
Lemma Erase_Insert_witness :
  valid spare_vector 1 (mkSimpleVector (mkArrayPtr (Some 1%positive)) 3 4)
    [1; 2; 3; 0] /\
  0 <= 0 <= 3 /\
  readable spare_vector (Inside (Ptr 1 2)) /\
  exists it σ1 it' σ2 w l2,
    Insert 1 (Ptr 1 0) (Inside (Ptr 1 2)) spare_vector = Ret it σ1 /\
    Erase 1 it σ1 = Ret it' σ2 /\
    valid σ2 1 w l2 /\ size_ w = 3 /\ elements w l2 = [1; 2; 3].
Proof.
  pose proof spare_vector_valid as Hv.
  assert (Hd : 0 <= 0 <= 3) by lia.
  assert (Hval : readable spare_vector (Inside (Ptr 1 2)))
    by (exists 3; reflexivity).
  split; [exact Hv|]. split; [exact Hd|]. split; [exact Hval|].
  refine (Erase_Insert spare_vector 1 _ _ 0 _ Hv Hd _ Hval).
  cbn. lia.
Defined.

(** [Resize_spec] in its three cases: [1; 2; 3] resized to 2, the vector
    with a spare slot resized to 4, and [1; 2; 3] of capacity 3 resized to
    7, which takes capacity 12. *)
Lemma Resize_spec_witness :
  valid full_vector 1 (mkSimpleVector (mkArrayPtr (Some 1%positive)) 3 3)
    [1; 2; 3] /\
  valid spare_vector 1 (mkSimpleVector (mkArrayPtr (Some 1%positive)) 3 4)
    [1; 2; 3; 0] /\
  (64 <= 64)%nat /\
  (exists σ',
     Resize 64 1 2 full_vector = Ret tt σ' /\
     heap σ' = heap full_vector /\
     valid σ' 1 (mkSimpleVector (mkArrayPtr (Some 1%positive)) 2 3) [1; 2; 3]) /\
  (exists σ',
     Resize 64 1 4 spare_vector = Ret tt σ' /\
     valid σ' 1 (mkSimpleVector (mkArrayPtr (Some 1%positive)) 4 4)
       [1; 2; 3; 0]) /\
  (exists a σ',
     Resize 64 1 7 full_vector = Ret tt σ' /\
     valid σ' 1 (mkSimpleVector a 7 12) [1; 2; 3; 0; 0; 0; 0; 0; 0; 0; 0; 0]).
Proof.
  pose proof full_vector_valid as Hf. pose proof spare_vector_valid as Hs.
  assert (Hfuel : (64 <= 64)%nat) by lia.
  split; [exact Hf|]. split; [exact Hs|]. split; [exact Hfuel|].
  split; [|split].
  - destruct (Resize_spec full_vector 64 1 _ _ 2 Hf ltac:(lia) Hfuel)
      as (Hshrink & _).
    apply Hshrink. cbn. lia.
  - destruct (Resize_spec spare_vector 64 1 _ _ 4 Hs ltac:(lia) Hfuel)
      as (_ & Hwithin & _).
    apply Hwithin. cbn. lia.
  - destruct (Resize_spec full_vector 64 1 _ _ 7 Hf ltac:(lia) Hfuel)
      as (_ & _ & Hgrow).
    destruct (Hgrow ltac:(cbn; lia)) as [_ Hfirst].
    apply (Hfirst 2%nat).
    + cbn. lia.
    + intros [|[|j]] Hj; cbn; lia.
    + vm_compute. congruence.
Defined.

(** [copy_constructor] on [1; 2; 3] of capacity 4: the copy has capacity
    3. *)
Lemma copy_constructor_witness :
  valid spare_vector 1 (mkSimpleVector (mkArrayPtr (Some 1%positive)) 3 4)
    [1; 2; 3; 0] /\
  objs spare_vector !! 2%positive = None /\
  3 <= alloc_limit /\
  exists w lw σ',
    SimpleVector_copy 2 1 spare_vector = Ret tt σ' /\
    valid σ' 2 w lw /\
    size_ w = 3 /\ capacity_ w = 3 /\ elements w lw = [1; 2; 3] /\
    valid σ' 1 (mkSimpleVector (mkArrayPtr (Some 1%positive)) 3 4)
      [1; 2; 3; 0].
Proof.
  pose proof spare_vector_valid as Hv.
  assert (Hfree : objs spare_vector !! 2%positive = None) by reflexivity.
  assert (Hn : 3 <= alloc_limit) by (vm_compute; congruence).
  split; [exact Hv|]. split; [exact Hfree|]. split; [exact Hn|].
  exact (copy_constructor spare_vector 2 1 _ _ Hv Hfree Hn).
Defined.

End Examples.

(** ** The further properties on concrete vectors of [int] *)

Section More_examples.

#[local] Existing Instance int_element.
#[local] Existing Instance small_store.
#[local] Existing Instance int_comparable.

Lemma two_vectors_valid :
  valid two_vectors 1 (mkSimpleVector (mkArrayPtr (Some 1%positive)) 3 3)
    [1; 2; 3] /\
  valid two_vectors 2 (mkSimpleVector (mkArrayPtr (Some 2%positive)) 3 4)
    [1; 2; 4; 0].
Proof.
  split;
    (split; [reflexivity | reflexivity | reflexivity | cbn; lia
            | vm_compute; reflexivity]).
Qed.

Lemma empty_vector_valid :
  valid empty_vector 1 (mkSimpleVector (mkArrayPtr None) 0 0) [].
Proof.
  split; [reflexivity | reflexivity | reflexivity | cbn; lia
         | vm_compute; reflexivity].
Qed.

Lemma cleared_vector_valid :
  valid cleared_vector 1 (mkSimpleVector (mkArrayPtr (Some 1%positive)) 0 2)
    [5; 6].
Proof.
  split; [reflexivity | reflexivity | reflexivity | cbn; lia
         | vm_compute; reflexivity].
Qed.

Lemma small_store_holds (n : Z) : n <= 2 ^ 32 -> n <= alloc_limit.
Proof. intros Hn. exact Hn. Qed.

(** [operator_eq_spec] on [1; 2; 3] and [1; 2; 4]: different, and each
    equal to itself. *)
Lemma operator_eq_spec_witness :
  valid two_vectors 1 (mkSimpleVector (mkArrayPtr (Some 1%positive)) 3 3)
    [1; 2; 3] /\
  valid two_vectors 2 (mkSimpleVector (mkArrayPtr (Some 2%positive)) 3 4)
    [1; 2; 4; 0] /\
  operator_eq 1 2 two_vectors = Ret false two_vectors /\
  operator_ne 1 2 two_vectors = Ret true two_vectors /\
  operator_eq 2 2 two_vectors = Ret true two_vectors.
Proof.
  destruct two_vectors_valid as [H1 H2].
  split; [exact H1|]. split; [exact H2|].
  destruct (operator_eq_spec two_vectors 1 2 _ _ _ _ H1 H2) as (Heq & Hne & _).
  destruct (operator_eq_spec two_vectors 2 2 _ _ _ _ H2 H2) as (Hself & _).
  split; [exact Heq|]. split; [exact Hne|]. exact Hself.
Defined.

(** [ordering_spec] on [1; 2; 3] and [1; 2; 4]. *)
Lemma ordering_spec_witness :
  valid two_vectors 1 (mkSimpleVector (mkArrayPtr (Some 1%positive)) 3 3)
    [1; 2; 3] /\
  valid two_vectors 2 (mkSimpleVector (mkArrayPtr (Some 2%positive)) 3 4)
    [1; 2; 4; 0] /\
  operator_lt 1 2 two_vectors = Ret true two_vectors /\
  operator_gt 1 2 two_vectors = Ret false two_vectors /\
  operator_le 1 2 two_vectors = Ret true two_vectors /\
  operator_ge 1 2 two_vectors = Ret false two_vectors.
Proof.
  destruct two_vectors_valid as [H1 H2].
  split; [exact H1|]. split; [exact H2|].
  exact (ordering_spec two_vectors 1 2 _ _ _ _ H1 H2).
Defined.

Lemma int_eq_spec (x y : Z) : elem_eq x y = true <-> x = y.
Proof. apply Z.eqb_eq. Qed.

Lemma int_lt_asym (x y : Z) : elem_lt x y = true -> elem_lt y x = false.
Proof. cbn. intros Hlt. apply Z.ltb_lt in Hlt. apply Z.ltb_ge. lia. Qed.

Lemma int_lt_total (x y : Z) :
  elem_lt x y = false -> elem_lt y x = false -> x = y.
Proof.
  cbn. intros H1 H2. apply Z.ltb_ge in H1. apply Z.ltb_ge in H2. lia.
Qed.

(** [comparison_trichotomy] on [1; 2; 3] and [1; 2; 4] of [int]. *)
Lemma comparison_trichotomy_witness :
  valid two_vectors 1 (mkSimpleVector (mkArrayPtr (Some 1%positive)) 3 3)
    [1; 2; 3] /\
  valid two_vectors 2 (mkSimpleVector (mkArrayPtr (Some 2%positive)) 3 4)
    [1; 2; 4; 0] /\
  exists lt eq gt,
    operator_lt 1 2 two_vectors = Ret lt two_vectors /\
    operator_eq 1 2 two_vectors = Ret eq two_vectors /\
    operator_gt 1 2 two_vectors = Ret gt two_vectors /\
    ((lt = true /\ eq = false /\ gt = false) \/
     (lt = false /\ eq = true /\ gt = false) \/
     (lt = false /\ eq = false /\ gt = true)).
Proof.
  destruct two_vectors_valid as [H1 H2].
  split; [exact H1|]. split; [exact H2|].
  exact (comparison_trichotomy two_vectors 1 2 _ _ _ _ H1 H2
           int_eq_spec int_lt_asym int_lt_total).
Defined.

(** [copy_compares_equal] on [1; 2; 3] of capacity 4. *)
Lemma copy_compares_equal_witness :
  valid spare_vector 1 (mkSimpleVector (mkArrayPtr (Some 1%positive)) 3 4)
    [1; 2; 3; 0] /\
  objs spare_vector !! 2%positive = None /\
  3 <= alloc_limit /\
  exists σ',
    SimpleVector_copy 2 1 spare_vector = Ret tt σ' /\
    operator_eq 2 1 σ' = Ret true σ' /\
    operator_eq 1 2 σ' = Ret true σ'.
Proof.
  pose proof spare_vector_valid as Hv.
  assert (Hfree : objs spare_vector !! 2%positive = None) by reflexivity.
  assert (Hn : 3 <= alloc_limit) by (apply small_store_holds; lia).
  split; [exact Hv|]. split; [exact Hfree|]. split; [exact Hn|].
  exact (copy_compares_equal spare_vector 2 1 _ _ Hv Hfree Hn Z.eqb_refl).
Defined.

(** [Erase_spec] on [1; 2; 3] at offset 1. *)
Lemma Erase_spec_witness :
  valid full_vector 1 (mkSimpleVector (mkArrayPtr (Some 1%positive)) 3 3)
    [1; 2; 3] /\
  0 <= 1 < 3 /\
  exists l' σ',
    Erase 1 (Ptr 1 1) full_vector = Ret (Ptr 1 1) σ' /\
    valid σ' 1 (mkSimpleVector (mkArrayPtr (Some 1%positive)) 2 3) l' /\
    elements (mkSimpleVector (mkArrayPtr (Some 1%positive)) 2 3) l' = [1; 3].
Proof.
  pose proof full_vector_valid as Hv.
  assert (Hd : 0 <= 1 < 3) by lia.
  split; [exact Hv|]. split; [exact Hd|].
  exact (Erase_spec full_vector 1 _ _ 1 Hv Hd).
Defined.

(** [Erase_at_end] on [1; 2; 3]. *)
Lemma Erase_at_end_witness :
  valid full_vector 1 (mkSimpleVector (mkArrayPtr (Some 1%positive)) 3 3)
    [1; 2; 3] /\
  3 <= alloc_limit /\
  Erase 1 (Ptr 1 3) full_vector = Undefined.
Proof.
  pose proof full_vector_valid as Hv.
  assert (Hn : 3 <= alloc_limit) by (apply small_store_holds; lia).
  split; [exact Hv|]. split; [exact Hn|].
  exact (Erase_at_end full_vector 1 _ _ Hv Hn).
Defined.

(** [PopBack_PushBack] on the full vector [1; 2; 3], pushing its own
    first element. *)
Lemma PopBack_PushBack_witness :
  valid full_vector 1 (mkSimpleVector (mkArrayPtr (Some 1%positive)) 3 3)
    [1; 2; 3] /\
  grown 3 <= alloc_limit /\
  readable full_vector (Inside (Ptr 1 0)) /\
  exists σ1 σ2 w l2,
    PushBack 1 (Inside (Ptr 1 0)) full_vector = Ret tt σ1 /\
    PopBack 1 σ1 = Ret tt σ2 /\
    valid σ2 1 w l2 /\ size_ w = 3 /\ elements w l2 = [1; 2; 3].
Proof.
  pose proof full_vector_valid as Hv.
  assert (Hg : grown 3 <= alloc_limit) by (apply small_store_holds; cbn; lia).
  assert (Hval : readable full_vector (Inside (Ptr 1 0)))
    by (exists 1; reflexivity).
  split; [exact Hv|]. split; [exact Hg|]. split; [exact Hval|].
  exact (PopBack_PushBack full_vector 1 _ _ _ Hv (fun _ => Hg) Hval).
Defined.

(** [PopBack_empty] on a default-constructed vector. *)
Lemma PopBack_empty_witness :
  valid empty_vector 1 (mkSimpleVector (mkArrayPtr None) 0 0) [] /\
  0 <= alloc_limit /\
  PopBack 1 empty_vector =
    Ret tt (set_obj 1 (mkSimpleVector (mkArrayPtr None)
                         18446744073709551615 0) empty_vector) /\
  ~ size_le_capacity (mkSimpleVector (mkArrayPtr None) 18446744073709551615 0).
Proof.
  pose proof empty_vector_valid as Hv.
  assert (Hn : 0 <= alloc_limit) by (apply small_store_holds; lia).
  split; [exact Hv|]. split; [exact Hn|].
  exact (PopBack_empty empty_vector 1 _ _ Hv eq_refl Hn).
Defined.

(** [Resize_after_Clear] on [1; 2; 3] of capacity 4, resized to 2. *)
Lemma Resize_after_Clear_witness :
  valid spare_vector 1 (mkSimpleVector (mkArrayPtr (Some 1%positive)) 3 4)
    [1; 2; 3; 0] /\
  0 <= 2 <= 4 /\
  exists σ1 σ2 l2,
    Clear 1 spare_vector = Ret tt σ1 /\
    Resize 0 1 2 σ1 = Ret tt σ2 /\
    valid σ2 1 (mkSimpleVector (mkArrayPtr (Some 1%positive)) 2 4) l2 /\
    elements (mkSimpleVector (mkArrayPtr (Some 1%positive)) 2 4) l2 = [0; 0] /\
    dom (heap σ2) = dom (heap spare_vector) /\
    heap σ2 !! 2%positive = None.
Proof.
  pose proof spare_vector_valid as Hv.
  assert (Hn : 0 <= 2 <= 4) by lia.
  split; [exact Hv|]. split; [exact Hn|].
  destruct (Resize_after_Clear spare_vector 0 1 _ _ 2 Hv Hn)
    as (σ1 & σ2 & l2 & Hrun1 & Hrun2 & Hv2 & Hel & Hdom & Hother).
  exists σ1, σ2, l2. split; [exact Hrun1|]. split; [exact Hrun2|].
  split; [exact Hv2|]. split; [exact Hel|]. split; [exact Hdom|].
  exact (Hother 2%positive ltac:(discriminate)).
Defined.

(** [constructors_spec] in the empty state: the initializer list
    [7; 8]. *)
Lemma constructors_spec_witness :
  objs (empty_state (T:=Z)) !! 1%positive = None /\
  Z.of_nat (length [7; 8]) <= alloc_limit /\
  exists a σ',
    SimpleVector_init 1 [7; 8] empty_state = Ret tt σ' /\
    valid σ' 1 (mkSimpleVector a 2 2) [7; 8].
Proof.
  assert (Hfree : objs (empty_state (T:=Z)) !! 1%positive = None)
    by reflexivity.
  assert (Hn : Z.of_nat (length [7; 8]) <= alloc_limit)
    by (apply small_store_holds; cbn; lia).
  split; [exact Hfree|]. split; [exact Hn|].
  destruct (constructors_spec empty_state 1 Hfree) as (_ & _ & _ & Hinit).
  exact (Hinit [7; 8] Hn).
Defined.

(** [Reserve_spec] on [1; 2; 3] of capacity 3: requests for 2, for 8 and
    for more than the store can deliver. *)
Lemma Reserve_spec_witness :
  valid full_vector 1 (mkSimpleVector (mkArrayPtr (Some 1%positive)) 3 3)
    [1; 2; 3] /\
  Reserve 1 2 full_vector = Ret tt full_vector /\
  (exists a l' σ',
     Reserve 1 8 full_vector = Ret tt σ' /\
     valid σ' 1 (mkSimpleVector a 3 8) l' /\
     elements (mkSimpleVector a 3 8) l' = [1; 2; 3] /\
     heap σ' !! 1%positive = None) /\
  Reserve 1 (2 ^ 32 + 1) full_vector = Throw bad_alloc full_vector.
Proof.
  pose proof full_vector_valid as Hv.
  split; [exact Hv|].
  destruct (Reserve_spec full_vector 1 _ _ 2 Hv) as (Hkeep & _).
  destruct (Reserve_spec full_vector 1 _ _ 8 Hv) as (_ & Hgrow & _).
  destruct (Reserve_spec full_vector 1 _ _ (2 ^ 32 + 1) Hv) as (_ & _ & Hthrow).
  split; [apply Hkeep; cbn; lia|]. split.
  - destruct (Hgrow ltac:(split; [cbn; lia|apply small_store_holds; lia]))
      as (a & l' & σ' & Hrun & Hv' & Hel & Hfreed).
    exists a, l', σ'. split; [exact Hrun|]. split; [exact Hv'|].
    split; [exact Hel|]. exact (Hfreed 1%positive eq_refl).
  - apply Hthrow; cbn; lia.
Defined.

(** [Resize_never_returns] on a default-constructed vector. *)
Lemma Resize_never_returns_witness :
  objs empty_vector !! 1%positive =
    Some (mkSimpleVector (mkArrayPtr None) 0 0) /\
  2 ^ 63 < 2 ^ 63 + 1 /\
  forall fuel, Resize fuel 1 (2 ^ 63 + 1) empty_vector = Diverge.
Proof.
  assert (Ho : objs empty_vector !! 1%positive =
               Some (mkSimpleVector (mkArrayPtr None) 0 0)) by reflexivity.
  assert (Hn : 2 ^ 63 < 2 ^ 63 + 1) by lia.
  split; [exact Ho|]. split; [exact Hn|].
  intros fuel.
  exact (Resize_never_returns empty_vector fuel 1 _ _ Ho eq_refl Hn).
Defined.


Lemma two_vectors_separate :
  separate (mkArrayPtr (Some 1%positive)) (mkArrayPtr (Some 2%positive)).
Proof. intros b Hb1 Hb2. cbn in Hb1, Hb2. congruence. Qed.

(** [swap_spec] on [1; 2; 3] and [1; 2; 4]. *)
Lemma swap_spec_witness :
  valid two_vectors 1 (mkSimpleVector (mkArrayPtr (Some 1%positive)) 3 3)
    [1; 2; 3] /\
  valid two_vectors 2 (mkSimpleVector (mkArrayPtr (Some 2%positive)) 3 4)
    [1; 2; 4; 0] /\
  (exists σ',
     swap 1 2 two_vectors = Ret tt σ' /\
     valid σ' 1 (mkSimpleVector (mkArrayPtr (Some 2%positive)) 3 4)
       [1; 2; 4; 0] /\
     valid σ' 2 (mkSimpleVector (mkArrayPtr (Some 1%positive)) 3 3)
       [1; 2; 3] /\
     swap 1 2 σ' = Ret tt two_vectors) /\
  swap 1 1 two_vectors = Ret tt two_vectors.
Proof.
  destruct two_vectors_valid as [H1 H2].
  split; [exact H1|]. split; [exact H2|].
  destruct (swap_spec two_vectors 1 2 _ _ _ _ H1 H2) as [Hswap Hself].
  split; [|exact Hself].
  destruct (Hswap ltac:(discriminate)) as (σ' & Hrun & _ & Hb & Ha & Hback).
  exists σ'. split; [exact Hrun|]. split; [exact Hb|]. split; [exact Ha|].
  exact Hback.
Defined.

(** [assign_copy_spec]: [1; 2; 4] of capacity 4 assigned to the vector
    [1; 2; 3]. *)
Lemma assign_copy_spec_witness :
  valid two_vectors 1 (mkSimpleVector (mkArrayPtr (Some 1%positive)) 3 3)
    [1; 2; 3] /\
  valid two_vectors 2 (mkSimpleVector (mkArrayPtr (Some 2%positive)) 3 4)
    [1; 2; 4; 0] /\
  3 <= alloc_limit /\
  exists w lw σ',
    assign_copy 1 2 two_vectors = Ret 1%positive σ' /\
    valid σ' 1 w lw /\
    size_ w = 3 /\ capacity_ w = 3 /\ elements w lw = [1; 2; 4] /\
    valid σ' 2 (mkSimpleVector (mkArrayPtr (Some 2%positive)) 3 4)
      [1; 2; 4; 0].
Proof.
  destruct two_vectors_valid as [H1 H2].
  assert (Hn : 3 <= alloc_limit) by (apply small_store_holds; lia).
  split; [exact H1|]. split; [exact H2|]. split; [exact Hn|].
  exact (assign_copy_spec two_vectors 1 2 _ _ _ _ H1 H2
           ltac:(discriminate) two_vectors_separate Hn).
Defined.

(** [PushBack_within_capacity]: 7 and 8 pushed onto a cleared vector of
    capacity 2. *)
Lemma PushBack_within_capacity_witness :
  valid cleared_vector 1 (mkSimpleVector (mkArrayPtr (Some 1%positive)) 0 2)
    [5; 6] /\
  0 + Z.of_nat (length [7; 8]) <= 2 /\
  exists w l' σ',
    PushBack_all 1 [7; 8] cleared_vector = Ret tt σ' /\
    valid σ' 1 w l' /\
    storage_ w = mkArrayPtr (Some 1%positive) /\
    capacity_ w = 2 /\ size_ w = 2 /\ elements w l' = [7; 8] /\
    begin 1 σ' = Ret (Ptr 1 0) σ'.
Proof.
  pose proof cleared_vector_valid as Hv.
  assert (Hfit : 0 + Z.of_nat (length [7; 8]) <= 2) by (cbn; lia).
  split; [exact Hv|]. split; [exact Hfit|].
  exact (PushBack_within_capacity cleared_vector 1 _ _ [7; 8] Hv Hfit).
Defined.

(** [PushBack_from_empty] with three items: capacity 4. *)
Lemma PushBack_from_empty_witness :
  objs (empty_state (T:=Z)) !! 1%positive = None /\
  2 * Z.of_nat (length [1; 2; 3]) <= alloc_limit /\
  exists w l' σ',
    (SimpleVector_default 1;; PushBack_all 1 [1; 2; 3]) empty_state =
      Ret tt σ' /\
    valid σ' 1 w l' /\
    size_ w = 3 /\ elements w l' = [1; 2; 3] /\ capacity_ w = 4.
Proof.
  assert (Hfree : objs (empty_state (T:=Z)) !! 1%positive = None)
    by reflexivity.
  assert (Hn : 2 * Z.of_nat (length [1; 2; 3]) <= alloc_limit)
    by (apply small_store_holds; cbn; lia).
  split; [exact Hfree|]. split; [exact Hn|].
  destruct (PushBack_from_empty empty_state 1 [1; 2; 3] Hfree Hn)
    as (w & l' & σ' & Hrun & Hv & Hsz & Hel & Hpow).
  exists w, l', σ'. split; [exact Hrun|]. split; [exact Hv|].
  split; [exact Hsz|]. split; [exact Hel|].
  destruct Hpow as [[Hz _]|(_ & j & Hcap & Hle & Hmin)]; [discriminate Hz|].
  rewrite Hcap. cbn [length Z.of_nat Pos.of_succ_nat Pos.succ] in Hle, Hmin.
  destruct j as [|[|[|j]]].
  - cbn in Hle. lia.
  - cbn in Hle. lia.
  - reflexivity.
  - specialize (Hmin 2%nat ltac:(lia)). cbn in Hmin. lia.
Defined.

(** [Insert_invalidates] on the full vector [1; 2; 3], inserting its own
    last element. *)
Lemma Insert_invalidates_witness :
  valid full_vector 1 (mkSimpleVector (mkArrayPtr (Some 1%positive)) 3 3)
    [1; 2; 3] /\
  0 <= 1 <= 3 /\ grown 3 <= alloc_limit /\
  readable full_vector (Inside (Ptr 1 2)) /\
  exists it σ',
    Insert 1 (Ptr 1 1) (Inside (Ptr 1 2)) full_vector = Ret it σ' /\
    load (Ptr 1 0) σ' = Undefined /\
    it ≠ Ptr 1 1.
Proof.
  pose proof full_vector_valid as Hv.
  assert (Hd : 0 <= 1 <= 3) by lia.
  assert (Hg : grown 3 <= alloc_limit) by (apply small_store_holds; cbn; lia).
  assert (Hval : readable full_vector (Inside (Ptr 1 2)))
    by (exists 3; reflexivity).
  split; [exact Hv|]. split; [exact Hd|]. split; [exact Hg|].
  split; [exact Hval|].
  destruct (Insert_invalidates full_vector 1 _ _ 1 _ Hv Hd eq_refl
              ltac:(cbn; lia) Hg Hval) as (it & σ' & Hrun & Hload & Hne).
  exists it, σ'. split; [exact Hrun|]. split; [exact (Hload 0)|].
  exact (Hne 1).
Defined.

(** [PushBack_after_move]: the vector [1; 2; 3] after a vector was
    move-constructed from it. *)
Lemma PushBack_after_move_witness :
  objs full_vector !! 1%positive =
    Some (mkSimpleVector (mkArrayPtr (Some 1%positive)) 3 3) /\
  objs full_vector !! 2%positive = None /\
  0 < 3 /\
  exists σ',
    SimpleVector_move 2 1 full_vector = Ret tt σ' /\
    objs σ' !! 1%positive = Some (mkSimpleVector (mkArrayPtr None) 0 3) /\
    PushBack 1 (Outside 9) σ' = Undefined.
Proof.
  assert (Ho : objs full_vector !! 1%positive =
               Some (mkSimpleVector (mkArrayPtr (Some 1%positive)) 3 3))
    by reflexivity.
  assert (Hfree : objs full_vector !! 2%positive = None) by reflexivity.
  assert (Hc : 0 < 3) by lia.
  split; [exact Ho|]. split; [exact Hfree|]. split; [exact Hc|].
  exact (PushBack_after_move full_vector 2 1 _ (Outside 9) Ho Hfree Hc).
Defined.

(** [subscript_unchecked] on [1; 2; 3] of capacity 4: index 3 is the
    spare slot, index 5 is outside the buffer. *)
Lemma subscript_unchecked_witness :
  valid spare_vector 1 (mkSimpleVector (mkArrayPtr (Some 1%positive)) 3 4)
    [1; 2; 3; 0] /\
  subscript 1 3 spare_vector = Ret (Ptr 1 3) spare_vector /\
  load (Ptr 1 3) spare_vector = Ret 0 spare_vector /\
  At 1 3 spare_vector = Throw (out_of_range "out_of_range") spare_vector /\
  subscript 1 5 spare_vector = Undefined.
Proof.
  pose proof spare_vector_valid as Hv.
  split; [exact Hv|].
  destruct (subscript_unchecked spare_vector 1 _ _ 3 Hv ltac:(lia))
    as [Hslack _].
  destruct (subscript_unchecked spare_vector 1 _ _ 5 Hv ltac:(lia))
    as [_ Hout].
  destruct (Hslack ltac:(cbn; lia)) as (x & Hx & Hsub & Hload & Hat).
  destruct (Hout ltac:(cbn; lia)) as [Hundef _].
  split; [exact Hsub|]. split; [|split; [exact Hat|exact Hundef]].
  vm_compute in Hx. injection Hx as <-. exact Hload.
Defined.

(** [copy_independent] on [1; 2; 3] of capacity 4: the source's first
    element inserted into the copy, and a 9 inserted into the source. *)
Lemma copy_independent_witness :
  valid spare_vector 1 (mkSimpleVector (mkArrayPtr (Some 1%positive)) 3 4)
    [1; 2; 3; 0] /\
  objs spare_vector !! 2%positive = None /\
  3 <= alloc_limit /\
  exists w lw σ1,
    SimpleVector_copy 2 1 spare_vector = Ret tt σ1 /\
    valid σ1 2 w lw /\
    readable σ1 (Inside (Ptr 1 0)) /\
    (exists it σ2,
       Insert 2 (ptr_at (storage_ w) 0) (Inside (Ptr 1 0)) σ1 = Ret it σ2 /\
       valid σ2 1 (mkSimpleVector (mkArrayPtr (Some 1%positive)) 3 4)
         [1; 2; 3; 0]) /\
    (exists it σ2,
       Insert 1 (Ptr 1 0) (Outside 9) σ1 = Ret it σ2 /\ valid σ2 2 w lw).
Proof.
  pose proof spare_vector_valid as Hv.
  assert (Hfree : objs spare_vector !! 2%positive = None) by reflexivity.
  assert (Hn : 3 <= alloc_limit) by (apply small_store_holds; lia).
  split; [exact Hv|]. split; [exact Hfree|]. split; [exact Hn|].
  destruct (copy_independent spare_vector 2 1 _ _ Hv Hfree Hn)
    as (w & lw & σ1 & Hrun & Hw & Hv1 & Hcap & Hcopy & Hsource).
  exists w, lw, σ1. split; [exact Hrun|]. split; [exact Hw|].
  pose proof (valid_size _ _ _ _ Hw) as Hs.
  assert (Hval : readable σ1 (Inside (Ptr 1 0))).
  { exists 1.
    exact (load_at_run σ1 (mkArrayPtr (Some 1%positive)) [1; 2; 3; 0] 0 1
             (valid_buffer _ _ _ _ Hv1) ltac:(lia) eq_refl). }
  split; [exact Hval|]. split.
  - apply Hcopy; [lia| |exact Hval]. intros _. rewrite Hcap.
    apply small_store_holds. cbn. lia.
  - apply (Hsource 0 (Outside 9)); [cbn; lia|cbn; lia|].
    apply readable_outside.
Defined.

End More_examples.

Section String_examples.

#[local] Existing Instance string_element.
#[local] Existing Instance small_store.

Lemma full_strings_valid :
  valid full_strings 1 (mkSimpleVector (mkArrayPtr (Some 1%positive)) 2 2)
    ["a"; "b"]%string.
Proof.
  split; [reflexivity | reflexivity | reflexivity | cbn; lia
         | vm_compute; reflexivity].
Qed.

(** [At_after_PushBack] on the full vector of strings ["a"; "b"]: a "c"
    held outside the vector is found at index 2; the vector's own first
    element, pushed by reference, arrives as the empty string. *)
Lemma At_after_PushBack_witness :
  valid full_strings 1 (mkSimpleVector (mkArrayPtr (Some 1%positive)) 2 2)
    ["a"; "b"]%string /\
  grown 2 <= alloc_limit /\
  (exists σ' p,
     PushBack 1 (Outside "c"%string) full_strings = Ret tt σ' /\
     At 1 2 σ' = Ret p σ' /\
     load p σ' = Ret "c"%string σ') /\
  (exists σ' p,
     load (Ptr 1 0) full_strings = Ret "a"%string full_strings /\
     PushBack 1 (Inside (Ptr 1 0)) full_strings = Ret tt σ' /\
     At 1 2 σ' = Ret p σ' /\
     load p σ' = Ret EmptyString σ').
Proof.
  pose proof full_strings_valid as Hv.
  assert (Hg : grown 2 <= alloc_limit) by (apply small_store_holds; cbn; lia).
  split; [exact Hv|]. split; [exact Hg|].
  destruct (At_after_PushBack full_strings 1 _ _ Hv (fun _ => Hg))
    as [Hout Hown].
  split; [exact (Hout "c"%string)|].
  destruct (Hown 0 "a"%string ltac:(lia) eq_refl)
    as (q & σ' & p & Hsub & Hq & Hrun & Hat & Hload).
  vm_compute in Hsub. injection Hsub as <-.
  exists σ', p. split; [exact Hq|]. split; [exact Hrun|].
  split; [exact Hat|]. exact Hload.
Defined.

End String_examples.

Section Iteration_examples.

#[local] Existing Instance int_element.
#[local] Existing Instance small_store.

(** [assign_move_spec] on [1; 2; 3] at address 1 and [1; 2; 4] of
    capacity 4 at address 2. *)
Lemma assign_move_spec_witness :
  valid two_vectors 1 (mkSimpleVector (mkArrayPtr (Some 1%positive)) 3 3)
    [1; 2; 3] /\
  valid two_vectors 2 (mkSimpleVector (mkArrayPtr (Some 2%positive)) 3 4)
    [1; 2; 4; 0] /\
  (exists σ',
     assign_move 1 2 two_vectors = Ret 1%positive σ' /\
     objs σ' !! 1%positive =
       Some (mkSimpleVector (mkArrayPtr (Some 2%positive)) 3 0) /\
     buffer σ' (mkArrayPtr (Some 2%positive)) = Some [1; 2; 4; 0] /\
     objs σ' !! 2%positive = Some (mkSimpleVector (mkArrayPtr None) 0 4) /\
     heap σ' = delete 1%positive (heap two_vectors) /\
     heap σ' !! 1%positive = None) /\
  assign_move 1 1 two_vectors = Ret 1%positive two_vectors.
Proof.
  destruct two_vectors_valid as [H1 H2].
  split; [exact H1|]. split; [exact H2|].
  destruct (assign_move_spec two_vectors 1 2 _ _ _ _ H1 H2
              ltac:(discriminate) two_vectors_separate) as [Hmove Hself].
  split; [|exact Hself].
  destruct Hmove as (σ' & Hrun & Hthis & Hbuf & Hrhs & Hheap & Hfreed).
  exists σ'. split; [exact Hrun|]. split; [exact Hthis|].
  split; [exact Hbuf|]. split; [exact Hrhs|]. split; [exact Hheap|].
  exact (Hfreed 1%positive eq_refl).
Defined.

(** [iterators_spec] on [1; 2; 3] of capacity 4. *)
Lemma iterators_spec_witness :
  valid spare_vector 1 (mkSimpleVector (mkArrayPtr (Some 1%positive)) 3 4)
    [1; 2; 3; 0] /\
  exists first last,
    begin 1 spare_vector = Ret first spare_vector /\
    end_ 1 spare_vector = Ret last spare_vector /\
    std_distance first last spare_vector = Ret 3 spare_vector /\
    GetSize 1 spare_vector = Ret 3 spare_vector /\
    (IsEmpty 1 spare_vector = Ret true spare_vector <-> first = last) /\
    exists p, ptr_add first 2 spare_vector = Ret p spare_vector /\
              load p spare_vector = Ret 3 spare_vector.
Proof.
  pose proof spare_vector_valid as Hv.
  split; [exact Hv|].
  destruct (iterators_spec spare_vector 1 _ _ Hv)
    as (first & last & Hb & He & _ & _ & _ & _ & Hd & Hs & Hemp & Hread).
  exists first, last. split; [exact Hb|]. split; [exact He|].
  split; [exact Hd|]. split; [exact Hs|]. split; [exact Hemp|].
  exact (Hread 2%nat 3 eq_refl).
Defined.

(** [PushBack_after_Reserve] on [1; 2; 3]: [Reserve(8)], then two
    [PushBack]s. *)
Lemma PushBack_after_Reserve_witness :
  valid full_vector 1 (mkSimpleVector (mkArrayPtr (Some 1%positive)) 3 3)
    [1; 2; 3] /\
  3 < 8 <= alloc_limit /\
  3 + Z.of_nat (length [4; 5]) <= 8 /\
  exists σ1 σ2 p w l2,
    Reserve 1 8 full_vector = Ret tt σ1 /\
    begin 1 σ1 = Ret p σ1 /\
    PushBack_all 1 [4; 5] σ1 = Ret tt σ2 /\
    begin 1 σ2 = Ret p σ2 /\
    valid σ2 1 w l2 /\
    capacity_ w = 8 /\ size_ w = 5 /\ elements w l2 = [1; 2; 3; 4; 5].
Proof.
  pose proof full_vector_valid as Hv.
  assert (Hn : 3 < 8 <= alloc_limit)
    by (split; [lia | apply small_store_holds; lia]).
  assert (Hfit : 3 + Z.of_nat (length [4; 5]) <= 8) by (cbn; lia).
  split; [exact Hv|]. split; [exact Hn|]. split; [exact Hfit|].
  exact (PushBack_after_Reserve full_vector 1 _ _ 8 [4; 5] Hv Hn Hfit).
Defined.

(** [Insert_Erase] on [1; 2; 3]: erase the 2, insert it again. *)
Lemma Insert_Erase_witness :
  valid full_vector 1 (mkSimpleVector (mkArrayPtr (Some 1%positive)) 3 3)
    [1; 2; 3] /\
  0 <= 1 < 3 /\
  exists it σ1 σ2 l2,
    Erase 1 (Ptr 1 1) full_vector = Ret it σ1 /\
    Insert 1 it (Outside 2) σ1 = Ret it σ2 /\
    valid σ2 1 (mkSimpleVector (mkArrayPtr (Some 1%positive)) 3 3) l2 /\
    elements (mkSimpleVector (mkArrayPtr (Some 1%positive)) 3 3) l2 =
      [1; 2; 3].
Proof.
  pose proof full_vector_valid as Hv.
  assert (Hd : 0 <= 1 < 3) by lia.
  split; [exact Hv|]. split; [exact Hd|].
  exact (Insert_Erase full_vector 1 _ _ 1 2 Hv Hd eq_refl).
Defined.

(** [Insert_past_end] on [1; 2; 3] of capacity 4, at one past [end()]. *)
Lemma Insert_past_end_witness :
  valid spare_vector 1 (mkSimpleVector (mkArrayPtr (Some 1%positive)) 3 4)
    [1; 2; 3; 0] /\
  3 < 4 <= 4 /\
  Insert 1 (Ptr 1 4) (Outside 9) spare_vector = Undefined.
Proof.
  pose proof spare_vector_valid as Hv.
  assert (Hd : 3 < 4 <= 4) by lia.
  split; [exact Hv|]. split; [exact Hd|].
  exact (Insert_past_end spare_vector 1 _ _ 4 (Outside 9) Hv Hd).
Defined.

End Iteration_examples.

Section Aliasing_examples.

#[local] Existing Instance int_element.
#[local] Existing Instance small_store.

(** [reserve_constructor_failure] for a request of [2^32 + 1] slots from
    a store that delivers at most [2^32]. *)
Lemma reserve_constructor_failure_witness :
  objs (empty_state (T:=Z)) !! 1%positive = None /\
  alloc_limit < 2 ^ 32 + 1 /\
  SimpleVector_reserve 1 (ReserveProxy (2 ^ 32 + 1)) (empty_state (T:=Z)) =
    Throw bad_alloc empty_state.
Proof.
  assert (Hfree : objs (empty_state (T:=Z)) !! 1%positive = None)
    by reflexivity.
  assert (Hc : alloc_limit < 2 ^ 32 + 1) by (cbn; lia).
  split; [exact Hfree|]. split; [exact Hc|].
  exact (reserve_constructor_failure empty_state 1 _ Hfree Hc).
Defined.

(** [Insert_own_element] on [1; 2; 3] of capacity 4:
    [v.Insert(v.begin(), v[2])] inserts the 2 that precedes the 3. *)
Lemma Insert_own_element_witness :
  valid spare_vector 1 (mkSimpleVector (mkArrayPtr (Some 1%positive)) 3 4)
    [1; 2; 3; 0] /\
  0 <= 0 <= 3 /\ 0 <= 2 /\
  load (Ptr 1 2) spare_vector = Ret 3 spare_vector /\
  exists w l' σ',
    Insert 1 (Ptr 1 0) (Inside (Ptr 1 2)) spare_vector =
      Ret (ptr_at (storage_ w) 0) σ' /\
    valid σ' 1 w l' /\
    elements w l' = [2; 1; 2; 3].
Proof.
  pose proof spare_vector_valid as Hv.
  assert (Hd : 0 <= 0 <= 3) by lia. assert (Hi : 0 <= 2) by lia.
  split; [exact Hv|]. split; [exact Hd|]. split; [exact Hi|].
  split; [reflexivity|].
  destruct (Insert_own_element spare_vector 1 _ _ 0 2 3 Hv Hd Hi
              ltac:(cbn; lia) eq_refl ltac:(cbn; lia))
    as (y & w & l' & σ' & Hrun & Hv' & _ & Hel & _ & Hafter & _).
  specialize (Hafter ltac:(cbn; lia) ltac:(lia)).
  vm_compute in Hafter. injection Hafter as <-.
  exists w, l', σ'. split; [exact Hrun|]. split; [exact Hv'|]. exact Hel.
Defined.

End Aliasing_examples.

End SimpleVectorModel.
